(** * go-tlasca: temporal laser speckle contrast analysis

    A shallow embedding of [internal/tlasca/tlasca.go] together with the
    parts of Go's [image] and [math] packages it calls, and the properties
    of the contrast-map computation; of the file names of the frames
    ([internal/imageutils]); and of the configuration and the loading of
    the frames ([internal/config], the main package), where the file
    system, the JSON decoder and the image decoder are parameters.

    Conventions.
    - A Go [int] is a [Z] in the 64-bit two's-complement range; every
      arithmetic operation of the source is written with its wrap-around
      ([int_add], [int_sub], [int_mul]).
    - A Go [float64] is an IEEE 754 binary64 value, [spec_float] with
      [prec = 53] and [emax = 1024]; its operations are the correctly
      rounded ones of [SpecFloat].
    - A run-time panic is the [Panic] outcome of the [result] monad.
    - A slice is a list; indexing out of range panics.
    - A Go string is a list of bytes ([ascii]). *)

From Stdlib Require Import ZArith List Bool Lia.
From Stdlib Require Import Floats.SpecFloat.
From Stdlib Require Ascii String.
From stdpp Require Import base tactics option list list_numbers relations.
Import Ascii.AsciiSyntax String.StringSyntax.

Delimit Scope char_scope with char.
Delimit Scope string_scope with string.
Bind Scope char_scope with Ascii.ascii.
Bind Scope string_scope with String.string.
Local Open Scope Z_scope.

(** ** Run-time panics and the [result] monad *)

Inductive panic : Type :=
  | IndexOutOfRange
  | MakesliceLenOutOfRange
  | MakesliceCapOutOfRange
  | IntegerDivideByZero
  | NegativeWaitGroupCounter
  | NewGrayHugeOrNegative.

Inductive result (A : Type) : Type :=
  | Ok (a : A)
  | Panic (p : panic).
Arguments Ok {A} a.
Arguments Panic {A} p.

Definition result_bind {A B} (f : A -> result B) (m : result A) : result B :=
  match m with
  | Ok a => f a
  | Panic p => Panic p
  end.

Global Instance result_mret : MRet result := fun A a => Ok a.
Global Instance result_mbind : MBind result := fun A B f m => result_bind f m.

(** A [for] loop over a slice or an index range that threads an
    accumulator and stops at the first panic. *)
Fixpoint foldM {A B} (f : A -> B -> result A) (a : A) (l : list B) : result A :=
  match l with
  | [] => Ok a
  | b :: l' => a' ← f a b; foldM f a' l'
  end.

(** A loop that appends one computed element per iteration. *)
Fixpoint appendM {A B} (f : B -> result A) (l : list B) : result (list A) :=
  match l with
  | [] => Ok []
  | b :: l' => a ← f b; r ← appendM f l'; Ok (a :: r)
  end.

(** ** Go [int]: 64-bit two's complement *)

Definition int_min : Z := - 2 ^ 63.
Definition int_max : Z := 2 ^ 63 - 1.
Definition is_int (z : Z) : Prop := int_min <= z <= int_max.

Definition wrap (z : Z) : Z := (z + 2 ^ 63) mod 2 ^ 64 - 2 ^ 63.

Definition int_add (a b : Z) : Z := wrap (a + b).
Definition int_sub (a b : Z) : Z := wrap (a - b).
Definition int_mul (a b : Z) : Z := wrap (a * b).

(** [a / b] on ints truncates toward zero and panics when [b = 0]. *)
Definition int_div (a b : Z) : result Z :=
  if b =? 0 then Panic IntegerDivideByZero else Ok (wrap (Z.quot a b)).

(** ** Slices *)

Definition len {A} (s : list A) : Z := Z.of_nat (length s).

(** [s[i]] *)
Definition slice_get {A} (s : list A) (i : Z) : result A :=
  if i <? 0 then Panic IndexOutOfRange
  else match s !! Z.to_nat i with
       | Some a => Ok a
       | None => Panic IndexOutOfRange
       end.

(** [s[i] = a] *)
Definition slice_set {A} (s : list A) (i : Z) (a : A) : result (list A) :=
  if (0 <=? i) && (i <? len s) then Ok (<[Z.to_nat i := a]> s)
  else Panic IndexOutOfRange.

(** ** Go [float64]: IEEE 754 binary64 *)

Definition float64 : Type := spec_float.
Definition prec : Z := 53.
Definition emax : Z := 1024.

Definition f64_add : float64 -> float64 -> float64 := SFadd prec emax.
Definition f64_sub : float64 -> float64 -> float64 := SFsub prec emax.
Definition f64_mul : float64 -> float64 -> float64 := SFmul prec emax.
Definition f64_div : float64 -> float64 -> float64 := SFdiv prec emax.
Definition f64_sqrt : float64 -> float64 := SFsqrt prec emax.
Definition f64_ltb : float64 -> float64 -> bool := SFltb.
Definition f64_eqb : float64 -> float64 -> bool := SFeqb.

Definition f64_zero : float64 := S754_zero false.

(** [float64(n)] for an integer [n]: the nearest binary64 value. *)
Definition float64_of_int (n : Z) : float64 := binary_normalize prec emax n 0 false.

Definition f64_255 : float64 := float64_of_int 255.

Definition f64_is_nan (f : float64) : bool :=
  match f with S754_nan => true | _ => false end.

Definition f64_signbit (f : float64) : bool :=
  match f with
  | S754_zero s | S754_infinity s | S754_finite s _ _ => s
  | S754_nan => false
  end.

(** [math.Min], with the special cases of the Go library:
    [Min(x, -Inf) = Min(-Inf, x) = -Inf], [Min(x, NaN) = Min(NaN, x) = NaN],
    [Min(-0, ±0) = Min(±0, -0) = -0]. *)
Definition math_Min (x y : float64) : float64 :=
  match x, y with
  | S754_infinity true, _ | _, S754_infinity true => S754_infinity true
  | _, _ =>
    if f64_is_nan x || f64_is_nan y then S754_nan
    else if f64_eqb x f64_zero && f64_eqb x y then
      (if f64_signbit x then x else y)
    else if f64_ltb x y then x else y
  end.

(** The integer part of a finite value, fraction discarded (truncation
    toward zero). *)
Definition f64_trunc (f : float64) : option Z :=
  match f with
  | S754_zero _ => Some 0
  | S754_finite s m e =>
    Some (cond_Zopp s (if 0 <=? e then Z.pos m * 2 ^ e else Z.pos m / 2 ^ (- e)))
  | _ => None
  end.

(** ** [image.Gray] of the Go standard library *)

Record Point : Type := { X : Z; Y : Z }.
Record Rectangle : Type := { Min : Point; Max : Point }.

Definition Dx (r : Rectangle) : Z := int_sub (X (Max r)) (X (Min r)).
Definition Dy (r : Rectangle) : Z := int_sub (Y (Max r)) (Y (Min r)).

(** [image.Rect]: the corners are swapped when given out of order. *)
Definition image_Rect (x0 y0 x1 y1 : Z) : Rectangle :=
  let '(x0, x1) := if x1 <? x0 then (x1, x0) else (x0, x1) in
  let '(y0, y1) := if y1 <? y0 then (y1, y0) else (y0, y1) in
  {| Min := {| X := x0; Y := y0 |}; Max := {| X := x1; Y := y1 |} |}.

Definition Point_In (p : Point) (r : Rectangle) : bool :=
  (X (Min r) <=? X p) && (X p <? X (Max r)) &&
  (Y (Min r) <=? Y p) && (Y p <? Y (Max r)).

(** Pixels are [uint8] values, kept as integers in [0, 255]. *)
Record Gray : Type := { Pix : list Z; Stride : Z; Rect : Rectangle }.

Definition Bounds (p : Gray) : Rectangle := Rect p.

Definition PixOffset (p : Gray) (x y : Z) : Z :=
  int_add (int_mul (int_sub y (Y (Min (Rect p)))) (Stride p))
          (int_mul (int_sub x (X (Min (Rect p)))) 1).

(** [p.GrayAt(x, y).Y]: zero outside the rectangle. *)
Definition GrayAt (p : Gray) (x y : Z) : result Z :=
  if negb (Point_In {| X := x; Y := y |} (Rect p)) then Ok 0
  else slice_get (Pix p) (PixOffset p x y).

(** [p.SetGray(x, y, color.Gray{Y: v})]: nothing happens outside the
    rectangle. *)
Definition SetGray (p : Gray) (x y : Z) (v : Z) : result Gray :=
  if negb (Point_In {| X := x; Y := y |} (Rect p)) then Ok p
  else
    pix ← slice_set (Pix p) (PixOffset p x y) v;
    Ok {| Pix := pix; Stride := Stride p; Rect := Rect p |}.

(** [mul3NonNeg(1, dx, dy)]: the product, or [-1] when a factor is
    negative or the product does not fit an [int]. *)
Definition mul3NonNeg1 (dx dy : Z) : Z :=
  if (dx <? 0) || (dy <? 0) then -1
  else if int_max <? dx * dy then -1
  else dx * dy.

(** [image.NewGray(r)] *)
Definition NewGray (r : Rectangle) : result Gray :=
  let totalLength := mul3NonNeg1 (Dx r) (Dy r) in
  if totalLength <? 0 then Panic NewGrayHugeOrNegative
  else Ok {| Pix := replicate (Z.to_nat totalLength) 0;
             Stride := int_mul 1 (Dx r);
             Rect := r |}.

(** ** Configuration ([internal/config]) and the runner *)

Record AlgorithmConfig : Type := { WindowSize : Z }.

(** The default configuration: no spatial averaging. *)
Definition defaultAlgorithm : AlgorithmConfig := {| WindowSize := 1 |}.

Record Runner : Type := { algorithm : AlgorithmConfig }.

(** ** [temporalWindowContrast] *)

(** The time series of one pixel:
    [values = append(values, float64(img.GrayAt(px, py).Y))] for each frame. *)
Definition timeSeries (images : list Gray) (px py : Z) : result (list float64) :=
  appendM (fun img => v ← GrayAt img px py; Ok (float64_of_int v)) images.

(** The body of the inner loop once [values] is built: the new value of
    [sumVar]. *)
Definition accumulatePixel (sumVar : float64) (values : list float64) : float64 :=
  let mean := fold_left f64_add values f64_zero in
  let mean := f64_div mean (float64_of_int (len values)) in
  let sumDiff2 :=
    fold_left (fun sumDiff2 v =>
                 let diff := f64_sub v mean in
                 f64_add sumDiff2 (f64_mul diff diff))
              values f64_zero in
  let variance := f64_div sumDiff2 (float64_of_int (int_sub (len values) 1)) in
  let stdDev := f64_sqrt variance in
  if f64_ltb f64_zero mean then f64_add sumVar (f64_div stdDev mean)
  else sumVar.

Definition temporalWindowContrast (r : Runner) (images : list Gray) (x y : Z)
  : result float64 :=
  let ws := WindowSize (algorithm r) in
  let pixelCount := float64_of_int (int_mul ws ws) in
  sumVar ←
    foldM (fun sumVar dy =>
      foldM (fun sumVar dx =>
        values ← timeSeries images (int_add x dx) (int_add y dy);
        Ok (accumulatePixel sumVar values))
      sumVar (seqZ 0 ws))
    f64_zero (seqZ 0 ws);
  Ok (f64_div sumVar pixelCount).

(** ** [calculateContrastMap] *)

(** One iteration of a goroutine's loop: compute the row [y] and store it,
    [listContrast[y] = row]. *)
Definition storeRow {A} (computeRow : Z -> result A) (listContrast : list A) (y : Z)
  : result (list A) :=
  row ← computeRow y; slice_set listContrast y row.

Section Platform.

(** [runtime.NumCPU()], the number of logical CPUs of the machine. *)
Variable NumCPU : Z.

(** Converting to [uint8] a [float64] whose integer part is not a
    [uint8] (NaN included) succeeds with an implementation-dependent
    value. *)
Variable uint8_unrepresentable : float64 -> Z.

(** [byte(f)] *)
Definition uint8_of_float64 (f : float64) : Z :=
  match f64_trunc f with
  | Some z =>
    if (0 <=? z) && (z <=? 255) then z else uint8_unrepresentable f mod 256
  | None => uint8_unrepresentable f mod 256
  end.

(** [byte(math.Min(c*255, 255))] *)
Definition scaleIntensity (c : float64) : Z :=
  uint8_of_float64 (math_Min (f64_mul c f64_255) f64_255).

(** One output row: [row := make([]float64, 0, widthNew)] and one
    [append] per column. *)
Definition contrastRow (r : Runner) (grayImages : list Gray) (widthNew y : Z)
  : result (list float64) :=
  if widthNew <? 0 then Panic MakesliceCapOutOfRange
  else appendM (fun x => temporalWindowContrast r grayImages x y) (seqZ 0 widthNew).

(** The body of one goroutine, run to completion: rows [startY] up to
    [endY - 1], each stored at its own index. *)
Definition worker (r : Runner) (grayImages : list Gray) (widthNew : Z)
    (rows : Z * Z) (listContrast : list (list float64))
  : result (list (list float64)) :=
  let '(startY, endY) := rows in
  foldM (storeRow (contrastRow r grayImages widthNew))
        listContrast (seqZ startY (endY - startY)).

(** The band [(startY, endY)] of goroutine [i]. *)
Definition workerRange (heightNew numWorkers rowsPerWorker i : Z) : Z * Z :=
  let startY := int_mul i rowsPerWorker in
  let endY := int_mul (int_add i 1) rowsPerWorker in
  let endY := if i =? int_sub numWorkers 1 then heightNew else endY in
  (startY, endY).

Definition workerRanges (heightNew numWorkers rowsPerWorker : Z) : list (Z * Z) :=
  workerRange heightNew numWorkers rowsPerWorker <$> seqZ 0 numWorkers.

(** The final image: every contrast value scaled to a byte. *)
Definition assemble (widthNew heightNew : Z) (listContrast : list (list float64))
  : result Gray :=
  changeMap ← NewGray (image_Rect 0 0 widthNew heightNew);
  foldM (fun changeMap y =>
    foldM (fun changeMap x =>
      row ← slice_get listContrast y;
      c ← slice_get row x;
      SetGray changeMap x y (scaleIntensity c))
    changeMap (seqZ 0 widthNew))
  changeMap (seqZ 0 heightNew).

(** The part of [calculateContrastMap] before the goroutines start:
    output dimensions, the empty result buffer and the rows per
    worker. *)
Definition prepare (r : Runner) (grayImages : list Gray)
  : result (Z * Z * list (list float64) * Z) :=
  img0 ← slice_get grayImages 0;
  let bounds := Bounds img0 in
  let ws := WindowSize (algorithm r) in
  let widthNew := int_add (int_sub (Dx bounds) ws) 1 in
  let heightNew := int_add (int_sub (Dy bounds) ws) 1 in
  if heightNew <? 0 then Panic MakesliceLenOutOfRange
  else
    let listContrast : list (list float64) := replicate (Z.to_nat heightNew) [] in
    rowsPerWorker ← int_div heightNew NumCPU;
    if NumCPU <? 0 then Panic NegativeWaitGroupCounter
    else Ok (widthNew, heightNew, listContrast, rowsPerWorker).

(** [calculateContrastMap], the goroutines scheduled one after the
    other in the order they are started. *)
Definition calculateContrastMap (r : Runner) (grayImages : list Gray) : result Gray :=
  '(widthNew, heightNew, listContrast, rowsPerWorker) ← prepare r grayImages;
  listContrast ←
    foldM (fun listContrast rows => worker r grayImages widthNew rows listContrast)
          listContrast (workerRanges heightNew NumCPU rowsPerWorker);
  assemble widthNew heightNew listContrast.

(** [Run]: logging aside, the contrast map. *)
Definition Run (r : Runner) (grayImages : list Gray) : result Gray :=
  calculateContrastMap r grayImages.

End Platform.


(** ** Reference definitions *)

(** *** The contrast of a window, as a formula

    Sums are taken from left to right, the window pixels row by row:
    binary64 addition is not associative, so the order is part of the
    formula. *)
Module Formula.

Definition sum (l : list float64) : float64 := fold_left f64_add l f64_zero.

(** The intensity sample of a frame at [(px, py)]; zero outside the
    frame. *)
Definition intensity (frame : Gray) (px py : Z) : Z :=
  if Point_In {| X := px; Y := py |} (Rect frame) then
    default 0 (Pix frame !! Z.to_nat ((py - Y (Min (Rect frame))) * Stride frame
                                      + (px - X (Min (Rect frame)))))
  else 0.

(** [v[0..N-1]]: the time series of a pixel. *)
Definition series (images : list Gray) (px py : Z) : list float64 :=
  (fun frame => float64_of_int (intensity frame px py)) <$> images.

Definition mean (v : list float64) : float64 :=
  f64_div (sum v) (float64_of_int (len v)).

Definition sampleVariance (v : list float64) : float64 :=
  f64_div
    (sum ((fun vi => let d := f64_sub vi (mean v) in f64_mul d d) <$> v))
    (float64_of_int (len v - 1)).

Definition stdDev (v : list float64) : float64 := f64_sqrt (sampleVariance v).

Definition pixelContrast (v : list float64) : float64 :=
  if f64_ltb f64_zero (mean v) then f64_div (stdDev v) (mean v) else f64_zero.

(** The pixels of the window with origin [(x, y)] and side [s]. *)
Definition windowPixels (s x y : Z) : list (Z * Z) :=
  dy ← seqZ 0 s; dx ← seqZ 0 s; [(x + dx, y + dy)].

Definition windowContrast (images : list Gray) (s x y : Z) : float64 :=
  f64_div
    (sum ((fun p => pixelContrast (series images p.1 p.2)) <$> windowPixels s x y))
    (float64_of_int (s * s)).

(** The nearest integer of a finite value (ties upward). *)
Definition round (f : float64) : option Z :=
  match f with
  | S754_zero _ => Some 0
  | S754_finite s m e =>
    Some (if 0 <=? e then cond_Zopp s (Z.pos m * 2 ^ e)
          else (2 * cond_Zopp s (Z.pos m) + 2 ^ (- e)) / (2 * 2 ^ (- e)))
  | _ => None
  end.

(** [min(round(c * 255), 255)] *)
Definition roundedIntensity (c : float64) : option Z :=
  z ← round (f64_mul c f64_255); Some (Z.min z 255).

End Formula.

(** *** Well-formed frames

    A frame as [image.NewGray] allocates it: a non-empty or empty
    rectangle with [Min <= Max], one byte per pixel, rows stored one after
    the other, and a buffer that fits the heap of the Go runtime
    ([maxAlloc], 2^48 bytes on 64-bit platforms). *)

Definition maxAlloc : Z := 2 ^ 48.

Definition is_uint8 (v : Z) : bool := (0 <=? v) && (v <=? 255).

Definition wf_Gray (g : Gray) : bool :=
  let r := Rect g in
  (int_min <=? X (Min r)) && (X (Min r) <=? X (Max r)) && (X (Max r) <=? int_max) &&
  (int_min <=? Y (Min r)) && (Y (Min r) <=? Y (Max r)) && (Y (Max r) <=? int_max) &&
  (X (Max r) - X (Min r) <=? int_max) && (Y (Max r) - Y (Min r) <=? int_max) &&
  (Stride g =? X (Max r) - X (Min r)) &&
  (len (Pix g) =? (X (Max r) - X (Min r)) * (Y (Max r) - Y (Min r))) &&
  (len (Pix g) <=? maxAlloc) &&
  forallb is_uint8 (Pix g).

(** A frame slice: every frame well formed, the slice of pointers within
    the heap. *)
Definition wf_frames (images : list Gray) : bool :=
  (8 * len images <=? maxAlloc) && forallb wf_Gray images.

(** A [w] by [h] frame with its origin at (0, 0). *)
Definition has_size (w h : Z) (g : Gray) : bool :=
  (X (Min (Rect g)) =? 0) && (Y (Min (Rect g)) =? 0) &&
  (X (Max (Rect g)) =? w) && (Y (Max (Rect g)) =? h).

(** The preconditions of the contrast-map computation: at least two
    frames, all [w] by [h], and a window side between 1 and [min w h]. *)
Definition valid_input (w h : Z) (r : Runner) (images : list Gray) : bool :=
  wf_frames images && (2 <=? len images) && forallb (has_size w h) images &&
  (1 <=? WindowSize (algorithm r)) && (WindowSize (algorithm r) <=? Z.min w h).

(** A window origin that keeps the window inside a [w] by [h] frame. *)
Definition valid_origin (w h s x y : Z) : bool :=
  (0 <=? x) && (x + s <=? w) && (0 <=? y) && (y + s <=? h).

Definition f64_finite_nonneg (f : float64) : bool :=
  match f with
  | S754_zero false | S754_finite false _ _ => true
  | _ => false
  end.

(** *** The sequential computation: one row after the other *)

Definition sequentialContrastMap (uint8_unrepresentable : float64 -> Z)
    (r : Runner) (grayImages : list Gray) : result Gray :=
  img0 ← slice_get grayImages 0;
  let bounds := Bounds img0 in
  let ws := WindowSize (algorithm r) in
  let widthNew := int_add (int_sub (Dx bounds) ws) 1 in
  let heightNew := int_add (int_sub (Dy bounds) ws) 1 in
  if heightNew <? 0 then Panic MakesliceLenOutOfRange
  else
    listContrast ← appendM (contrastRow r grayImages widthNew) (seqZ 0 heightNew);
    assemble uint8_unrepresentable widthNew heightNew listContrast.

(** *** The goroutines, interleaved

    Each goroutine holds the next row it will compute and the end of its
    band. One step of the pool lets any unfinished goroutine compute its
    next row and store it in the shared buffer; a panic in a goroutine
    ends the program. [wg.Wait()] returns once every goroutine is done. *)

Record goroutine : Type := { next_y : Z; end_y : Z }.

Definition spawn (rows : Z * Z) : goroutine := {| next_y := rows.1; end_y := rows.2 |}.

Inductive pool : Type :=
  | Running (gs : list goroutine) (listContrast : list (list float64))
  | Crashed (p : panic).

Inductive pool_step (r : Runner) (grayImages : list Gray) (widthNew : Z) : pool -> pool -> Prop :=
  | step_row gs listContrast (i : nat) g row listContrast' :
      gs !! i = Some g ->
      next_y g < end_y g ->
      contrastRow r grayImages widthNew (next_y g) = Ok row ->
      slice_set listContrast (next_y g) row = Ok listContrast' ->
      pool_step r grayImages widthNew
        (Running gs listContrast)
        (Running (<[i := {| next_y := int_add (next_y g) 1; end_y := end_y g |}]> gs)
                 listContrast')
  | step_panic gs listContrast (i : nat) g p :
      gs !! i = Some g ->
      next_y g < end_y g ->
      storeRow (contrastRow r grayImages widthNew) listContrast (next_y g) = Panic p ->
      pool_step r grayImages widthNew (Running gs listContrast) (Crashed p).

Definition finished (g : goroutine) : Prop := end_y g <= next_y g.

(** The pool has been joined with buffer [listContrast]. *)
Definition joined (st : pool) (listContrast : list (list float64)) : Prop :=
  exists gs, st = Running gs listContrast /\ Forall finished gs.

(** The pool as [calculateContrastMap] starts it. *)
Definition initial_pool (heightNew numWorkers : Z) : pool :=
  Running (spawn <$> workerRanges heightNew numWorkers (Z.quot heightNew numWorkers))
          (replicate (Z.to_nat heightNew) []).

(** *** Bands that tile an interval

    [tiles a ranges b]: the ranges follow one another from [a] to [b],
    each starting where the previous one ends. *)
Fixpoint tiles (a : Z) (ranges : list (Z * Z)) (b : Z) : Prop :=
  match ranges with
  | [] => a = b
  | (s, e) :: rest => s = a /\ s <= e /\ tiles e rest b
  end.

(** Row [y] lies in the band of worker [i]. *)
Definition owns (ranges : list (Z * Z)) (i : nat) (y : Z) : Prop :=
  exists s e, ranges !! i = Some (s, e) /\ s <= y < e.

(** *** Signs

    [has_sign s f]: [f] carries the sign [s], or is NaN. *)
Definition has_sign (s : bool) (f : float64) : Prop :=
  match f with
  | S754_nan => True
  | S754_zero s' | S754_infinity s' | S754_finite s' _ _ => s' = s
  end.

(** *** Values of binary64 numbers

    The value [m * 2^e] of a mantissa and an exponent, scaled by [2^2200]
    so that it is an integer for every exponent the binary64 operations
    meet. *)
Definition val (m e : Z) : Z := m * 2 ^ (e + 2200).

(** The value of a binary64 number in canonical form. *)
Definition representable (v : Z) : Prop :=
  exists m e, bounded prec emax m e = true /\ v = val (Z.pos m) e.

(** The magnitude of a finite number. *)
Definition mag (f : float64) : option Z :=
  match f with
  | S754_zero _ => Some 0
  | S754_finite _ m e => Some (val (Z.pos m) e)
  | _ => None
  end.

(** [f] is a finite binary64 number in canonical form whose magnitude
    lies between [lo] and [hi]. *)
Definition finite_in (lo hi : Z) (f : float64) : Prop :=
  valid_binary prec emax f = true /\
  exists v, mag f = Some v /\ lo <= v <= hi.

(** The value [binary_round_aux] builds from a rounded mantissa [m2] at
    the exponent [e']: a mantissa that reached [2^53] is renormalised, an
    exponent above 971 overflows. *)
Definition rounded (s : bool) (m2 e' : Z) : float64 :=
  match m2 with
  | Z0 => S754_zero s
  | Zpos p =>
    if m2 =? 2 ^ 53 then
      (if e' + 1 <=? 971 then S754_finite s (2 ^ 52)%positive (e' + 1)
       else S754_infinity s)
    else if e' <=? 971 then S754_finite s p e' else S754_infinity s
  | Zneg _ => S754_nan
  end.

(** *** The assembled image, in closed form *)
Definition contrastImage (uint8_unrepresentable : float64 -> Z)
    (widthNew heightNew : Z) (listContrast : list (list float64)) : Gray :=
  {| Pix := concat ((fun row : list float64 => scaleIntensity uint8_unrepresentable <$> row)
                  <$> listContrast);
     Stride := widthNew;
     Rect := {| Min := {| X := 0; Y := 0 |};
                Max := {| X := widthNew; Y := heightNew |} |} |}.

(** *** The contrast of every window, row by row *)
Definition contrastGrid (images : list Gray) (ws widthNew heightNew : Z)
  : list (list float64) :=
  (fun y => (fun x => Formula.windowContrast images ws x y) <$> seqZ 0 widthNew)
    <$> seqZ 0 heightNew.

(** *** Frames and runners of the scenarios *)

(** A [w] by [h] frame with every pixel equal to [v]. *)
Definition uniformFrame (w h v : Z) : Gray :=
  {| Pix := replicate (Z.to_nat (w * h)) v;
     Stride := w;
     Rect := {| Min := {| X := 0; Y := 0 |}; Max := {| X := w; Y := h |} |} |}.

Definition runnerWith (ws : Z) : Runner := {| algorithm := {| WindowSize := ws |} |}.

Definition defaultRunner : Runner := {| algorithm := defaultAlgorithm |}.

(** *** Inputs that [calculateContrastMap] accepts

    The buffers of [calculateContrastMap] for [w] by [h] frames: the
    output image, the slice of row headers (24 bytes each) and a row of
    [float64] values fit the heap. *)
Definition fits_heap (w h : Z) : bool :=
  ((w + 1) * (h + 1) <=? maxAlloc) && (24 * (h + 1) <=? maxAlloc) &&
  (8 * (w + 1) <=? maxAlloc).

(** What [calculateContrastMap] reads of its input before it computes: the
    bounds of the first frame.  Well-formed frames of any number and
    size, the first one [w] by [h], and a window side between 0 and
    [min w h + 1]. *)
Definition accepted_input (w h : Z) (r : Runner) (images : list Gray) : bool :=
  wf_frames images &&
  match images with
  | [] => false
  | img0 :: _ => has_size w h img0
  end &&
  (0 <=? WindowSize (algorithm r)) && (WindowSize (algorithm r) <=? Z.min w h + 1) &&
  fits_heap w h.

(** ** File names ([internal/imageutils])

    A Go string is a sequence of bytes. *)
Abbreviation gostring := (list Ascii.ascii).

Definition go (s : String.string) : gostring := String.list_ascii_of_string s.

Definition byte_of (c : Ascii.ascii) : Z := Z.of_nat (Ascii.nat_of_ascii c).

Fixpoint gostring_eqb (s t : gostring) : bool :=
  match s, t with
  | [], [] => true
  | c :: s, d :: t => Ascii.eqb c d && gostring_eqb s t
  | _, _ => false
  end.

(** *** [filepath.Base], on a Unix system *)

Definition Separator : Ascii.ascii := "/"%char.

Definition IsPathSeparator (c : Ascii.ascii) : bool := Ascii.eqb c Separator.

(** [for len(path) > 0 && os.IsPathSeparator(path[len(path)-1])
       { path = path[0 : len(path)-1] }] *)
Fixpoint stripTrailingSeparators (fuel : nat) (path : gostring) : gostring :=
  match fuel with
  | O => path
  | S fuel =>
    match path !! (length path - 1)%nat with
    | Some c =>
      if (0 <? length path)%nat && IsPathSeparator c
      then stripTrailingSeparators fuel (take (length path - 1) path)
      else path
    | None => path
    end
  end.

(** [i := len(path) - 1; for i >= 0 && !os.IsPathSeparator(path[i]) { i-- }],
    started with [n = i + 1]. *)
Fixpoint lastSeparator (path : gostring) (n : nat) : Z :=
  match n with
  | O => -1
  | S i =>
    match path !! i with
    | Some c => if IsPathSeparator c then Z.of_nat i else lastSeparator path i
    | None => lastSeparator path i
    end
  end.

Definition filepath_Base (path : gostring) : gostring :=
  match path with
  | [] => go "."
  | _ =>
    let path := stripTrailingSeparators (length path) path in
    let i := lastSeparator path (length path) in
    let path := if 0 <=? i then drop (Z.to_nat (i + 1)) path else path in
    match path with
    | [] => [Separator]
    | _ => path
    end
  end.

(** *** [strings.TrimSuffix] *)

Definition HasSuffix (s suffix : gostring) : bool :=
  (length suffix <=? length s)%nat &&
  gostring_eqb (drop (length s - length suffix) s) suffix.

Definition TrimSuffix (s suffix : gostring) : gostring :=
  if HasSuffix s suffix then take (length s - length suffix) s else s.

(** *** [strconv.Atoi] *)

Inductive ErrKind : Type := ErrSyntax | ErrRange.

(** [*strconv.NumError] *)
Record NumError : Type :=
  { Func : String.string; Num : gostring; Err : ErrKind }.

Definition syntaxError (fn : String.string) (str : gostring) : NumError :=
  {| Func := fn; Num := str; Err := ErrSyntax |}.

Definition rangeError (fn : String.string) (str : gostring) : NumError :=
  {| Func := fn; Num := str; Err := ErrRange |}.

Definition maxUint64 : Z := 2 ^ 64 - 1.

(** [lower(c)]: [c | ('x' - 'X')] *)
Definition lower (c : Z) : Z := Z.lor c 32.

(** The loop of [ParseUint] for base 10 and 64 bits: the value so far
    and the rest of the bytes; the result is the value and the kind of
    the error, if any. *)
Fixpoint parseUintLoop (n : Z) (s : gostring) : Z * option ErrKind :=
  match s with
  | [] => (n, None)
  | ch :: s =>
    let c := byte_of ch in
    let d :=
      if (48 <=? c) && (c <=? 57) then Some (c - 48)
      else if (97 <=? lower c) && (lower c <=? 122)
           then Some ((lower c - 97 + 10) mod 256)
           else None in
    match d with
    | None => (0, Some ErrSyntax)
    | Some d =>
      if 10 <=? d then (0, Some ErrSyntax)
      else if maxUint64 / 10 + 1 <=? n then (maxUint64, Some ErrRange)
      else
        let n := (n * 10) mod 2 ^ 64 in
        let n1 := (n + d) mod 2 ^ 64 in
        if (n1 <? n) || (maxUint64 <? n1) then (maxUint64, Some ErrRange)
        else parseUintLoop n1 s
    end
  end.

(** [ParseUint(s, 10, 0)] *)
Definition ParseUint (s : gostring) : Z * option NumError :=
  match s with
  | [] => (0, Some (syntaxError "ParseUint" s))
  | _ =>
    match parseUintLoop 0 s with
    | (n, None) => (n, None)
    | (n, Some ErrSyntax) => (n, Some (syntaxError "ParseUint" s))
    | (n, Some ErrRange) => (n, Some (rangeError "ParseUint" s))
    end
  end.

(** The second half of [ParseInt]: the error of [ParseUint] unless it is
    a range error, then the range of a signed 64-bit integer. *)
Definition checkRange (neg : bool) (parsed : Z * option NumError) (s0 : gostring)
  : Z * option NumError :=
  let '(un, err) := parsed in
  match err with
  | Some {| Func := _; Num := _; Err := ErrSyntax |} =>
    (0, Some (syntaxError "ParseInt" s0))
  | _ =>
    let cutoff := 2 ^ 63 in
    if negb neg && (cutoff <=? un) then (cutoff - 1, Some (rangeError "ParseInt" s0))
    else if neg && (cutoff <? un) then (- cutoff, Some (rangeError "ParseInt" s0))
    else (if neg then int_sub 0 (wrap un) else wrap un, None)
  end.

(** [ParseInt(s, 10, 0)] *)
Definition ParseInt (s : gostring) : Z * option NumError :=
  match s with
  | [] => (0, Some (syntaxError "ParseInt" s))
  | c :: rest =>
    let s0 := s in
    let '(neg, s) :=
      if Ascii.eqb c "+" then (false, rest)
      else if Ascii.eqb c "-" then (true, rest)
      else (false, s) in
    checkRange neg (ParseUint s) s0
  end.

(** The loop of the fast path of [Atoi]: [ch -= '0'] on bytes. *)
Fixpoint atoiLoop (n : Z) (s : gostring) : option Z :=
  match s with
  | [] => Some n
  | ch :: s =>
    let ch := (byte_of ch - 48) mod 256 in
    if 9 <? ch then None else atoiLoop (int_add (int_mul n 10) ch) s
  end.

Definition Atoi (s : gostring) : Z * option NumError :=
  let sLen := len s in
  if (0 <? sLen) && (sLen <? 19) then
    let s0 := s in
    match s with
    | [] => (0, None)
    | c :: rest =>
      let signed := Ascii.eqb c "-" || Ascii.eqb c "+" in
      let s := if signed then rest else s in
      if signed && (len s <? 1) then (0, Some (syntaxError "Atoi" s0))
      else
        match atoiLoop 0 s with
        | None => (0, Some (syntaxError "Atoi" s0))
        | Some n => (if Ascii.eqb c "-" then int_sub 0 n else n, None)
        end
    end
  else
    match ParseInt s with
    | (i64, Some nerr) =>
      (i64, Some {| Func := "Atoi"; Num := Num nerr; Err := Err nerr |})
    | (i64, None) => (i64, None)
    end.

(** *** [ExtractNumber] *)

Definition ExtractNumber (filename : gostring) : Z * option NumError :=
  let filename := filepath_Base filename in
  let filename := TrimSuffix filename (go ".png") in
  let '(number, err) := Atoi filename in
  match err with
  | Some err => (0, Some err)
  | None => (number, None)
  end.

(** *** Decimal numerals

    The reading of a file name that [ExtractNumber] is compared with: an
    optional sign and one or more decimal digits. *)

Definition isDigit (c : Ascii.ascii) : bool :=
  (48 <=? byte_of c) && (byte_of c <=? 57).

(** The value of the digits [ds] appended to the numeral of [n]. *)
Definition horner (n : Z) (ds : gostring) : Z :=
  fold_left (fun n c => 10 * n + (byte_of c - 48)) ds n.

Definition decimalValue (ds : gostring) : Z := horner 0 ds.

(** The value of the digits [ds] under a sign; nothing when [ds] is empty
    or holds another byte than a digit. *)
Definition signedValue (neg : bool) (ds : gostring) : option Z :=
  match ds with
  | [] => None
  | _ =>
    if forallb isDigit ds
    then Some (if neg then - decimalValue ds else decimalValue ds)
    else None
  end.

Definition signedDecimal (s : gostring) : option Z :=
  match s with
  | [] => None
  | c :: rest =>
    if Ascii.eqb c "-" then signedValue true rest
    else if Ascii.eqb c "+" then signedValue false rest
    else signedValue false s
  end.

(** What [Atoi] returns for a string that reads as [v]: the value when it
    fits an [int], a range error otherwise, and an error when the string
    is no numeral. *)
Definition reads_as (s : gostring) (v : option Z) (r : Z * option NumError) : Prop :=
  match v with
  | Some v =>
    if (int_min <=? v) && (v <=? int_max) then r = (v, None)
    else exists n, r = (n, Some (rangeError "Atoi" s))
  | None => exists n k, r = (n, Some {| Func := "Atoi"; Num := s; Err := k |})
  end.
(** A name that holds no path separator. *)
Definition noSeparator (name : gostring) : bool :=
  forallb (fun c => negb (IsPathSeparator c)) name.

(** ** The configuration file and the frames on disk

    ([internal/config], [NewRunner] and [loadAndProcessImages] of the
    main package) *)

Record PathsConfig : Type :=
  { DataDir : gostring; ResultsDir : gostring; OutputFilename : gostring }.

Record Config : Type := { Paths : PathsConfig; Algorithm : AlgorithmConfig }.

(** [NewRunner]; the logger is left out. *)
Definition NewRunner (cfg : Config) : Runner := {| algorithm := Algorithm cfg |}.

(** [fmt.Errorf("failed to load image '%s': %w", filePath, err)] *)
Record LoadFailure (error : Type) : Type :=
  { failedPath : gostring; cause : error }.
Arguments failedPath {error} _.
Arguments cause {error} _.

Section Files.

(** The values of Go's [error] interface, the content of a file and a
    decoded image. *)
Variables error data Image : Type.

(** [os.ReadFile] and [os.IsNotExist], as the file system answers
    during the call. *)
Variable ReadFile : gostring -> data + error.
Variable IsNotExist : error -> bool.

(** [json.Unmarshal(data, &cfg)]: the configuration with the fields of
    the document written over it, or an error. *)
Variable Unmarshal : data -> Config -> Config + error.

(** [imageutils.LoadImage] and [imageutils.ConvertToGray]. *)
Variable LoadImage : gostring -> Image + error.
Variable ConvertToGray : Image -> Gray.

Definition NewConfig (path : gostring) : option Config * option error :=
  let cfg :=
    {| Paths := {| DataDir := go "data";
                   ResultsDir := go "results";
                   OutputFilename := go "result.png" |};
       Algorithm := {| WindowSize := 1 |} |} in
  match ReadFile path with
  | inr err =>
    if IsNotExist err then (Some cfg, None) else (None, Some err)
  | inl data =>
    match Unmarshal data cfg with
    | inr err => (None, Some err)
    | inl cfg => (Some cfg, None)
    end
  end.

(** The loop of [loadAndProcessImages], with the frames converted so
    far. *)
Fixpoint loadLoop (grayImages : list Gray) (paths : list gostring)
  : option (list Gray) * option (LoadFailure error) :=
  match paths with
  | [] => (Some grayImages, None)
  | filePath :: paths =>
    match LoadImage filePath with
    | inr err => (None, Some {| failedPath := filePath; cause := err |})
    | inl img => loadLoop (grayImages ++ [ConvertToGray img]) paths
    end
  end.

Definition loadAndProcessImages (paths : list gostring)
  : option (list Gray) * option (LoadFailure error) :=
  loadLoop [] paths.

End Files.

(** * Properties *)

(** ** The [result] monad and loops *)

Ltac simpl_result :=
  cbn [mbind mret result_mbind result_mret result_bind] in *.

Lemma foldM_app {A B} (f : A -> B -> result A) (a : A) (l1 l2 : list B) :
  foldM f a (l1 ++ l2) = a' ← foldM f a l1; foldM f a' l2.
Proof.
  revert a. induction l1 as [|b l1 IH]; intros a; simpl; [done|].
  simpl_result. destruct (f a b); simpl; [apply IH|done].
Qed.

Lemma foldM_pure {A B} (f : A -> B -> result A) (g : A -> B -> A) (a : A) (l : list B) :
  (forall a b, b ∈ l -> f a b = Ok (g a b)) ->
  foldM f a l = Ok (fold_left g l a).
Proof.
  revert a. induction l as [|b l IH]; intros a Hf; simpl; [done|].
  rewrite Hf by constructor. simpl_result.
  apply IH. intros a' b' Hb. apply Hf. by constructor.
Qed.

Lemma foldM_ext {A B} (f g : A -> B -> result A) (a : A) (l : list B) :
  (forall a b, b ∈ l -> f a b = g a b) ->
  foldM f a l = foldM g a l.
Proof.
  revert a. induction l as [|b l IH]; intros a Hf; simpl; [done|].
  rewrite Hf by constructor. simpl_result.
  destruct (g a b); simpl; [|done].
  apply IH. intros a' b' Hb. apply Hf. by constructor.
Qed.

Lemma appendM_pure {A B} (f : B -> result A) (g : B -> A) (l : list B) :
  (forall b, b ∈ l -> f b = Ok (g b)) ->
  appendM f l = Ok (g <$> l).
Proof.
  induction l as [|b l IH]; intros Hf; simpl; [done|].
  rewrite Hf by constructor. simpl_result.
  rewrite IH; [done|]. intros b' Hb. apply Hf. by constructor.
Qed.

Lemma appendM_ext {A B} (f g : B -> result A) (l : list B) :
  (forall b, b ∈ l -> f b = g b) ->
  appendM f l = appendM g l.
Proof.
  induction l as [|b l IH]; intros Hf; simpl; [done|].
  rewrite Hf by constructor. rewrite IH; [done|].
  intros b' Hb. apply Hf. by constructor.
Qed.

Lemma appendM_app {A B} (f : B -> result A) (l1 l2 : list B) :
  appendM f (l1 ++ l2) = r1 ← appendM f l1; r2 ← appendM f l2; Ok (r1 ++ r2).
Proof.
  induction l1 as [|b l1 IH]; simpl.
  - simpl_result. by destruct (appendM f l2).
  - simpl_result. destruct (f b); simpl; [|done].
    rewrite IH. simpl_result.
    destruct (appendM f l1); simpl; [|done].
    by destruct (appendM f l2).
Qed.

Lemma appendM_Ok_inv {A B} (f : B -> result A) (l : list B) (rs : list A) :
  appendM f l = Ok rs -> Forall2 (fun b a => f b = Ok a) l rs.
Proof.
  revert rs. induction l as [|b l IH]; intros rs; simpl.
  - intros [= <-]. constructor.
  - simpl_result. destruct (f b) eqn:Hb; simpl; [|done].
    destruct (appendM f l); simpl; [|done].
    intros [= <-]. constructor; [done|]. by apply IH.
Qed.

(** ** Go [int] arithmetic without overflow *)

Lemma wrap_id (z : Z) : is_int z -> wrap z = z.
Proof.
  unfold is_int, int_min, int_max, wrap. intros Hz.
  rewrite Z.mod_small; lia.
Qed.

Lemma int_add_id (a b : Z) : is_int (a + b) -> int_add a b = a + b.
Proof. apply wrap_id. Qed.

Lemma int_sub_id (a b : Z) : is_int (a - b) -> int_sub a b = a - b.
Proof. apply wrap_id. Qed.

Lemma int_mul_id (a b : Z) : is_int (a * b) -> int_mul a b = a * b.
Proof. apply wrap_id. Qed.

Lemma is_int_between (a z b : Z) : is_int a -> is_int b -> a <= z <= b -> is_int z.
Proof. unfold is_int. lia. Qed.

Lemma is_int_bounds (z : Z) : - 2 ^ 63 <= z <= 2 ^ 63 - 1 -> is_int z.
Proof. done. Qed.

(** ** The bands of the workers *)

Section Bands.
Variables outH K : Z.
Hypothesis HoutH : 0 <= outH <= int_max.
Hypothesis HK : 1 <= K <= int_max.

Lemma rows_per_worker_bounds : 0 <= outH / K /\ K * (outH / K) <= outH.
Proof.
  split; [apply Z.div_pos; lia|apply Z.mul_div_le; lia].
Qed.

Lemma rows_per_worker : int_div outH K = Ok (outH / K).
Proof.
  pose proof rows_per_worker_bounds as [Hq1 Hq2].
  unfold int_div. case Z.eqb_spec; [lia|intros _].
  rewrite Z.quot_div_nonneg by lia.
  rewrite wrap_id; [done|]. unfold is_int, int_min. nia.
Qed.

Lemma workerRange_eq (i : Z) :
  0 <= i < K ->
  workerRange outH K (outH / K) i
  = (i * (outH / K), if i =? K - 1 then outH else i * (outH / K) + outH / K).
Proof.
  pose proof rows_per_worker_bounds as [Hq1 Hq2].
  intros Hi. unfold workerRange, int_min, int_max in *.
  rewrite (int_sub_id K 1) by (unfold is_int, int_min, int_max; lia).
  rewrite (int_add_id i 1) by (unfold is_int, int_min, int_max; lia).
  rewrite !int_mul_id by (unfold is_int, int_min, int_max; nia).
  f_equal. case Z.eqb_spec; intros; [done|lia].
Qed.

Lemma workerRanges_length : len (workerRanges outH K (outH / K)) = K.
Proof.
  unfold len, workerRanges. rewrite length_fmap, length_seqZ. lia.
Qed.

Lemma workerRanges_lookup (i : Z) :
  0 <= i < K ->
  workerRanges outH K (outH / K) !! Z.to_nat i
  = Some (i * (outH / K), if i =? K - 1 then outH else i * (outH / K) + outH / K).
Proof.
  intros Hi. unfold workerRanges.
  rewrite list_lookup_fmap.
  rewrite (proj2 (lookup_seqZ 0 K (Z.to_nat i) i)) by lia.
  simpl. f_equal. by apply workerRange_eq.
Qed.

Lemma workerRanges_tiles_from (n : nat) (j : Z) :
  0 <= j -> j + Z.of_nat (S n) = K ->
  tiles (j * (outH / K))
        (workerRange outH K (outH / K) <$> seqZ j (Z.of_nat (S n))) outH.
Proof.
  pose proof rows_per_worker_bounds as [Hq1 Hq2].
  revert j. induction n as [|n IH]; intros j Hj HjK.
  - rewrite seqZ_cons by lia. rewrite fmap_cons.
    rewrite workerRange_eq by lia.
    rewrite seqZ_nil by lia.
    case Z.eqb_spec; [intros _|lia]. simpl. repeat split; nia.
  - rewrite seqZ_cons by lia. rewrite fmap_cons.
    rewrite workerRange_eq by lia.
    case Z.eqb_spec; [lia|intros _]. simpl.
    split; [done|]. split; [lia|].
    replace (Z.pred (Z.of_nat (S (S n)))) with (Z.of_nat (S n)) by lia.
    replace (j * (outH / K) + outH / K) with (Z.succ j * (outH / K)) by lia.
    apply IH; lia.
Qed.

Lemma workerRanges_tiles : tiles 0 (workerRanges outH K (outH / K)) outH.
Proof.
  unfold workerRanges.
  pose proof (workerRanges_tiles_from (Z.to_nat (K - 1)) 0) as Ht.
  replace (Z.of_nat (S (Z.to_nat (K - 1)))) with K in Ht by lia.
  apply Ht; lia.
Qed.

Lemma owns_workerRanges (i : nat) (y : Z) :
  owns (workerRanges outH K (outH / K)) i y <->
  Z.of_nat i < K /\
  Z.of_nat i * (outH / K) <= y
  < (if Z.of_nat i =? K - 1 then outH else Z.of_nat i * (outH / K) + outH / K).
Proof.
  unfold owns. split.
  - intros (s & e & Hl & Hy).
    assert (Z.of_nat i < K) as Hi.
    { apply lookup_lt_Some in Hl. pose proof workerRanges_length as HL.
      unfold len in HL. lia. }
    split; [done|].
    rewrite <- (Nat2Z.id i) in Hl. rewrite workerRanges_lookup in Hl by lia.
    by injection Hl as <- <-.
  - intros [Hi Hy]. eexists _, _. split; [|exact Hy].
    rewrite <- (Nat2Z.id i) at 1. apply workerRanges_lookup. lia.
Qed.

Lemma workerRanges_owner_unique (i j : nat) (y : Z) :
  owns (workerRanges outH K (outH / K)) i y ->
  owns (workerRanges outH K (outH / K)) j y ->
  i = j.
Proof.
  pose proof rows_per_worker_bounds as [Hq1 Hq2].
  rewrite !owns_workerRanges. intros [Hi Hyi] [Hj Hyj].
  destruct (Z.eqb_spec (Z.of_nat i) (K - 1)), (Z.eqb_spec (Z.of_nat j) (K - 1)); nia.
Qed.

Lemma workerRanges_owner_exists (y : Z) :
  0 <= y < outH ->
  exists i, owns (workerRanges outH K (outH / K)) i y.
Proof.
  pose proof rows_per_worker_bounds as [Hq1 Hq2].
  intros Hy.
  destruct (Z.eq_dec (outH / K) 0) as [Hq|Hq].
  - exists (Z.to_nat (K - 1)). rewrite owns_workerRanges.
    rewrite Z2Nat.id by lia. rewrite Z.eqb_refl. rewrite Hq. lia.
  - destruct (Z_lt_le_dec (y / (outH / K)) (K - 1)) as [Hlt|Hge].
    + exists (Z.to_nat (y / (outH / K))). rewrite owns_workerRanges.
      assert (0 <= y / (outH / K)) by (apply Z.div_pos; lia).
      rewrite Z2Nat.id by lia.
      case Z.eqb_spec; [lia|intros _].
      pose proof (Z.mul_div_le y (outH / K)).
      pose proof (Z.mul_succ_div_gt y (outH / K)). lia.
    + exists (Z.to_nat (K - 1)). rewrite owns_workerRanges.
      rewrite Z2Nat.id by lia. rewrite Z.eqb_refl.
      assert ((K - 1) * (outH / K) <= y); [|lia].
      pose proof (Z.mul_div_le y (outH / K)). nia.
Qed.

End Bands.

(** ** Well-formed frames never panic *)

Lemma wf_Gray_inv (g : Gray) :
  wf_Gray g = true ->
  let w := X (Max (Rect g)) - X (Min (Rect g)) in
  let h := Y (Max (Rect g)) - Y (Min (Rect g)) in
  (is_int (X (Min (Rect g))) /\ is_int (X (Max (Rect g))) /\
   is_int (Y (Min (Rect g))) /\ is_int (Y (Max (Rect g)))) /\
  (0 <= w <= int_max /\ 0 <= h <= int_max) /\
  Stride g = w /\
  len (Pix g) = w * h /\
  len (Pix g) <= maxAlloc /\
  Forall (fun v => 0 <= v <= 255) (Pix g).
Proof.
  unfold wf_Gray, is_int. intros H.
  repeat (apply andb_prop in H as [H ?]).
  repeat match goal with
         | H : (_ <=? _) = true |- _ => apply Z.leb_le in H
         | H : (_ =? _) = true |- _ => apply Z.eqb_eq in H
         end.
  assert (int_min <= int_max) by done.
  repeat split; try lia.
  apply Forall_forall. intros v Hv.
  match goal with H : forallb _ _ = true |- _ =>
    rewrite forallb_forall in H; specialize (H v) end.
  unfold is_uint8 in *.
  assert (In v (Pix g)) as Hin by (by apply list_elem_of_In).
  match goal with H : In _ _ -> _ |- _ => specialize (H Hin) end.
  lia.
Qed.

Lemma Dx_wf (g : Gray) :
  wf_Gray g = true -> Dx (Rect g) = X (Max (Rect g)) - X (Min (Rect g)).
Proof.
  intros (_ & [Hw _] & _)%wf_Gray_inv. apply int_sub_id.
  unfold is_int, int_min, int_max in *. lia.
Qed.

Lemma Dy_wf (g : Gray) :
  wf_Gray g = true -> Dy (Rect g) = Y (Max (Rect g)) - Y (Min (Rect g)).
Proof.
  intros (_ & [_ Hh] & _)%wf_Gray_inv. apply int_sub_id.
  unfold is_int, int_min, int_max in *. lia.
Qed.

Lemma Point_In_spec (x y : Z) (r : Rectangle) :
  Point_In {| X := x; Y := y |} r = true <->
  X (Min r) <= x < X (Max r) /\ Y (Min r) <= y < Y (Max r).
Proof.
  unfold Point_In. simpl.
  rewrite !andb_true_iff, !Z.leb_le, !Z.ltb_lt. lia.
Qed.

Lemma PixOffset_wf (g : Gray) (x y : Z) :
  wf_Gray g = true ->
  Point_In {| X := x; Y := y |} (Rect g) = true ->
  PixOffset g x y
  = (y - Y (Min (Rect g))) * Stride g + (x - X (Min (Rect g))) /\
  0 <= PixOffset g x y < len (Pix g).
Proof.
  intros (Hint & [Hw Hh] & HS & HL & HA & _)%wf_Gray_inv Hin.
  apply Point_In_spec in Hin as [Hx Hy].
  assert (maxAlloc <= int_max) by done.
  unfold PixOffset.
  assert (forall z, 0 <= z <= int_max -> is_int z) as Hi.
  { unfold is_int, int_min. lia. }
  rewrite (int_sub_id y) by (apply Hi; lia).
  rewrite (int_sub_id x) by (apply Hi; lia).
  rewrite (int_mul_id _ 1) by (apply Hi; lia).
  rewrite int_mul_id by (apply Hi; nia).
  rewrite int_add_id by (apply Hi; nia).
  split; [lia|]. nia.
Qed.

Lemma slice_get_lookup {A} (s : list A) (i : Z) (a : A) :
  0 <= i -> s !! Z.to_nat i = Some a -> slice_get s i = Ok a.
Proof.
  intros Hi Hl. unfold slice_get.
  case Z.ltb_spec; [lia|intros _]. by rewrite Hl.
Qed.

Lemma slice_get_Ok {A} (s : list A) (i : Z) :
  0 <= i < len s -> exists a, s !! Z.to_nat i = Some a /\ slice_get s i = Ok a.
Proof.
  intros Hi. unfold len in Hi.
  destruct (lookup_lt_is_Some_2 s (Z.to_nat i)) as [a Ha]; [lia|].
  exists a. split; [done|]. apply slice_get_lookup; [lia|done].
Qed.

Lemma GrayAt_wf (g : Gray) (x y : Z) :
  wf_Gray g = true -> GrayAt g x y = Ok (Formula.intensity g x y).
Proof.
  intros Hwf. unfold GrayAt, Formula.intensity.
  destruct (Point_In _ _) eqn:Hin; simpl; [|done].
  destruct (PixOffset_wf g x y Hwf Hin) as [Hoff Hrange].
  destruct (slice_get_Ok (Pix g) _ Hrange) as (v & Hv & ->).
  rewrite Hoff in Hv. by rewrite Hv.
Qed.

Lemma intensity_uint8 (g : Gray) (x y : Z) :
  wf_Gray g = true -> 0 <= Formula.intensity g x y <= 255.
Proof.
  intros (_ & _ & _ & _ & _ & Hpix)%wf_Gray_inv.
  unfold Formula.intensity.
  destruct (Point_In _ _); [|lia].
  destruct (Pix g !! _) as [v|] eqn:Hv; simpl; [|lia].
  rewrite Forall_forall in Hpix. apply Hpix.
  by eapply list_elem_of_lookup_2.
Qed.

Lemma wf_frames_inv (images : list Gray) :
  wf_frames images = true ->
  8 * len images <= maxAlloc /\ Forall (fun g => wf_Gray g = true) images.
Proof.
  unfold wf_frames. intros [H1 H2]%andb_prop.
  apply Z.leb_le in H1. split; [done|].
  apply Forall_forall. intros g Hg.
  rewrite forallb_forall in H2. apply H2. by apply list_elem_of_In.
Qed.

Lemma timeSeries_wf (images : list Gray) (px py : Z) :
  Forall (fun g => wf_Gray g = true) images ->
  timeSeries images px py = Ok (Formula.series images px py).
Proof.
  intros Hwf. unfold timeSeries, Formula.series.
  apply appendM_pure. intros g Hg.
  rewrite Forall_forall in Hwf. by rewrite GrayAt_wf by auto.
Qed.

(** ** Signs of binary64 results *)

Lemma binary_round_aux_sign (s : bool) (m e : Z) (l : location) :
  has_sign s (binary_round_aux prec emax s m e l).
Proof.
  unfold binary_round_aux.
  destruct (shr_fexp prec emax m e l) as [mrs' e'].
  destruct (shr_fexp prec emax _ e' loc_Exact) as [mrs'' e''].
  destruct (shr_m mrs''); simpl; [done| |done].
  by destruct (_ <=? _).
Qed.

Lemma binary_round_sign (s : bool) (m : positive) (e : Z) :
  has_sign s (binary_round prec emax s m e).
Proof.
  unfold binary_round. destruct (shl_align _ _ _). apply binary_round_aux_sign.
Qed.

Lemma float64_of_int_sign (n : Z) : 0 <= n -> has_sign false (float64_of_int n).
Proof.
  intros Hn. unfold float64_of_int, binary_normalize.
  destruct n; [done|apply binary_round_sign|lia].
Qed.

Lemma f64_add_sign (x y : float64) :
  has_sign false x -> has_sign false y -> has_sign false (f64_add x y).
Proof.
  destruct x as [[]|[]| |[] mx ex], y as [[]|[]| |[] my ey]; try done.
  intros _ _. unfold f64_add, SFadd. cbn [cond_Zopp].
  rewrite <- Pos2Z.inj_add. apply binary_round_sign.
Qed.

Lemma f64_mul_self_sign (x : float64) : has_sign false (f64_mul x x).
Proof.
  destruct x as [[]|[]| |[] mx ex]; try done;
    apply binary_round_aux_sign.
Qed.

Lemma f64_div_sign (sx sy : bool) (x y : float64) :
  has_sign sx x -> has_sign sy y -> has_sign (xorb sx sy) (f64_div x y).
Proof.
  destruct x as [sx'|sx'| |sx' mx ex], y as [sy'|sy'| |sy' my ey];
    try done; try (by intros <- <-).
  intros <- <-. unfold f64_div, SFdiv.
  destruct (SFdiv_core_binary _ _ _ _ _ _) as [[mz ez] lz].
  apply binary_round_aux_sign.
Qed.

Lemma f64_sqrt_sign (x : float64) :
  has_sign false x -> has_sign false (f64_sqrt x).
Proof.
  destruct x as [[]|[]| |[] mx ex]; try done.
  intros _. unfold f64_sqrt, SFsqrt.
  destruct (SFsqrt_core_binary _ _ _ _) as [[mz ez] lz].
  apply binary_round_aux_sign.
Qed.

Lemma f64_add_zero_r (x : float64) :
  has_sign false x -> f64_add x f64_zero = x.
Proof. by destruct x as [[]|[]| |[] mx ex]. Qed.

Lemma f64_positive_inv (x : float64) :
  f64_ltb f64_zero x = true ->
  has_sign false x /\ x <> S754_nan /\ forall s, x <> S754_zero s.
Proof. by destruct x as [[]|[]| |[] mx ex]. Qed.

Lemma sum_from_sign (l : list float64) (a : float64) :
  has_sign false a -> Forall (has_sign false) l ->
  has_sign false (fold_left f64_add l a).
Proof.
  revert a. induction l as [|x l IH]; intros a Ha Hl; simpl; [done|].
  inversion Hl; subst. apply IH; [|done]. by apply f64_add_sign.
Qed.

Lemma fold_left_fmap {A B C} (f : A -> C -> A) (g : B -> C) (l : list B) (a : A) :
  fold_left f (g <$> l) a = fold_left (fun a b => f a (g b)) l a.
Proof. revert a. induction l as [|b l IH]; intros a; simpl; [done|apply IH]. Qed.

(** ** Rounding to binary64 *)

Lemma fexp_eq (k : Z) : fexp prec emax k = Z.max (k - 53) (-1074).
Proof. reflexivity. Qed.

Lemma digits2_pos_size (p : positive) : digits2_pos p = Pos.size p.
Proof. induction p as [p IH|p IH|]; simpl; by rewrite ?IH. Qed.

Lemma Zdigits2_log2 (m : Z) : 0 < m -> Zdigits2 m = Z.log2 m + 1.
Proof.
  destruct m as [|p|p]; try lia. intros _. simpl.
  rewrite digits2_pos_size. destruct p; simpl; lia.
Qed.

Lemma Zdigits2_bounds (m : Z) :
  0 < m -> 0 < Zdigits2 m /\ 2 ^ (Zdigits2 m - 1) <= m < 2 ^ Zdigits2 m.
Proof.
  intros Hm. rewrite Zdigits2_log2 by done.
  pose proof (Z.log2_nonneg m). pose proof (Z.log2_spec m Hm).
  replace (Z.log2 m + 1 - 1) with (Z.log2 m) by lia.
  replace (Z.log2 m + 1) with (Z.succ (Z.log2 m)) by lia. lia.
Qed.

Lemma Zdigits2_unique (m d : Z) :
  0 < d -> 2 ^ (d - 1) <= m < 2 ^ d -> Zdigits2 m = d.
Proof.
  intros Hd Hm.
  assert (0 < m) by (pose proof (Z.pow_pos_nonneg 2 (d - 1)); lia).
  rewrite Zdigits2_log2 by done.
  rewrite (Z.log2_unique m (d - 1)); try lia.
  replace (Z.succ (d - 1)) with d by lia. done.
Qed.

Lemma iter_pos_nat {A} (f : A -> A) (p : positive) (x : A) :
  SpecFloat.iter_pos f p x = Nat.iter (Pos.to_nat p) f x.
Proof.
  revert x. induction p as [p IH|p IH|]; intros x; cbn [SpecFloat.iter_pos].
  - rewrite !IH, Pos2Nat.inj_xI.
    replace (S (2 * Pos.to_nat p)) with (Pos.to_nat p + (Pos.to_nat p + 1))%nat by lia.
    by rewrite !Nat.iter_add.
  - rewrite !IH, Pos2Nat.inj_xO.
    replace (2 * Pos.to_nat p)%nat with (Pos.to_nat p + Pos.to_nat p)%nat by lia.
    by rewrite Nat.iter_add.
  - done.
Qed.

(** Shifting a mantissa to the right: the quotient, and a round bit that
    is set only when a non-zero bit was shifted out. *)
Lemma shr_1_spec (mrs : shr_record) :
  0 <= shr_m mrs ->
  shr_m (shr_1 mrs) = shr_m mrs / 2 /\
  (shr_r (shr_1 mrs) = true -> shr_m mrs mod 2 = 1).
Proof.
  destruct mrs as [m r s]. simpl. intros Hm.
  destruct m as [|[p|p|]|p]; simpl; try lia; split; try done;
    try (intros _); Z.to_euclidean_division_equations; lia.
Qed.

Lemma shr_iter_spec (n : nat) (mrs : shr_record) :
  0 <= shr_m mrs ->
  shr_m (Nat.iter n shr_1 mrs) = shr_m mrs / 2 ^ Z.of_nat n /\
  ((0 < n)%nat -> shr_r (Nat.iter n shr_1 mrs) = true ->
   shr_m mrs mod 2 ^ Z.of_nat n <> 0).
Proof.
  intros Hm. induction n as [|n [IHm IHr]].
  - simpl. split; [by rewrite Z.div_1_r|lia].
  - rewrite !Nat.iter_succ.
    assert (0 <= shr_m (Nat.iter n shr_1 mrs)) as Hm'.
    { rewrite IHm. apply Z.div_pos; [done|]. apply Z.pow_pos_nonneg; lia. }
    destruct (shr_1_spec _ Hm') as [H1 H2].
    rewrite Nat2Z.inj_succ, Z.pow_succ_r by lia.
    assert (0 < 2 ^ Z.of_nat n) as Hp by (apply Z.pow_pos_nonneg; lia).
    split.
    + rewrite H1, IHm. rewrite Z.div_div by lia. f_equal. lia.
    + intros _ Hr. specialize (H2 Hr). rewrite IHm in H2.
      intros Hmod.
      assert (shr_m mrs = 2 * 2 ^ Z.of_nat n * (shr_m mrs / (2 * 2 ^ Z.of_nat n))) as Heq.
      { pose proof (Z.div_mod (shr_m mrs) (2 * 2 ^ Z.of_nat n)). lia. }
      set (k := shr_m mrs / (2 * 2 ^ Z.of_nat n)) in *.
      rewrite Heq in H2.
      replace (2 * 2 ^ Z.of_nat n * k) with ((2 * k) * 2 ^ Z.of_nat n) in H2 by lia.
      rewrite Z.div_mul in H2 by lia.
      rewrite Z.mul_comm, Z.mod_mul in H2 by lia. lia.
Qed.

Lemma shr_spec (m : Z) (l : location) (e n : Z) :
  0 <= m -> 0 <= n ->
  let '(mrs, e') := shr (shr_record_of_loc m l) e n in
  e' = e + n /\
  shr_m mrs = m / 2 ^ n /\
  (shr_r mrs = true -> m mod 2 ^ n <> 0 \/ l <> loc_Exact).
Proof.
  intros Hm Hn.
  assert (shr_m (shr_record_of_loc m l) = m) as Hrec.
  { by destruct l as [|[]]. }
  destruct n as [|p|p]; [| |lia]; simpl.
  - split; [lia|]. rewrite Z.div_1_r. split; [done|].
    intros Hr. right. by destruct l as [|[]].
  - rewrite iter_pos_nat.
    destruct (shr_iter_spec (Pos.to_nat p) (shr_record_of_loc m l)) as [H1 H2];
      [by rewrite Hrec|].
    rewrite positive_nat_Z, Hrec in *.
    split; [done|]. split; [done|].
    intros Hr. left. apply H2; [lia|done].
Qed.

Lemma round_nearest_even_spec (mrs : shr_record) :
  let m2 := round_nearest_even (shr_m mrs) (loc_of_shr_record mrs) in
  shr_m mrs <= m2 <= shr_m mrs + 1 /\
  (m2 = shr_m mrs + 1 -> shr_r mrs = true).
Proof.
  destruct mrs as [m [] []]; simpl; try lia.
  destruct (Z.even m); lia.
Qed.

Lemma shifted_mantissa_bound (m e : Z) :
  0 <= m -> e <= fexp prec emax (Zdigits2 m + e) ->
  let e' := fexp prec emax (Zdigits2 m + e) in
  m / 2 ^ (e' - e) < 2 ^ 53 /\
  (e' = -1074 \/ 2 ^ 52 <= m / 2 ^ (e' - e)).
Proof.
  intros Hm He e'.
  assert (0 < 2 ^ (e' - e)) as Hp by (apply Z.pow_pos_nonneg; lia).
  destruct (Z.eq_dec m 0) as [->|Hm0].
  - rewrite Z.div_0_l by lia. split; [done|]. left.
    unfold e' in *. simpl in *. rewrite fexp_eq in *. lia.
  - destruct (Zdigits2_bounds m) as (Hd & Hlo & Hhi); [lia|].
    set (d := Zdigits2 m) in *. unfold e' in *. rewrite fexp_eq in *.
    destruct (Z.max_spec (d + e - 53) (-1074)) as [[Hlt Heq]|[Hge Heq]];
      rewrite Heq in *.
    + split; [|by left].
      apply Z.div_lt_upper_bound; [done|].
      assert (2 ^ d <= 2 ^ (-1074 - e) * 2 ^ 53); [|lia].
      rewrite <- Z.pow_add_r by lia. apply Z.pow_le_mono_r; lia.
    + replace (d + e - 53 - e) with (d - 53) in * by lia.
      split.
      * apply Z.div_lt_upper_bound; [done|].
        rewrite <- Z.pow_add_r by lia.
        by replace (d - 53 + 53) with d by lia.
      * right. apply Z.div_le_lower_bound; [done|].
        rewrite <- Z.pow_add_r by lia.
        by replace (d - 53 + 52) with (d - 1) by lia.
Qed.

Lemma binary_round_aux_spec (s : bool) (m e : Z) (l : location) :
  0 <= m -> e <= fexp prec emax (Zdigits2 m + e) ->
  let e' := fexp prec emax (Zdigits2 m + e) in
  exists m2,
    m / 2 ^ (e' - e) <= m2 <= m / 2 ^ (e' - e) + 1 /\
    (m2 = m / 2 ^ (e' - e) + 1 -> m mod 2 ^ (e' - e) <> 0 \/ l <> loc_Exact) /\
    binary_round_aux prec emax s m e l = rounded s m2 e'.
Proof.
  intros Hm He e'.
  destruct (shifted_mantissa_bound m e Hm He) as [Hlt Hnorm]. fold e' in Hlt, Hnorm.
  assert (-1074 <= e') as Hemin by (unfold e'; rewrite fexp_eq; lia).
  unfold binary_round_aux, shr_fexp. fold e'.
  pose proof (shr_spec m l e (e' - e) Hm ltac:(lia)) as Hshr.
  destruct (shr (shr_record_of_loc m l) e (e' - e)) as [mrs' e1].
  destruct Hshr as (-> & Hm1 & Hr1).
  replace (e + (e' - e)) with e' by lia.
  destruct (round_nearest_even_spec mrs') as [Hm2 Hup].
  set (m2 := round_nearest_even (shr_m mrs') (loc_of_shr_record mrs')) in *.
  rewrite Hm1 in Hm2, Hup.
  exists m2. split; [done|]. split; [by intros Heq; apply Hr1, Hup|].
  assert (0 <= m / 2 ^ (e' - e)) as Hq.
  { apply Z.div_pos; [done|]. apply Z.pow_pos_nonneg; lia. }
  destruct (Z.eq_dec m2 (2 ^ 53)) as [Heq|Hne].
  - rewrite Heq. change (Zdigits2 (2 ^ 53)) with 54.
    replace (fexp prec emax (54 + e') - e') with 1 by (rewrite fexp_eq; lia).
    cbn -[Z.add]. reflexivity.
  - assert (m2 < 2 ^ 53) as Hm2lt by lia.
    assert (fexp prec emax (Zdigits2 m2 + e') - e' <= 0) as Hn2.
    { rewrite fexp_eq. destruct (Z.eq_dec m2 0) as [->|Hm20]; [simpl; lia|].
      destruct (Zdigits2_bounds m2) as (Hd & Hlo & Hhi); [lia|].
      assert (Zdigits2 m2 <= 53); [|lia].
      destruct (Z_le_gt_dec (Zdigits2 m2) 53) as [|Hgt]; [done|exfalso].
      assert (2 ^ 53 <= 2 ^ (Zdigits2 m2 - 1)) by (apply Z.pow_le_mono_r; lia).
      lia. }
    assert (shr (shr_record_of_loc m2 loc_Exact) e'
                (fexp prec emax (Zdigits2 m2 + e') - e')
            = (shr_record_of_loc m2 loc_Exact, e')) as ->.
    { destruct (fexp prec emax (Zdigits2 m2 + e') - e'); [done|lia|done]. }
    cbn [shr_record_of_loc shr_m]. unfold rounded.
    destruct m2 as [|p|p]; [done| |lia].
    destruct (Z.eqb_spec (Z.pos p) (2 ^ 53)); [done|]. reflexivity.
Qed.

Lemma pow2_pos (k : Z) : 0 <= k -> 0 < 2 ^ k.
Proof. intros. apply Z.pow_pos_nonneg; lia. Qed.

Lemma pow2_split (a b : Z) : 0 <= a -> 0 <= b -> 2 ^ (a + b) = 2 ^ a * 2 ^ b.
Proof. intros. apply Z.pow_add_r; lia. Qed.

Lemma val_shift (m e n : Z) :
  0 <= n -> -2200 <= e -> val (m * 2 ^ n) e = val m (e + n).
Proof.
  intros Hn He. unfold val.
  replace (e + n + 2200) with (n + (e + 2200)) by lia.
  rewrite (pow2_split n (e + 2200)) by lia. ring.
Qed.

Lemma val_pos (m e : Z) : 0 < m -> -2200 <= e -> 0 < val m e.
Proof. intros Hm He. apply Z.mul_pos_pos; [done|]. apply pow2_pos. lia. Qed.

Lemma val_le_iff (m1 m2 e : Z) : -2200 <= e -> val m1 e <= val m2 e <-> m1 <= m2.
Proof.
  intros He. unfold val. pose proof (pow2_pos (e + 2200) ltac:(lia)). nia.
Qed.

Lemma val_lt_iff (m1 m2 e : Z) : -2200 <= e -> val m1 e < val m2 e <-> m1 < m2.
Proof.
  intros He. unfold val. pose proof (pow2_pos (e + 2200) ltac:(lia)). nia.
Qed.

Lemma bounded_inv (m : positive) (e : Z) :
  bounded prec emax m e = true ->
  fexp prec emax (Zdigits2 (Z.pos m) + e) = e /\ -1074 <= e <= 971 /\
  Z.pos m < 2 ^ 53 /\ (e = -1074 \/ 2 ^ 52 <= Z.pos m).
Proof.
  unfold bounded, canonical_mantissa. intros [Hc He]%andb_prop.
  apply Z.eqb_eq in Hc. apply Z.leb_le in He. change (emax - prec) with 971 in He.
  change (Z.pos (digits2_pos m)) with (Zdigits2 (Z.pos m)) in Hc.
  split; [done|].
  destruct (Zdigits2_bounds (Z.pos m)) as (Hd & Hlo & Hhi); [lia|].
  set (d := Zdigits2 (Z.pos m)) in *. rewrite fexp_eq in Hc.
  assert (d <= 53) by lia.
  split; [lia|]. split.
  - assert (2 ^ d <= 2 ^ 53) by (apply Z.pow_le_mono_r; lia). lia.
  - destruct (Z.eq_dec e (-1074)) as [|Hne]; [by left|right].
    assert (d = 53) as Hd53 by lia. by rewrite Hd53 in Hlo.
Qed.

Lemma bounded_intro (m : positive) (e : Z) :
  -1074 <= e <= 971 -> Z.pos m < 2 ^ 53 -> (e = -1074 \/ 2 ^ 52 <= Z.pos m) ->
  bounded prec emax m e = true.
Proof.
  intros He Hm Hnorm. unfold bounded, canonical_mantissa.
  apply andb_true_intro. split; [|apply Z.leb_le; change (emax - prec) with 971; lia].
  apply Z.eqb_eq.
  change (Z.pos (digits2_pos m)) with (Zdigits2 (Z.pos m)).
  destruct (Zdigits2_bounds (Z.pos m)) as (Hd & Hlo & Hhi); [lia|].
  set (d := Zdigits2 (Z.pos m)) in *. rewrite fexp_eq.
  assert (d <= 53).
  { destruct (Z_le_gt_dec d 53) as [|Hgt]; [done|exfalso].
    assert (2 ^ 53 <= 2 ^ (d - 1)) by (apply Z.pow_le_mono_r; lia). lia. }
  destruct Hnorm as [->|Hnorm]; [lia|].
  assert (d = 53); [|lia].
  destruct (Z_le_gt_dec 53 d) as [|Hgt]; [lia|exfalso].
  assert (2 ^ d <= 2 ^ 52) by (apply Z.pow_le_mono_r; lia). lia.
Qed.

(** A larger value has at least as many digits above the binary point. *)
Lemma val_le_magnitude (m1 e1 m2 e2 : Z) :
  0 < m1 -> 0 < m2 -> -2200 <= e1 -> -2200 <= e2 ->
  val m1 e1 <= val m2 e2 ->
  Zdigits2 m1 + e1 <= Zdigits2 m2 + e2.
Proof.
  intros Hm1 Hm2 He1 He2 Hle.
  destruct (Zdigits2_bounds m1 Hm1) as (Hd1 & Hlo1 & _).
  destruct (Zdigits2_bounds m2 Hm2) as (Hd2 & _ & Hhi2).
  set (d1 := Zdigits2 m1) in *. set (d2 := Zdigits2 m2) in *.
  destruct (Z_le_gt_dec (d1 + e1) (d2 + e2)) as [|Hgt]; [done|exfalso].
  unfold val in Hle.
  pose proof (pow2_pos (e1 + 2200) ltac:(lia)).
  pose proof (pow2_pos (e2 + 2200) ltac:(lia)).
  assert (2 ^ (d2 + (e2 + 2200)) <= 2 ^ ((d1 - 1) + (e1 + 2200))) as Hpow
    by (apply Z.pow_le_mono_r; lia).
  rewrite (pow2_split d2), (pow2_split (d1 - 1)) in Hpow by lia. nia.
Qed.

Lemma fexp_mono (a b : Z) : a <= b -> fexp prec emax a <= fexp prec emax b.
Proof. rewrite !fexp_eq. lia. Qed.

Lemma representable_pos (v : Z) : representable v -> 0 < v.
Proof.
  intros (m & e & Hb & ->). apply bounded_inv in Hb as (_ & He & _).
  unfold val. pose proof (pow2_pos (e + 2200) ltac:(lia)). nia.
Qed.

(** Rounding is monotone and leaves representable bounds in place: a
    value between two representable bounds rounds to a finite number
    between them. *)
Lemma round_finite_in (s : bool) (m e : Z) (l : location) (lo hi : Z) :
  0 <= m -> e <= fexp prec emax (Zdigits2 m + e) -> -2200 <= e ->
  (lo <= 0 \/ (representable lo /\ lo <= val m e)) ->
  representable hi -> val m e <= hi -> (l <> loc_Exact -> val m e < hi) ->
  finite_in lo hi (binary_round_aux prec emax s m e l).
Proof.
  intros Hm He Hoff Hlo (mB & eB & HB & ->) Hhi Hstrict.
  apply bounded_inv in HB as (HcB & HeB & HmB & HnB).
  destruct (binary_round_aux_spec s m e l Hm He) as (m2 & Hm2 & Hup & ->).
  destruct (shifted_mantissa_bound m e Hm He) as [Hlt Hnorm].
  set (e' := fexp prec emax (Zdigits2 m + e)) in *.
  assert (-1074 <= e') as Hemin by (unfold e'; rewrite fexp_eq; lia).
  set (n := e' - e) in *.
  assert (0 < 2 ^ n) as Hpn by (apply pow2_pos; lia).
  set (m1 := m / 2 ^ n) in *.
  assert (0 <= m1) as Hm1 by (apply Z.div_pos; lia).
  assert (m1 * 2 ^ n <= m < m1 * 2 ^ n + 2 ^ n /\ m mod 2 ^ n = m - m1 * 2 ^ n) as [Hdiv Hmod].
  { pose proof (Z.div_mod m (2 ^ n) ltac:(lia)).
    pose proof (Z.mod_pos_bound m (2 ^ n) ltac:(lia)). unfold m1. lia. }
  (* the upper bound is a multiple of the rounding unit *)
  assert (e' <= eB) as HeB'.
  { destruct (Z.eq_dec m 0) as [Hm0|Hm0].
    - destruct Hnorm as [->|Hnorm]; [lia|].
      unfold m1 in Hnorm. rewrite Hm0, Z.div_0_l in Hnorm by lia. lia.
    - rewrite <- HcB. apply fexp_mono.
      apply val_le_magnitude; (lia || done). }
  set (b := Z.pos mB * 2 ^ (eB - e')).
  assert (val (Z.pos mB) eB = val b e') as Hb.
  { unfold b. rewrite val_shift by lia. f_equal. lia. }
  assert (forall k, val k e' = val (k * 2 ^ n) e) as Hke.
  { intros k. rewrite val_shift by lia. f_equal. unfold n. lia. }
  rewrite Hb in *. clearbody b.
  assert (m <= b * 2 ^ n) as Hmb.
  { apply (val_le_iff _ _ e); [done|]. by rewrite <- Hke. }
  assert (m2 <= b) as Hm2b.
  { destruct (Z.eq_dec m2 (m1 + 1)) as [Heq|Hne]; [|nia].
    destruct (Hup Heq) as [Hrem|Hl].
    - nia.
    - specialize (Hstrict Hl). rewrite Hke in Hstrict.
      apply val_lt_iff in Hstrict; [|done]. nia. }
  assert (val m2 e' <= val b e') as Hv2 by (by apply val_le_iff; [lia|]).
  (* the lower bound *)
  assert (lo <= val m2 e') as Hlo2.
  { assert (0 <= val m2 e') as Hpos.
    { unfold val. pose proof (pow2_pos (e' + 2200) ltac:(lia)). nia. }
    destruct Hlo as [Hlo|[(mA & eA & HA & ->) Hlo]]; [lia|].
    apply bounded_inv in HA as (HcA & HeA & HmA & HnA).
    transitivity (val m1 e'); [|apply val_le_iff; lia].
    destruct (Z_le_gt_dec e' eA) as [Hle|Hgt].
    - assert (val (Z.pos mA) eA = val (Z.pos mA * 2 ^ (eA - e')) e') as Ha.
      { rewrite val_shift by lia. f_equal. lia. }
      rewrite Ha in *. apply val_le_iff; [lia|].
      rewrite Hke in Hlo. apply val_le_iff in Hlo; [|done].
      pose proof (pow2_pos (eA - e') ltac:(lia)). nia.
    - destruct Hnorm as [?|Hnorm]; [lia|].
      unfold val.
      assert (2 ^ (eA + 2200) <= 2 ^ (e' - 1 + 2200)) as Hp1
        by (apply Z.pow_le_mono_r; lia).
      assert (2 ^ (e' + 2200) = 2 * 2 ^ (e' - 1 + 2200)) as Hp2.
      { replace (e' + 2200) with (1 + (e' - 1 + 2200)) by lia.
        by rewrite pow2_split by lia. }
      pose proof (pow2_pos (eA + 2200) ltac:(lia)).
      rewrite Hp2. nia. }
  assert (0 < val b e') as Hbpos.
  { unfold val in *. pose proof (pow2_pos (e' + 2200) ltac:(lia)).
    rewrite <- Hb. pose proof (pow2_pos (eB + 2200) ltac:(lia)). nia. }
  unfold rounded. destruct m2 as [|p|p]; [| |lia].
  - split; [done|]. exists 0. split; [done|].
    unfold val in Hlo2. lia.
  - destruct (Z.eqb_spec (Z.pos p) (2 ^ 53)) as [Heq|Hne].
    + assert (e' + 1 <= eB) as He1.
      { destruct (Z.eq_dec e' eB) as [Hee|Hee]; [|lia]. exfalso.
        rewrite Heq in Hv2. apply val_le_iff in Hv2; [|lia].
        assert (b <= Z.pos mB); [|lia].
        apply (val_le_iff _ _ e'); [lia|]. rewrite <- Hb, Hee. lia. }
      destruct (Z.leb_spec (e' + 1) 971) as [_|?]; [|lia].
      assert (val (Z.pos (2 ^ 52)) (e' + 1) = val (Z.pos p) e') as Hv.
      { rewrite Heq. rewrite <- val_shift by lia. done. }
      split.
      * apply bounded_intro; [lia|done|by right].
      * exists (val (Z.pos p) e'). split; [cbn [mag]; by rewrite Hv|lia].
    + destruct (Z.leb_spec e' 971) as [_|?]; [|lia].
      split.
      * apply bounded_intro; [lia|lia|].
        destruct Hnorm as [?|?]; [by left|right; lia].
      * exists (val (Z.pos p) e'). split; [done|lia].
Qed.

(** ** Exact representations *)

Lemma pos_iter_xO (m d : positive) :
  Z.pos (Pos.iter xO m d) = Z.pos m * 2 ^ Z.pos d.
Proof.
  induction d as [|d IH] using Pos.peano_ind.
  - simpl. lia.
  - rewrite Pos.iter_succ, Pos2Z.inj_xO, IH, Pos2Z.inj_succ, Z.pow_succ_r by lia. ring.
Qed.

Lemma Zdigits2_shift (m n : Z) :
  0 < m -> 0 <= n -> Zdigits2 (m * 2 ^ n) = Zdigits2 m + n.
Proof.
  intros Hm Hn. destruct (Zdigits2_bounds m Hm) as (Hd & Hlo & Hhi).
  pose proof (pow2_pos n Hn).
  apply Zdigits2_unique; [lia|].
  replace (Zdigits2 m + n - 1) with ((Zdigits2 m - 1) + n) by lia.
  rewrite !pow2_split by lia. nia.
Qed.

(** Aligning a mantissa on a smaller exponent keeps the value. *)
Lemma shl_align_spec (m : positive) (e e' : Z) :
  -2200 <= e' ->
  let '(mz, ez) := shl_align m e e' in
  ez = Z.min e e' /\ Z.pos mz = Z.pos m * 2 ^ (e - ez) /\
  val (Z.pos mz) ez = val (Z.pos m) e.
Proof.
  intros He'. unfold shl_align.
  destruct (e' - e) as [|d|d] eqn:Hd.
  - split; [lia|]. replace (e - e) with 0 by lia. split; [lia|done].
  - split; [lia|]. replace (e - e) with 0 by lia. split; [lia|done].
  - assert (e - e' = Z.pos d) as Hd' by lia.
    split; [lia|]. rewrite pos_iter_xO, Hd'. split; [done|].
    rewrite val_shift by lia. f_equal. lia.
Qed.

Lemma binary_round_finite_in (s : bool) (m : positive) (e : Z) (lo hi : Z) :
  -2200 <= e ->
  (lo <= 0 \/ (representable lo /\ lo <= val (Z.pos m) e)) ->
  representable hi -> val (Z.pos m) e <= hi ->
  finite_in lo hi (binary_round prec emax s m e).
Proof.
  intros He Hlo Hhi Hle. unfold binary_round.
  change (Z.pos (digits2_pos m)) with (Zdigits2 (Z.pos m)).
  set (e' := fexp prec emax (Zdigits2 (Z.pos m) + e)).
  assert (-1074 <= e') as Hemin by (unfold e'; rewrite fexp_eq; lia).
  pose proof (shl_align_spec m e e' ltac:(lia)) as Hal.
  destruct (shl_align m e e') as [mz ez]. destruct Hal as (Hez & Hmz & Hval).
  assert (Zdigits2 (Z.pos mz) + ez = Zdigits2 (Z.pos m) + e) as Hdig.
  { rewrite Hmz, Zdigits2_shift by lia. lia. }
  apply round_finite_in; rewrite ?Hval, ?Hdig; try done; try lia.
Qed.

Lemma representable_scaled (z j : Z) :
  0 < z < 2 ^ 53 -> -1022 <= j <= 971 -> representable (val z j).
Proof.
  intros Hz Hj. destruct (Zdigits2_bounds z) as (Hd & Hlo & Hhi); [lia|].
  set (d := Zdigits2 z) in *.
  assert (d <= 53).
  { destruct (Z_le_gt_dec d 53) as [|Hgt]; [done|exfalso].
    assert (2 ^ 53 <= 2 ^ (d - 1)) by (apply Z.pow_le_mono_r; lia). lia. }
  pose proof (pow2_pos (53 - d) ltac:(lia)) as Hp.
  destruct (z * 2 ^ (53 - d)) as [|mB|mB] eqn:HmB; [nia| |nia].
  exists mB, (j + d - 53). split.
  - apply bounded_intro; [lia| |right]; rewrite <- HmB.
    + replace (2 ^ 53) with (2 ^ d * 2 ^ (53 - d)); [nia|].
      rewrite <- pow2_split by lia. f_equal. lia.
    + replace (2 ^ 52) with (2 ^ (d - 1) * 2 ^ (53 - d)); [nia|].
      rewrite <- pow2_split by lia. f_equal. lia.
  - rewrite <- HmB, val_shift by lia. f_equal. lia.
Qed.

(** A magnitude has one canonical form. *)
Lemma finite_in_unique (v : Z) (f1 f2 : float64) :
  finite_in v v f1 -> finite_in v v f2 ->
  has_sign false f1 -> has_sign false f2 -> f1 = f2.
Proof.
  intros (Hv1 & v1 & Hm1 & Hb1) (Hv2 & v2 & Hm2 & Hb2) Hs1 Hs2.
  assert (v1 = v) as -> by lia. assert (v2 = v) as -> by lia.
  destruct f1 as [s1|s1| |s1 m1 e1], f2 as [s2|s2| |s2 m2 e2]; try done;
    cbn [has_sign] in Hs1, Hs2; subst; cbn [mag] in Hm1, Hm2.
  - done.
  - apply (inj Some) in Hm1, Hm2. subst v. exfalso.
    apply bounded_inv in Hv2 as (_ & He & _).
    pose proof (val_pos (Z.pos m2) e2). lia.
  - apply (inj Some) in Hm1, Hm2. subst v. exfalso.
    apply bounded_inv in Hv1 as (_ & He & _).
    pose proof (val_pos (Z.pos m1) e1). lia.
  - apply (inj Some) in Hm1, Hm2.
    apply bounded_inv in Hv1 as (Hc1 & He1 & _).
    apply bounded_inv in Hv2 as (Hc2 & He2 & _).
    assert (Zdigits2 (Z.pos m1) + e1 = Zdigits2 (Z.pos m2) + e2) as Hd.
    { apply Z.le_antisymm; apply val_le_magnitude; lia. }
    assert (e1 = e2) as <- by (rewrite <- Hc1, <- Hc2, Hd; done).
    assert (Z.pos m1 = Z.pos m2) as Hm.
    { apply Z.le_antisymm; apply (val_le_iff _ _ e1); lia. }
    by injection Hm as <-.
Qed.

(** ** The operations on finite numbers *)

Lemma finite_in_weaken (lo hi lo' hi' : Z) (f : float64) :
  finite_in lo hi f -> lo' <= lo -> hi <= hi' -> finite_in lo' hi' f.
Proof.
  intros (Hv & v & Hm & Hb) Hlo Hhi. split; [done|]. exists v. split; [done|lia].
Qed.

Lemma finite_in_zero (s : bool) (lo hi : Z) :
  lo <= 0 <= hi -> finite_in lo hi (S754_zero s).
Proof. intros Hb. split; [done|]. by exists 0. Qed.

Lemma finite_in_nonneg (lo hi : Z) (f : float64) :
  finite_in lo hi f -> finite_in (Z.max lo 0) hi f.
Proof.
  intros (Hv & v & Hm & Hb). split; [done|]. exists v. split; [done|].
  destruct f as [s|s| |s m e]; try done; apply (inj Some) in Hm; subst v; [lia|].
  apply bounded_inv in Hv as (_ & He & _).
  pose proof (val_pos (Z.pos m) e). lia.
Qed.

Lemma float64_of_int_finite (z : Z) :
  0 <= z < 2 ^ 53 ->
  finite_in (val z 0) (val z 0) (float64_of_int z) /\
  has_sign false (float64_of_int z).
Proof.
  intros Hz. unfold float64_of_int, binary_normalize.
  destruct z as [|p|p]; [|split|lia].
  - split; [|done]. by apply finite_in_zero.
  - apply binary_round_finite_in; try done.
    + right. split; [|done]. apply representable_scaled; lia.
    + apply representable_scaled; lia.
  - unfold binary_round. destruct (shl_align _ _ _) as [mz ez].
    unfold binary_round_aux.
    destruct (shr_fexp prec emax (Z.pos mz) ez loc_Exact) as [mrs' e'].
    destruct (shr_fexp prec emax _ e' loc_Exact) as [mrs'' e''].
    destruct (shr_m mrs''); simpl; [done| |done]. by destruct (_ <=? _).
Qed.

Lemma val_add (a b e : Z) : val (a + b) e = val a e + val b e.
Proof. unfold val. ring. Qed.

Lemma val_sub (a b e : Z) : val (a - b) e = val a e - val b e.
Proof. unfold val. ring. Qed.

(** Addition of two non-negative finite numbers. *)
Lemma f64_add_finite (x y : float64) (lx hx ly hy lo hi : Z) :
  finite_in lx hx x -> finite_in ly hy y ->
  has_sign false x -> has_sign false y ->
  (lo <= 0 \/ (representable lo /\ lo <= lx + ly)) ->
  representable hi -> hx + hy <= hi ->
  finite_in lo hi (f64_add x y).
Proof.
  intros Hx Hy Hsx Hsy Hlo Hhi Hle.
  apply finite_in_nonneg in Hx, Hy.
  destruct Hx as (Hvx & vx & Hmx & Hbx), Hy as (Hvy & vy & Hmy & Hby).
  pose proof (representable_pos hi Hhi) as Hhipos.
  assert (lo <= vx + vy) as Hlo'.
  { destruct Hlo as [?|[_ ?]]; lia. }
  destruct x as [sx|sx| |sx mx ex], y as [sy|sy| |sy my ey]; try done;
    cbn [has_sign] in Hsx, Hsy; subst; cbn [mag] in Hmx, Hmy;
    apply (inj Some) in Hmx, Hmy; subst vx vy.
  - apply finite_in_zero. lia.
  - split; [done|]. eexists. split; [done|]. lia.
  - split; [done|]. eexists. split; [done|]. lia.
  - apply bounded_inv in Hvx as (_ & Hex & _).
    apply bounded_inv in Hvy as (_ & Hey & _).
    unfold f64_add, SFadd. cbn [cond_Zopp].
    set (ez := Z.min ex ey).
    pose proof (shl_align_spec mx ex ez ltac:(lia)) as Hax.
    pose proof (shl_align_spec my ey ez ltac:(lia)) as Hay.
    destruct (shl_align mx ex ez) as [mx' ex'], (shl_align my ey ez) as [my' ey'].
    destruct Hax as (Hex' & _ & Hvalx), Hay as (Hey' & _ & Hvaly).
    assert (ex' = ez) as -> by lia. assert (ey' = ez) as -> by lia.
    cbn [fst]. rewrite <- Pos2Z.inj_add. cbn [binary_normalize].
    assert (val (Z.pos (mx' + my')) ez = val (Z.pos mx) ex + val (Z.pos my) ey) as Hsum.
    { by rewrite Pos2Z.inj_add, val_add, Hvalx, Hvaly. }
    apply binary_round_finite_in; rewrite ?Hsum; try done; try lia.
    destruct Hlo as [?|[? ?]]; [by left|right]. split; [done|lia].
Qed.

(** Subtraction of two non-negative finite numbers: the magnitude of the
    difference is at most the larger magnitude. *)
Lemma f64_sub_finite (x y : float64) (lx hx ly hy hi : Z) :
  finite_in lx hx x -> finite_in ly hy y ->
  has_sign false x -> has_sign false y ->
  representable hi -> hx <= hi -> hy <= hi ->
  finite_in 0 hi (f64_sub x y).
Proof.
  intros Hx Hy Hsx Hsy Hhi Hlex Hley.
  apply finite_in_nonneg in Hx, Hy.
  destruct Hx as (Hvx & vx & Hmx & Hbx), Hy as (Hvy & vy & Hmy & Hby).
  pose proof (representable_pos hi Hhi) as Hhipos.
  destruct x as [sx|sx| |sx mx ex], y as [sy|sy| |sy my ey]; try done;
    cbn [has_sign] in Hsx, Hsy; subst; cbn [mag] in Hmx, Hmy;
    apply (inj Some) in Hmx, Hmy; subst vx vy.
  - apply finite_in_zero. lia.
  - split; [done|]. eexists. split; [done|]. lia.
  - split; [done|]. eexists. split; [done|]. lia.
  - apply bounded_inv in Hvx as (_ & Hex & _).
    apply bounded_inv in Hvy as (_ & Hey & _).
    unfold f64_sub, SFsub. cbn [cond_Zopp].
    set (ez := Z.min ex ey).
    pose proof (shl_align_spec mx ex ez ltac:(lia)) as Hax.
    pose proof (shl_align_spec my ey ez ltac:(lia)) as Hay.
    destruct (shl_align mx ex ez) as [mx' ex'], (shl_align my ey ez) as [my' ey'].
    destruct Hax as (Hex' & _ & Hvalx), Hay as (Hey' & _ & Hvaly).
    assert (ex' = ez) as -> by lia. assert (ey' = ez) as -> by lia.
    cbn [fst].
    pose proof (val_sub (Z.pos mx') (Z.pos my') ez) as Hd.
    pose proof (val_sub (Z.pos my') (Z.pos mx') ez) as Hd'.
    rewrite Hvalx, Hvaly in Hd, Hd'.
    pose proof (val_pos (Z.pos mx) ex). pose proof (val_pos (Z.pos my) ey).
    destruct (Z.pos mx' - Z.pos my') as [|p|p] eqn:HM; cbn [binary_normalize].
    + apply finite_in_zero. lia.
    + apply binary_round_finite_in; try done; try lia.
    + replace (Z.pos my' - Z.pos mx') with (Z.pos p) in Hd' by lia.
      apply binary_round_finite_in; try done; try lia.
Qed.

Lemma f64_sub_diag (x : float64) (lo hi : Z) :
  finite_in lo hi x -> has_sign false x -> f64_sub x x = f64_zero.
Proof.
  intros (Hv & v & Hm & Hb) Hs.
  destruct x as [sx|sx| |sx mx ex]; try done; cbn [has_sign] in Hs; subst; [done|].
  unfold f64_sub, SFsub. by rewrite Z.sub_diag.
Qed.

Lemma Zdigits2_ge (m k : Z) : 0 < m -> 2 ^ (k - 1) <= m -> k <= Zdigits2 m.
Proof.
  intros Hm Hk. destruct (Zdigits2_bounds m Hm) as (Hd & _ & Hhi).
  destruct (Z_le_gt_dec k (Zdigits2 m)) as [|Hgt]; [done|exfalso].
  assert (2 ^ Zdigits2 m <= 2 ^ (k - 1)) by (apply Z.pow_le_mono_r; lia). lia.
Qed.

Lemma Zdigits2_nonneg (m : Z) : 0 <= Zdigits2 m.
Proof. by destruct m. Qed.

Lemma mul_exponent_ok (mx my : positive) (ex ey : Z) :
  bounded prec emax mx ex = true -> bounded prec emax my ey = true ->
  ex + ey <= fexp prec emax (Zdigits2 (Z.pos mx * Z.pos my) + (ex + ey)).
Proof.
  intros (_ & Hex & Hmx & Hnx)%bounded_inv (_ & Hey & Hmy & Hny)%bounded_inv.
  rewrite fexp_eq.
  destruct Hnx as [->|Hnx].
  { destruct Hny as [->|Hny]; [lia|].
    assert (53 <= Zdigits2 (Z.pos mx * Z.pos my)); [|lia].
    apply Zdigits2_ge; [lia|]. change (2 ^ (53 - 1)) with (2 ^ 52). nia. }
  assert (53 <= Zdigits2 (Z.pos mx * Z.pos my)); [|lia].
  apply Zdigits2_ge; [lia|]. change (2 ^ (53 - 1)) with (2 ^ 52). nia.
Qed.

(** Multiplication of finite numbers: magnitudes multiply. *)
Lemma f64_mul_finite (x y : float64) (lx hx ly hy hi : Z) :
  finite_in lx hx x -> finite_in ly hy y ->
  representable hi -> hx * hy <= hi * val 1 0 ->
  finite_in 0 hi (f64_mul x y).
Proof.
  intros Hx Hy Hhi Hle.
  apply finite_in_nonneg in Hx, Hy.
  destruct Hx as (Hvx & vx & Hmx & Hbx), Hy as (Hvy & vy & Hmy & Hby).
  pose proof (representable_pos hi Hhi) as Hhipos.
  destruct x as [sx|sx| |sx mx ex], y as [sy|sy| |sy my ey]; try done;
    cbn [mag] in Hmx, Hmy; apply (inj Some) in Hmx, Hmy; subst vx vy;
    try (apply finite_in_zero; lia).
  pose proof (mul_exponent_ok mx my ex ey Hvx Hvy) as He.
  apply bounded_inv in Hvx as (_ & Hex & _).
  apply bounded_inv in Hvy as (_ & Hey & _).
  unfold f64_mul, SFmul. rewrite Pos2Z.inj_mul.
  assert (val (Z.pos mx * Z.pos my) (ex + ey) * val 1 0
          = val (Z.pos mx) ex * val (Z.pos my) ey) as Hprod.
  { unfold val. rewrite Z.mul_1_l.
    replace (Z.pos mx * Z.pos my * 2 ^ (ex + ey + 2200) * 2 ^ (0 + 2200))
      with (Z.pos mx * Z.pos my * (2 ^ (ex + ey + 2200) * 2 ^ (0 + 2200))) by ring.
    rewrite <- pow2_split by lia.
    replace (ex + ey + 2200 + (0 + 2200)) with ((ex + 2200) + (ey + 2200)) by lia.
    rewrite pow2_split by lia. ring. }
  assert (0 < val 1 0) as Hone by (by apply val_pos).
  pose proof (val_pos (Z.pos mx) ex). pose proof (val_pos (Z.pos my) ey).
  apply round_finite_in; try done; try lia.
  apply (Z.mul_le_mono_pos_r _ _ (val 1 0)); [done|]. rewrite Hprod.
  transitivity (hx * hy); [|done]. apply Z.mul_le_mono_nonneg; lia.
Qed.

(** A representable number below the next multiple of the unit in the last
    place is at most the truncated value. *)
Lemma floor_above_representable (lo q e' : Z) :
  representable lo -> 0 <= q -> -2200 <= e' ->
  e' <= fexp prec emax (Zdigits2 q + e') ->
  lo < val (q + 1) e' -> lo <= val q e'.
Proof.
  intros (mL & eL & HB & ->) Hq Hoff He Hlt.
  apply bounded_inv in HB as (_ & HeL & HmL & _).
  rewrite fexp_eq in He.
  destruct (Z_le_gt_dec e' eL) as [Hle|Hgt].
  - replace eL with (e' + (eL - e')) in * by lia.
    rewrite <- val_shift in * by lia.
    apply val_le_iff; [done|]. apply val_lt_iff in Hlt; [lia|done].
  - assert (0 < q) as Hqpos.
    { destruct (Z.eq_dec q 0) as [->|]; [|lia]. cbn [Zdigits2] in He. lia. }
    assert (2 ^ 52 <= q) as Hbig.
    { destruct (Zdigits2_bounds q Hqpos) as (_ & Hlow & _).
      assert (2 ^ 52 <= 2 ^ (Zdigits2 q - 1)) by (apply Z.pow_le_mono_r; lia). lia. }
    transitivity (val (2 ^ 52) e'); [|by apply val_le_iff].
    unfold val.
    assert (2 ^ (53 + (eL + 2200)) <= 2 ^ (52 + (e' + 2200))) as Hp
      by (apply Z.pow_le_mono_r; lia).
    rewrite (pow2_split 53 (eL + 2200)), (pow2_split 52 (e' + 2200)) in Hp by lia.
    transitivity (2 ^ 53 * 2 ^ (eL + 2200)); [|done].
    apply Z.mul_le_mono_nonneg_r; [|lia]. apply Z.lt_le_incl, pow2_pos. lia.
Qed.

Lemma new_location_inexact (n r : Z) : new_location n r <> loc_Exact -> r <> 0.
Proof.
  unfold new_location, new_location_even, new_location_odd.
  intros H ->. apply H. by destruct (Z.even n).
Qed.

Lemma SFdiv_core_spec (mx my : positive) (ex ey : Z) :
  -1074 <= ex <= 971 -> -1074 <= ey <= 971 ->
  exists q e' l s,
    SFdiv_core_binary prec emax (Z.pos mx) ex (Z.pos my) ey = (q, e', l) /\
    0 <= s /\ e' + s = ex - ey /\ Z.min (-1074) (ex - ey) <= e' /\
    q = (Z.pos mx * 2 ^ s) / Z.pos my /\
    (l <> loc_Exact -> (Z.pos mx * 2 ^ s) mod Z.pos my <> 0) /\
    e' <= fexp prec emax (Zdigits2 q + e').
Proof.
  intros Hex Hey. unfold SFdiv_core_binary. cbv zeta.
  destruct (Zdigits2_bounds (Z.pos mx) ltac:(done)) as (Hd1 & Hlow1 & Hup1).
  destruct (Zdigits2_bounds (Z.pos my) ltac:(done)) as (Hd2 & Hlow2 & Hup2).
  rewrite fexp_eq.
  set (d1 := Zdigits2 (Z.pos mx)) in *. set (d2 := Zdigits2 (Z.pos my)) in *.
  remember (Z.min (Z.max (d1 + ex - (d2 + ey) - 53) (-1074)) (ex - ey)) as e' eqn:He'.
  remember (ex - ey - e') as s eqn:Hs.
  assert (0 <= s) as Hs0 by lia.
  match goal with |- context [Z.div_eucl ?m _] => assert (m = Z.pos mx * 2 ^ s) as -> end.
  { destruct s; [lia| by rewrite Z.shiftl_mul_pow2 |lia]. }
  set (M := Z.pos mx * 2 ^ s).
  pose proof (pow2_pos s Hs0) as Hpow.
  assert (0 < M) as HM by (unfold M; lia).
  destruct (Z.div_eucl M (Z.pos my)) as [q r] eqn:Hdiv.
  assert (q = M / Z.pos my) as Hq by (unfold Z.div; by rewrite Hdiv).
  assert (r = M mod Z.pos my) as Hr by (unfold Z.modulo; by rewrite Hdiv).
  exists q, e', (new_location (Z.pos my) r), s.
  split; [done|]. split; [done|]. split; [lia|]. split; [lia|]. split; [done|].
  split. { intros Hl%new_location_inexact. subst r. exact Hl. }
  rewrite fexp_eq.
  destruct (Z_le_gt_dec e' (-1074)) as [|Hbig]; [lia|].
  assert (53 <= Zdigits2 q); [|lia].
  assert (2 ^ 52 <= q) as Hq52.
  { rewrite Hq. apply Z.div_le_lower_bound; [done|].
    assert (2 ^ (52 + d2) <= 2 ^ ((d1 - 1) + s)) as Hp by (apply Z.pow_le_mono_r; lia).
    rewrite (pow2_split 52 d2), (pow2_split (d1 - 1) s) in Hp by lia.
    transitivity (2 ^ d2 * 2 ^ 52).
    { apply Z.mul_le_mono_nonneg_r; lia. }
    transitivity (2 ^ (d1 - 1) * 2 ^ s); [lia|].
    unfold M. apply Z.mul_le_mono_nonneg_r; lia. }
  apply Zdigits2_ge; [lia|]. by change (53 - 1) with 52.
Qed.

Lemma val_mul (m1 m2 e1 e2 : Z) :
  -2200 <= e1 -> -2200 <= e2 -> -2200 <= e1 + e2 ->
  val (m1 * m2) (e1 + e2) * val 1 0 = val m1 e1 * val m2 e2.
Proof.
  intros H1 H2 H12. unfold val. rewrite Z.mul_1_l.
  replace (m1 * m2 * 2 ^ (e1 + e2 + 2200) * 2 ^ (0 + 2200))
    with (m1 * m2 * (2 ^ (e1 + e2 + 2200) * 2 ^ (0 + 2200))) by ring.
  rewrite <- pow2_split by lia.
  replace (e1 + e2 + 2200 + (0 + 2200)) with ((e1 + 2200) + (e2 + 2200)) by lia.
  rewrite pow2_split by lia. ring.
Qed.

Lemma val_mono (m1 m2 e : Z) : -2200 <= e -> m1 <= m2 -> val m1 e <= val m2 e.
Proof. intros. by apply val_le_iff. Qed.

Lemma val_strict_mono (m1 m2 e : Z) : -2200 <= e -> m1 < m2 -> val m1 e < val m2 e.
Proof. intros. by apply val_lt_iff. Qed.

(** Division of a finite number by a positive finite number: the quotient of
    the bounds bounds the quotient. *)
Lemma f64_div_finite (x y : float64) (lx hx ly hy lo hi : Z) :
  finite_in lx hx x -> finite_in ly hy y -> 0 < ly ->
  (lo <= 0 \/ (representable lo /\ lo * hy <= lx * val 1 0)) ->
  representable hi -> hx * val 1 0 <= hi * ly ->
  finite_in lo hi (f64_div x y).
Proof.
  intros (Hvx & vx & Hmx & Hbx) (Hvy & vy & Hmy & Hby) Hly Hlo Hhi Hle.
  pose proof (representable_pos hi Hhi) as Hhipos.
  assert (0 < val 1 0) as Hone by (by apply val_pos).
  destruct y as [sy|sy| |sy my ey]; try done; cbn [mag] in Hmy;
    apply (inj Some) in Hmy; subst vy; [lia|].
  destruct x as [sx|sx| |sx mx ex]; try done; cbn [mag] in Hmx;
    apply (inj Some) in Hmx; subst vx.
  { apply finite_in_zero. split; [|lia].
    destruct Hlo as [|[Hr%representable_pos Hlo]]; [done|exfalso].
    assert (0 < lo * hy) by (apply Z.mul_pos_pos; lia).
    assert (lx * val 1 0 <= 0) by (apply Z.mul_nonpos_nonneg; lia). lia. }
  apply bounded_inv in Hvx as (_ & Hex & _).
  apply bounded_inv in Hvy as (_ & Hey & _).
  unfold f64_div, SFdiv.
  destruct (SFdiv_core_spec mx my ex ey Hex Hey)
    as (q & e' & l & s & -> & Hs & Hes & Hmin & Hq & Hl & He).
  assert (-2200 <= e') as Hoff by lia.
  set (M := Z.pos mx * 2 ^ s) in *.
  pose proof (Z.div_mod M (Z.pos my) ltac:(done)) as Hdm.
  pose proof (Z.mod_pos_bound M (Z.pos my) ltac:(done)) as Hmod.
  rewrite <- Hq in Hdm.
  assert (0 <= q) as Hq0.
  { rewrite Hq. apply Z.div_pos; [|done]. unfold M.
    pose proof (pow2_pos s Hs). lia. }
  assert (val M (e' + ey) = val (Z.pos mx) ex) as HM.
  { unfold M. rewrite val_shift by lia. f_equal. lia. }
  pose proof (val_pos (Z.pos my) ey ltac:(done) ltac:(lia)) as Hypos.
  pose proof (val_pos (Z.pos mx) ex ltac:(done) ltac:(lia)) as Hxpos.
  pose proof (val_mul q (Z.pos my) e' ey Hoff ltac:(lia) ltac:(lia)) as Hprod.
  pose proof (val_mul (q + 1) (Z.pos my) e' ey Hoff ltac:(lia) ltac:(lia)) as Hprod1.
  assert (val (q * Z.pos my) (e' + ey) <= val M (e' + ey)) as Hfloor
    by (apply val_mono; lia).
  assert (val M (e' + ey) < val ((q + 1) * Z.pos my) (e' + ey)) as Hceil
    by (apply val_strict_mono; lia).
  assert (hi * ly <= hi * val (Z.pos my) ey) as Hhy
    by (apply Z.mul_le_mono_nonneg_l; lia).
  assert (val (Z.pos mx) ex * val 1 0 <= hx * val 1 0) as Hxh
    by (apply Z.mul_le_mono_nonneg_r; lia).
  apply round_finite_in; try done.
  - destruct Hlo as [|[Hr Hlo]]; [by left|right]. split; [done|].
    apply floor_above_representable; try done.
    apply (Z.mul_lt_mono_pos_r (val (Z.pos my) ey)); [done|].
    rewrite <- Hprod1.
    pose proof (representable_pos lo Hr).
    assert (lo * val (Z.pos my) ey <= lo * hy)
      by (apply Z.mul_le_mono_nonneg_l; lia).
    assert (lx * val 1 0 <= val (Z.pos mx) ex * val 1 0)
      by (apply Z.mul_le_mono_nonneg_r; lia).
    assert (val M (e' + ey) * val 1 0
            < val ((q + 1) * Z.pos my) (e' + ey) * val 1 0)
      by (apply Z.mul_lt_mono_pos_r; lia).
    rewrite HM in *. lia.
  - apply (Z.mul_le_mono_pos_r _ _ (val (Z.pos my) ey)); [done|].
    rewrite <- Hprod.
    assert (val (q * Z.pos my) (e' + ey) * val 1 0 <= val M (e' + ey) * val 1 0)
      by (apply Z.mul_le_mono_nonneg_r; lia).
    rewrite HM in *. lia.
  - intros Hne%Hl. fold M in Hne.
    apply (Z.mul_lt_mono_pos_r (val (Z.pos my) ey)); [done|].
    rewrite <- Hprod.
    assert (val (q * Z.pos my) (e' + ey) < val M (e' + ey)) as Hstrict
      by (apply val_strict_mono; lia).
    assert (val (q * Z.pos my) (e' + ey) * val 1 0 < val M (e' + ey) * val 1 0)
      by (apply Z.mul_lt_mono_pos_r; lia).
    rewrite HM in *. lia.
Qed.

Lemma SFsqrt_core_spec (mx : positive) (ex : Z) :
  -1074 <= ex <= 971 ->
  exists q e' l s,
    SFsqrt_core_binary prec emax (Z.pos mx) ex = (q, e', l) /\
    0 <= s /\ e' + e' + s = ex /\ -1074 <= e' /\ 0 <= q /\
    q * q <= Z.pos mx * 2 ^ s /\
    (l <> loc_Exact -> q * q < Z.pos mx * 2 ^ s) /\
    e' <= fexp prec emax (Zdigits2 q + e').
Proof.
  intros Hex. unfold SFsqrt_core_binary. cbv zeta.
  destruct (Zdigits2_bounds (Z.pos mx) ltac:(done)) as (Hd & Hlow & Hup).
  rewrite fexp_eq, !Z.div2_div.
  set (d := Zdigits2 (Z.pos mx)) in *.
  remember (Z.min (Z.max ((d + ex + 1) / 2 - 53) (-1074)) (ex / 2)) as e' eqn:He'.
  remember (ex - 2 * e') as s eqn:Hs.
  assert (0 <= s) as Hs0 by (Z.to_euclidean_division_equations; lia).
  assert (-1074 <= e') as Hmin by (Z.to_euclidean_division_equations; lia).
  match goal with |- context [Z.sqrtrem ?m] => assert (m = Z.pos mx * 2 ^ s) as -> end.
  { destruct s; [lia| by rewrite Z.shiftl_mul_pow2 |lia]. }
  set (M := Z.pos mx * 2 ^ s).
  pose proof (pow2_pos s Hs0) as Hpow.
  assert (0 < M) as HM by (unfold M; lia).
  pose proof (Z.sqrtrem_spec M ltac:(lia)) as Hsq.
  destruct (Z.sqrtrem M) as [q r]. destruct Hsq as [HMq Hr].
  assert (0 <= q) as Hq0 by lia.
  exists q, e', (if r =? 0 then loc_Exact else loc_Inexact (if r <=? q then Lt else Gt)), s.
  split; [done|]. split; [done|]. split; [lia|]. split; [done|]. split; [done|].
  split; [lia|]. split.
  { destruct (Z.eqb_spec r 0); [done|]. intros _. lia. }
  rewrite fexp_eq.
  destruct (Z_le_gt_dec e' (-1074)) as [|Hbig]; [lia|].
  assert (53 <= Zdigits2 q); [|lia].
  assert (2 ^ 52 <= q) as Hq52.
  { destruct (Z_le_gt_dec (2 ^ 52) q) as [|Hsmall]; [done|exfalso].
    assert (2 ^ 104 <= 2 ^ ((d - 1) + s)) as Hp
      by (apply Z.pow_le_mono_r; Z.to_euclidean_division_equations; lia).
    rewrite (pow2_split (d - 1) s) in Hp by lia.
    assert (2 ^ (d - 1) * 2 ^ s <= M)
      by (unfold M; apply Z.mul_le_mono_nonneg_r; lia).
    assert ((q + 1) * (q + 1) <= 2 ^ 52 * 2 ^ 52)
      by (apply Z.mul_le_mono_nonneg; lia).
    change (2 ^ 52 * 2 ^ 52) with (2 ^ 104) in *. lia. }
  apply Zdigits2_ge; [lia|]. by change (53 - 1) with 52.
Qed.

(** The square root of a non-negative finite number. *)
Lemma f64_sqrt_finite (x : float64) (lx hx hi : Z) :
  finite_in lx hx x -> has_sign false x ->
  representable hi -> hx * val 1 0 <= hi * hi ->
  finite_in 0 hi (f64_sqrt x).
Proof.
  intros (Hvx & vx & Hmx & Hbx) Hsx Hhi Hle.
  pose proof (representable_pos hi Hhi) as Hhipos.
  assert (0 < val 1 0) as Hone by (by apply val_pos).
  destruct x as [sx|sx| |sx mx ex]; try done; cbn [mag] in Hmx;
    apply (inj Some) in Hmx; subst vx; cbn [has_sign] in Hsx; subst sx.
  { apply finite_in_zero. lia. }
  apply bounded_inv in Hvx as (_ & Hex & _).
  unfold f64_sqrt, SFsqrt.
  destruct (SFsqrt_core_spec mx ex Hex)
    as (q & e' & l & s & -> & Hs & Hes & Hmin & Hq0 & Hfloor & Hl & He).
  set (M := Z.pos mx * 2 ^ s) in *.
  assert (val M (e' + e') = val (Z.pos mx) ex) as HM.
  { unfold M. rewrite val_shift by lia. f_equal. lia. }
  pose proof (val_mul q q e' e' ltac:(lia) ltac:(lia) ltac:(lia)) as Hprod.
  assert (val (Z.pos mx) ex * val 1 0 <= hx * val 1 0) as Hxh
    by (apply Z.mul_le_mono_nonneg_r; lia).
  apply round_finite_in; try done; try lia.
  - apply Z.square_le_simpl_nonneg; [lia|]. rewrite <- Hprod.
    assert (val (q * q) (e' + e') * val 1 0 <= val M (e' + e') * val 1 0)
      by (apply Z.mul_le_mono_nonneg_r; [lia|apply val_mono; lia]).
    rewrite HM in *. lia.
  - intros Hne%Hl.
    apply Z.square_lt_simpl_nonneg; [lia|]. rewrite <- Hprod.
    assert (val (q * q) (e' + e') * val 1 0 < val M (e' + e') * val 1 0)
      by (apply Z.mul_lt_mono_pos_r; [lia|apply val_strict_mono; lia]).
    rewrite HM in *. lia.
Qed.

(** ** [temporalWindowContrast] computes the contrast formula *)

Lemma fold_left_bind {A B C} (g : A -> C -> A) (f : B -> list C) (l : list B) (a : A) :
  fold_left g (l ≫= f) a = fold_left (fun a b => fold_left g (f b) a) l a.
Proof.
  revert a. induction l as [|b l IH]; intros a; [done|].
  rewrite bind_cons, fold_left_app. simpl. apply IH.
Qed.

Lemma fold_left_ext_in {A B} (f g : A -> B -> A) (l : list B) (a : A) :
  (forall a b, b ∈ l -> f a b = g a b) -> fold_left f l a = fold_left g l a.
Proof.
  revert a. induction l as [|b l IH]; intros a Hfg; simpl; [done|].
  rewrite Hfg by constructor. apply IH.
  intros a' b' Hb. apply Hfg. by constructor.
Qed.

Lemma squares_sign (m : float64) (v : list float64) :
  Forall (has_sign false) ((fun vi => let d := f64_sub vi m in f64_mul d d) <$> v).
Proof.
  apply Forall_fmap, Forall_forall. intros vi _. apply f64_mul_self_sign.
Qed.

Lemma pixelContrast_sign (v : list float64) :
  is_int (len v - 1) -> has_sign false (Formula.pixelContrast v).
Proof.
  intros Hlen. unfold Formula.pixelContrast.
  destruct (f64_ltb f64_zero (Formula.mean v)) eqn:Hmean; [|done].
  destruct (f64_positive_inv _ Hmean) as (Hsign & _ & _).
  apply (f64_div_sign false false); [|done].
  apply f64_sqrt_sign. unfold Formula.sampleVariance.
  apply (f64_div_sign false false).
  - apply sum_from_sign; [done|apply squares_sign].
  - apply float64_of_int_sign.
    destruct v as [|v0 v]; [by vm_compute in Hmean|].
    unfold len. simpl. lia.
Qed.

Lemma accumulatePixel_formula (sumVar : float64) (v : list float64) :
  is_int (len v - 1) ->
  has_sign false sumVar ->
  accumulatePixel sumVar v = f64_add sumVar (Formula.pixelContrast v).
Proof.
  intros Hlen Hs. unfold accumulatePixel, Formula.pixelContrast.
  rewrite int_sub_id by done.
  change (f64_div (fold_left f64_add v f64_zero) (float64_of_int (len v)))
    with (Formula.mean v).
  destruct (f64_ltb f64_zero (Formula.mean v)); [|by rewrite f64_add_zero_r].
  unfold Formula.stdDev, Formula.sampleVariance, Formula.sum.
  by rewrite fold_left_fmap.
Qed.

Lemma accumulate_pixels (images : list Gray) (pixels : list (Z * Z)) (sumVar : float64) :
  is_int (len images - 1) ->
  has_sign false sumVar ->
  fold_left (fun sumVar p => accumulatePixel sumVar (Formula.series images p.1 p.2))
            pixels sumVar
  = fold_left f64_add
      ((fun p => Formula.pixelContrast (Formula.series images p.1 p.2)) <$> pixels)
      sumVar.
Proof.
  intros Hlen. revert sumVar.
  assert (forall p, is_int (len (Formula.series images p.1 p.2) - 1)) as Hl.
  { intros p. unfold Formula.series, len. by rewrite length_fmap. }
  induction pixels as [|p pixels IH]; intros sumVar Hs; simpl; [done|].
  rewrite accumulatePixel_formula by done.
  apply IH. apply f64_add_sign; [done|]. by apply pixelContrast_sign.
Qed.

Lemma temporalWindowContrast_wf (r : Runner) (images : list Gray) (x y : Z) :
  let ws := WindowSize (algorithm r) in
  Forall (fun g => wf_Gray g = true) images ->
  is_int (len images - 1) ->
  is_int (ws * ws) ->
  is_int x -> is_int (x + ws) -> is_int y -> is_int (y + ws) ->
  temporalWindowContrast r images x y = Ok (Formula.windowContrast images ws x y).
Proof.
  intros ws Hwf Hlen Hws Hx Hxs Hy Hys.
  unfold temporalWindowContrast. fold ws.
  rewrite int_mul_id by done.
  erewrite (foldM_pure _
    (fun sumVar dy =>
       fold_left (fun sumVar dx =>
                    accumulatePixel sumVar (Formula.series images (x + dx) (y + dy)))
                 (seqZ 0 ws) sumVar)).
  2:{ intros a dy Hdy%elem_of_seqZ.
      apply foldM_pure. intros a' dx Hdx%elem_of_seqZ.
      rewrite (int_add_id x) by (apply (is_int_between x _ (x + ws)); [done|done|lia]).
      rewrite (int_add_id y) by (apply (is_int_between y _ (y + ws)); [done|done|lia]).
      by rewrite timeSeries_wf. }
  simpl_result. unfold Formula.windowContrast, Formula.sum, Formula.windowPixels.
  do 2 f_equal.
  rewrite <- accumulate_pixels by done.
  rewrite fold_left_bind. apply fold_left_ext_in. intros a dy _.
  rewrite fold_left_bind. apply fold_left_ext_in. intros a' dx _.
  done.
Qed.

(** ** Rows stored one after the other fill the buffer *)

Lemma wrap_is_int (z : Z) : is_int (wrap z).
Proof.
  unfold is_int, wrap, int_min, int_max.
  pose proof (Z.mod_pos_bound (z + 2 ^ 63) (2 ^ 64)). lia.
Qed.

Lemma slice_set_Ok {A} (s : list A) (i : nat) (a : A) :
  (i < length s)%nat -> slice_set s (Z.of_nat i) a = Ok (<[i := a]> s).
Proof.
  intros Hi. unfold slice_set, len.
  rewrite (proj2 (Z.leb_le 0 _)) by lia.
  rewrite (proj2 (Z.ltb_lt _ _)) by lia.
  simpl. by rewrite Nat2Z.id.
Qed.

Section Rows.
Context {A : Type}.
Variable computeRow : Z -> result A.

Lemma store_rows (n a : nat) (buffer : list A) :
  (a + n <= length buffer)%nat ->
  foldM (storeRow computeRow) buffer (seqZ (Z.of_nat a) (Z.of_nat n))
  = rows ← appendM computeRow (seqZ (Z.of_nat a) (Z.of_nat n));
    Ok (take a buffer ++ rows ++ drop (a + n) buffer).
Proof.
  revert a buffer. induction n as [|n IH]; intros a buffer Hlen.
  - rewrite seqZ_nil by lia. simpl. simpl_result.
    by rewrite Nat.add_0_r, take_drop.
  - rewrite seqZ_cons by lia. cbn [foldM appendM].
    change (storeRow computeRow buffer (Z.of_nat a))
      with (row ← computeRow (Z.of_nat a); slice_set buffer (Z.of_nat a) row).
    simpl_result.
    destruct (computeRow (Z.of_nat a)) as [row|p]; simpl_result; [|done].
    rewrite slice_set_Ok by lia. simpl_result.
    replace (Z.succ (Z.of_nat a)) with (Z.of_nat (S a)) by lia.
    replace (Z.pred (Z.of_nat (S n))) with (Z.of_nat n) by lia.
    rewrite IH by (rewrite length_insert; lia). simpl_result.
    destruct (appendM computeRow _) as [rows|p]; simpl_result; [|done].
    f_equal.
    rewrite (take_S_r _ _ row) by (apply list_lookup_insert_eq; lia).
    rewrite take_insert_ge by lia.
    rewrite drop_insert_lt by lia.
    rewrite <- app_assoc. simpl.
    by replace (a + S n)%nat with (S (a + n)) by lia.
Qed.

(** Bands that tile [a, b) store exactly the rows [a .. b - 1]. *)
Lemma store_bands (ranges : list (Z * Z)) (a b : Z) (buffer : list A) :
  tiles a ranges b -> 0 <= a -> b <= len buffer ->
  foldM (fun buffer rows =>
           let '(startY, endY) := rows in
           foldM (storeRow computeRow) buffer (seqZ startY (endY - startY)))
        buffer ranges
  = rows ← appendM computeRow (seqZ a (b - a));
    Ok (take (Z.to_nat a) buffer ++ rows ++ drop (Z.to_nat b) buffer).
Proof.
  revert a buffer. induction ranges as [|[s e] ranges IH]; intros a buffer Ht Ha Hb.
  - simpl in Ht. subst b. rewrite Z.sub_diag. simpl. simpl_result.
    by rewrite take_drop.
  - destruct Ht as (-> & Hae & Ht). unfold len in Hb.
    assert (e <= b) as Heb.
    { clear -Ht. revert e Ht. induction ranges as [|[s' e'] ranges IH']; intros e Ht.
      - simpl in Ht. lia.
      - destruct Ht as (-> & ? & Ht). apply IH' in Ht. lia. }
    simpl. simpl_result.
    replace (seqZ a (b - a)) with (seqZ a (e - a) ++ seqZ e (b - e)).
    2:{ replace (b - a) with ((e - a) + (b - e)) by lia.
        rewrite seqZ_app by lia. do 2 f_equal. lia. }
    rewrite appendM_app. simpl_result.
    pose proof (store_rows (Z.to_nat (e - a)) (Z.to_nat a) buffer) as Hrows.
    rewrite !Z2Nat.id in Hrows by lia. rewrite Hrows by lia. clear Hrows.
    simpl_result.
    destruct (appendM computeRow (seqZ a (e - a))) as [rows1|p] eqn:Hrows1;
      simpl_result; [|done].
    assert (length rows1 = Z.to_nat (e - a)) as Hlen1.
    { apply appendM_Ok_inv, Forall2_length in Hrows1.
      rewrite length_seqZ in Hrows1. lia. }
    rewrite (IH e);
      [|done|lia|unfold len; rewrite !length_app, length_take, length_drop; lia].
    simpl_result.
    destruct (appendM computeRow (seqZ e (b - e))) as [rows2|p]; simpl_result; [|done].
    f_equal.
    assert (length (take (Z.to_nat a) buffer ++ rows1) = Z.to_nat e) as Hlen2.
    { rewrite length_app, length_take. lia. }
    rewrite (app_assoc _ rows1).
    rewrite take_app_length' by done.
    rewrite drop_app_ge by lia.
    rewrite Hlen2, drop_drop, <- !app_assoc.
    by replace (Z.to_nat a + Z.to_nat (e - a) + (Z.to_nat b - Z.to_nat e))%nat
      with (Z.to_nat b) by lia.
Qed.

End Rows.

(** ** The worker pool computes what the sequential loop computes *)

Lemma calculateContrastMap_sequential (K : Z) (u : float64 -> Z)
    (r : Runner) (grayImages : list Gray) :
  1 <= K <= int_max ->
  calculateContrastMap K u r grayImages = sequentialContrastMap u r grayImages.
Proof.
  intros HK. unfold calculateContrastMap, sequentialContrastMap, prepare.
  destruct (slice_get grayImages 0) as [img0|p]; simpl_result; [|done].
  set (widthNew := int_add (int_sub (Dx (Bounds img0)) _) 1).
  set (heightNew := int_add (int_sub (Dy (Bounds img0)) _) 1).
  destruct (Z.ltb_spec heightNew 0) as [Hneg|Hpos]; [done|].
  assert (0 <= heightNew <= int_max) as HH.
  { split; [done|]. apply wrap_is_int. }
  rewrite rows_per_worker by done. simpl_result.
  destruct (Z.ltb_spec K 0) as [?|_]; [lia|]. simpl_result.
  unfold worker.
  rewrite (store_bands (contrastRow r grayImages widthNew) _ 0 heightNew).
  - rewrite Z.sub_0_r. simpl_result.
    destruct (appendM _ _) as [rows|p]; simpl_result; [|done].
    rewrite drop_ge by (rewrite length_replicate; lia).
    change (take (Z.to_nat 0) ?l) with (@nil (list float64)).
    by rewrite app_nil_l, app_nil_r.
  - by apply workerRanges_tiles.
  - done.
  - unfold len. rewrite length_replicate. lia.
Qed.

(** ** Assembling the image *)

Section Assemble.
Variable u : float64 -> Z.
Variables w h : nat.
Hypothesis Hsize : Z.of_nat w * Z.of_nat h <= int_max.
Hypothesis Hw : Z.of_nat w <= int_max.
Hypothesis Hh : Z.of_nat h <= int_max.
Variable listContrast : list (list float64).
Hypothesis Hrows : length listContrast = h.
Hypothesis Hcols : Forall (fun row => length row = w) listContrast.

Let R : Rectangle :=
  {| Min := {| X := 0; Y := 0 |};
     Max := {| X := Z.of_nat w; Y := Z.of_nat h |} |}.

Lemma small_is_int (z : Z) : 0 <= z <= int_max -> is_int z.
Proof. unfold is_int, int_min. lia. Qed.

Lemma SetGray_inside (P : list Z) (x y : nat) (v : Z) :
  length P = (w * h)%nat -> (x < w)%nat -> (y < h)%nat ->
  SetGray {| Pix := P; Stride := Z.of_nat w; Rect := R |} (Z.of_nat x) (Z.of_nat y) v
  = Ok {| Pix := <[(y * w + x)%nat := v]> P; Stride := Z.of_nat w; Rect := R |}.
Proof.
  intros HP Hx Hy. unfold SetGray.
  rewrite (proj2 (Point_In_spec _ _ _)) by (simpl; lia).
  cbn [negb Pix Stride Rect]. unfold PixOffset. cbn [Pix Stride Rect R Min Max X Y].
  rewrite !int_sub_id by (apply small_is_int; lia).
  rewrite !Z.sub_0_r.
  rewrite !int_mul_id by (apply small_is_int; nia).
  rewrite int_add_id by (apply small_is_int; nia).
  replace (Z.of_nat y * Z.of_nat w + Z.of_nat x * 1) with (Z.of_nat (y * w + x)) by lia.
  rewrite slice_set_Ok by nia. by simpl_result.
Qed.

Lemma assemble_cells (y : nat) (row : list float64) (n x0 : nat) (P : list Z) :
  (y < h)%nat -> length row = w ->
  (x0 + n = w)%nat -> length P = (w * h)%nat ->
  foldM (fun changeMap x =>
           c ← slice_get row x;
           SetGray changeMap x (Z.of_nat y) (scaleIntensity u c))
        {| Pix := P; Stride := Z.of_nat w; Rect := R |}
        (seqZ (Z.of_nat x0) (Z.of_nat n))
  = Ok {| Pix := take (y * w + x0) P
                 ++ (scaleIntensity u <$> drop x0 row)
                 ++ drop (y * w + w) P;
          Stride := Z.of_nat w; Rect := R |}.
Proof.
  intros Hy Hlen.
  revert x0 P. induction n as [|n IH]; intros x0 P Hx HP.
  - rewrite seqZ_nil by lia. simpl. do 2 f_equal.
    rewrite drop_ge by lia. simpl.
    replace x0 with w by lia. by rewrite take_drop.
  - rewrite seqZ_cons by lia. cbn [foldM].
    destruct (lookup_lt_is_Some_2 row x0) as [c Hc]; [lia|].
    rewrite (slice_get_lookup _ _ c) by (rewrite ?Nat2Z.id; (lia || done)).
    simpl_result.
    rewrite SetGray_inside by (done || lia). simpl_result.
    replace (Z.succ (Z.of_nat x0)) with (Z.of_nat (S x0)) by lia.
    replace (Z.pred (Z.of_nat (S n))) with (Z.of_nat n) by lia.
    rewrite IH by (rewrite ?length_insert; lia).
    do 2 f_equal.
    replace (y * w + S x0)%nat with (S (y * w + x0)) by lia.
    rewrite (take_S_r _ _ (scaleIntensity u c))
      by (apply list_lookup_insert_eq; nia).
    rewrite take_insert_ge by lia.
    rewrite drop_insert_lt by lia.
    rewrite (drop_S row c x0) by done.
    rewrite fmap_cons, <- app_assoc. done.
Qed.

Lemma assemble_row (y : nat) (row : list float64) (P : list Z) :
  listContrast !! y = Some row ->
  length P = (w * h)%nat ->
  foldM (fun changeMap x =>
           row ← slice_get listContrast (Z.of_nat y);
           c ← slice_get row x;
           SetGray changeMap x (Z.of_nat y) (scaleIntensity u c))
        {| Pix := P; Stride := Z.of_nat w; Rect := R |}
        (seqZ 0 (Z.of_nat w))
  = Ok {| Pix := take (y * w) P ++ (scaleIntensity u <$> row) ++ drop (y * w + w) P;
          Stride := Z.of_nat w; Rect := R |}.
Proof.
  intros Hrow HP. assert (y < h)%nat as Hy.
  { apply lookup_lt_Some in Hrow. lia. }
  assert (length row = w) as Hlen.
  { rewrite Forall_forall in Hcols. apply Hcols. by eapply list_elem_of_lookup_2. }
  erewrite foldM_ext.
  2:{ intros cm x _.
      rewrite (slice_get_lookup _ _ row) by (rewrite ?Nat2Z.id; (lia || done)).
      simpl_result. reflexivity. }
  pose proof (assemble_cells y row w 0 P Hy Hlen) as Hc.
  change (Z.of_nat 0) with 0 in Hc.
  rewrite Hc by (done || lia).
  by rewrite Nat.add_0_r, drop_0.
Qed.

Lemma assemble_rows (n y0 : nat) (P : list Z) :
  (y0 + n = h)%nat -> length P = (w * h)%nat ->
  foldM (fun changeMap y =>
           foldM (fun changeMap x =>
                    row ← slice_get listContrast y;
                    c ← slice_get row x;
                    SetGray changeMap x y (scaleIntensity u c))
                 changeMap (seqZ 0 (Z.of_nat w)))
        {| Pix := P; Stride := Z.of_nat w; Rect := R |}
        (seqZ (Z.of_nat y0) (Z.of_nat n))
  = Ok {| Pix := take (y0 * w) P
                 ++ concat ((fun row : list float64 => scaleIntensity u <$> row)
                           <$> drop y0 listContrast);
          Stride := Z.of_nat w; Rect := R |}.
Proof.
  revert y0 P. induction n as [|n IH]; intros y0 P Hy HP.
  - rewrite (seqZ_nil (Z.of_nat y0)) by lia. simpl. do 2 f_equal.
    rewrite drop_ge by lia. simpl.
    rewrite take_ge by nia. by rewrite app_nil_r.
  - rewrite (seqZ_cons (Z.of_nat y0)) by lia. cbn [foldM].
    destruct (lookup_lt_is_Some_2 listContrast y0) as [row Hrow]; [lia|].
    assert (length row = w) as Hlen.
    { rewrite Forall_forall in Hcols. apply Hcols. by eapply list_elem_of_lookup_2. }
    rewrite (assemble_row y0 row P) by done. simpl_result.
    replace (Z.succ (Z.of_nat y0)) with (Z.of_nat (S y0)) by lia.
    replace (Z.pred (Z.of_nat (S n))) with (Z.of_nat n) by lia.
    rewrite IH.
    2:{ lia. }
    2:{ rewrite !length_app, length_take, length_fmap, length_drop. nia. }
    do 2 f_equal.
    rewrite (drop_S listContrast row y0) by done.
    rewrite fmap_cons. cbn [concat].
    assert (length (take (y0 * w) P) = (y0 * w)%nat) as Ht.
    { rewrite length_take. nia. }
    rewrite (app_assoc (take (y0 * w) P)).
    rewrite take_app_length'.
    2:{ rewrite length_app, Ht, length_fmap. lia. }
    by rewrite <- app_assoc.
Qed.

Lemma assemble_closed :
  assemble u (Z.of_nat w) (Z.of_nat h) listContrast
  = Ok (contrastImage u (Z.of_nat w) (Z.of_nat h) listContrast).
Proof.
  unfold assemble, NewGray, image_Rect.
  destruct (Z.ltb_spec (Z.of_nat w) 0) as [?|_]; [lia|].
  destruct (Z.ltb_spec (Z.of_nat h) 0) as [?|_]; [lia|].
  unfold Dx, Dy. cbn [Min Max X Y].
  rewrite !int_sub_id by (apply small_is_int; lia).
  rewrite !Z.sub_0_r. unfold mul3NonNeg1.
  destruct (Z.ltb_spec (Z.of_nat w) 0) as [?|_]; [lia|].
  destruct (Z.ltb_spec (Z.of_nat h) 0) as [?|_]; [lia|]. cbn [orb].
  destruct (Z.ltb_spec int_max (Z.of_nat w * Z.of_nat h)) as [?|_]; [lia|].
  destruct (Z.ltb_spec (Z.of_nat w * Z.of_nat h) 0) as [?|_]; [lia|].
  rewrite int_mul_id by (apply small_is_int; lia). rewrite Z.mul_1_l.
  simpl_result.
  pose proof (assemble_rows h 0 (replicate (Z.to_nat (Z.of_nat w * Z.of_nat h)) 0)) as Hr.
  change (Z.of_nat 0) with 0 in Hr. fold R.
  rewrite Hr; [|lia|rewrite length_replicate; lia].
  unfold contrastImage. fold R. by rewrite drop_0.
Qed.

End Assemble.

(** ** The contrast map of a valid input, in closed form *)

Lemma valid_input_inv (w h : Z) (r : Runner) (images : list Gray) :
  valid_input w h r images = true ->
  let ws := WindowSize (algorithm r) in
  Forall (fun g => wf_Gray g = true) images /\
  8 * len images <= maxAlloc /\
  2 <= len images /\
  Forall (fun g => Rect g = {| Min := {| X := 0; Y := 0 |};
                               Max := {| X := w; Y := h |} |}) images /\
  1 <= ws <= Z.min w h /\
  0 <= w <= int_max /\ 0 <= h <= int_max /\ w * h <= maxAlloc.
Proof.
  unfold valid_input. intros H.
  apply andb_prop in H as [H Hws2]. apply andb_prop in H as [H Hws1].
  apply andb_prop in H as [H Hsz]. apply andb_prop in H as [H Hlen].
  apply wf_frames_inv in H as [Halloc Hwf].
  apply Z.leb_le in Hws2, Hws1, Hlen.
  assert (Forall (fun g => Rect g = {| Min := {| X := 0; Y := 0 |};
                                       Max := {| X := w; Y := h |} |}) images) as Hrect.
  { apply Forall_forall. intros g Hg.
    rewrite forallb_forall in Hsz. specialize (Hsz g).
    assert (In g images) as Hin by (by apply list_elem_of_In).
    specialize (Hsz Hin). unfold has_size in Hsz.
    apply andb_prop in Hsz as [Hsz H4]. apply andb_prop in Hsz as [Hsz H3].
    apply andb_prop in Hsz as [H1 H2].
    apply Z.eqb_eq in H1, H2, H3, H4.
    destruct g as [pix stride [[x0 y0] [x1 y1]]]; simpl in *. by subst. }
  repeat split; try done; try lia.
  all: destruct images as [|g images]; [unfold len in *; simpl in *; lia|].
  all: inversion Hwf as [|? ? Hg _]; inversion Hrect as [|? ? HR _]; subst.
  all: apply wf_Gray_inv in Hg as (_ & [Hw Hh] & _ & HL & HA & _).
  all: rewrite HR in *; simpl in *; lia.
Qed.

Lemma contrastRow_valid (w h : Z) (r : Runner) (images : list Gray) (y : Z) :
  valid_input w h r images = true ->
  let ws := WindowSize (algorithm r) in
  0 <= y <= h - ws ->
  contrastRow r images (w - ws + 1) y
  = Ok ((fun x => Formula.windowContrast images ws x y) <$> seqZ 0 (w - ws + 1)).
Proof.
  intros (Hwf & Halloc & Hlen & Hrect & Hws & Hw & Hh & Hwh)%valid_input_inv ws Hy.
  fold ws in Hws. unfold contrastRow.
  assert (maxAlloc <= int_max) by done.
  destruct (Z.ltb_spec (w - ws + 1) 0) as [?|_]; [lia|].
  apply appendM_pure. intros x Hx%elem_of_seqZ.
  apply temporalWindowContrast_wf; try done; fold ws;
    unfold is_int, int_min in *; nia.
Qed.

Lemma contrastGrid_shape (images : list Gray) (ws widthNew heightNew : Z) :
  length (contrastGrid images ws widthNew heightNew) = Z.to_nat heightNew /\
  Forall (fun row => length row = Z.to_nat widthNew)
         (contrastGrid images ws widthNew heightNew).
Proof.
  unfold contrastGrid. split.
  - by rewrite length_fmap, length_seqZ.
  - apply Forall_fmap, Forall_forall. intros y _. simpl.
    by rewrite length_fmap, length_seqZ.
Qed.

Lemma calculateContrastMap_valid (K : Z) (u : float64 -> Z) (w h : Z)
    (r : Runner) (images : list Gray) :
  1 <= K <= int_max ->
  valid_input w h r images = true ->
  let ws := WindowSize (algorithm r) in
  calculateContrastMap K u r images
  = Ok (contrastImage u (w - ws + 1) (h - ws + 1)
          (contrastGrid images ws (w - ws + 1) (h - ws + 1))).
Proof.
  intros HK Hvalid ws.
  pose proof Hvalid as (Hwf & Halloc & Hlen & Hrect & Hws & Hw & Hh & Hwh)%valid_input_inv.
  fold ws in Hws.
  assert (maxAlloc <= int_max) by done.
  rewrite calculateContrastMap_sequential by done.
  unfold sequentialContrastMap.
  destruct images as [|img0 images]; [unfold len in Hlen; simpl in Hlen; lia|].
  change (slice_get (img0 :: images) 0) with (Ok img0). simpl_result.
  inversion Hwf as [|? ? Hwf0 _]; inversion Hrect as [|? ? HR0 _]; subst.
  unfold Bounds. rewrite Dx_wf, Dy_wf by done. rewrite HR0. cbn [Min Max X Y].
  rewrite !Z.sub_0_r. fold ws.
  rewrite !int_sub_id by (unfold is_int, int_min in *; lia).
  rewrite !int_add_id by (unfold is_int, int_min in *; lia).
  destruct (Z.ltb_spec (h - ws + 1) 0) as [?|_]; [lia|].
  erewrite (appendM_pure _
    (fun y => (fun x => Formula.windowContrast (img0 :: images) ws x y)
                <$> seqZ 0 (w - ws + 1))).
  2:{ intros y Hy%elem_of_seqZ. apply (contrastRow_valid w h); [done|]. fold ws. lia. }
  simpl_result. fold (contrastGrid (img0 :: images) ws (w - ws + 1) (h - ws + 1)).
  destruct (contrastGrid_shape (img0 :: images) ws (w - ws + 1) (h - ws + 1)) as [Hr Hc].
  pose proof (assemble_closed u (Z.to_nat (w - ws + 1)) (Z.to_nat (h - ws + 1))) as Ha.
  rewrite !Z2Nat.id in Ha by lia.
  apply Ha; try done; nia.
Qed.

(** ** Every interleaving of the goroutines fills the same buffer *)

Section Pool.
Variables (r : Runner) (grayImages : list Gray) (widthNew heightNew K : Z).
Hypothesis HH : 0 <= heightNew <= int_max.
Hypothesis HK : 1 <= K <= int_max.

Let ranges := workerRanges heightNew K (heightNew / K).
Let row_of := contrastRow r grayImages widthNew.

(** What holds of every state the pool reaches: each goroutine is
    inside its band and has stored the rows before [next_y]; a crash
    comes from a row that panics. *)
Definition pool_inv (st : pool) : Prop :=
  match st with
  | Crashed p => exists y, 0 <= y < heightNew /\ row_of y = Panic p
  | Running gs listContrast =>
    len listContrast = heightNew /\
    length gs = length ranges /\
    forall i g, gs !! i = Some g ->
      exists s e, ranges !! i = Some (s, e) /\ end_y g = e /\ s <= next_y g /\
        forall y, s <= y < next_y g ->
          y < e /\ exists row, row_of y = Ok row /\
                               listContrast !! Z.to_nat y = Some row
  end.

Lemma workerRanges_bounds (i : nat) (s e : Z) :
  ranges !! i = Some (s, e) -> 0 <= s <= e /\ e <= heightNew.
Proof.
  intros Hl.
  pose proof (rows_per_worker_bounds heightNew K HH HK) as [Hq1 Hq2].
  assert (Z.of_nat i < K) as Hi.
  { apply lookup_lt_Some in Hl.
    pose proof (workerRanges_length heightNew K) as HL.
    unfold len in HL. subst ranges. lia. }
  subst ranges. rewrite <- (Nat2Z.id i) in Hl.
  rewrite workerRanges_lookup in Hl by lia.
  injection Hl as <- <-.
  destruct (Z.eqb_spec (Z.of_nat i) (K - 1)); nia.
Qed.

Lemma pool_inv_initial : pool_inv (initial_pool heightNew K).
Proof.
  unfold initial_pool, pool_inv. rewrite Z.quot_div_nonneg by lia.
  fold ranges. split; [|split].
  - unfold len. rewrite length_replicate. lia.
  - by rewrite length_fmap.
  - intros i g Hg. rewrite list_lookup_fmap in Hg.
    destruct (ranges !! i) as [[s e]|] eqn:Hr; [|done].
    injection Hg as <-. exists s, e. simpl.
    repeat split; try done; lia.
Qed.

Lemma pool_inv_step (st st' : pool) :
  pool_inv st -> pool_step r grayImages widthNew st st' -> pool_inv st'.
Proof.
  intros Hinv Hstep.
  destruct Hstep as [gs lc i g row lc' Hg Hlt Hrow Hset|gs lc i g p Hg Hlt Hpanic];
    destruct Hinv as (Hlen & Hgs & Hinv).
  - destruct (Hinv i g Hg) as (s & e & Hr & He & Hs & Hdone).
    destruct (workerRanges_bounds i s e Hr) as [Hse HeH].
    unfold slice_set in Hset.
    destruct (_ && _) eqn:Hin; [|done]. injection Hset as <-.
    rewrite int_add_id by (unfold is_int, int_min; lia).
    split; [|split].
    + unfold len in *. by rewrite length_insert.
    + by rewrite length_insert.
    + intros j g' Hg'.
      assert (forall y row', 0 <= y -> row_of y = Ok row' ->
                lc !! Z.to_nat y = Some row' ->
                <[Z.to_nat (next_y g) := row]> lc !! Z.to_nat y = Some row') as Hkeep.
      { intros y row' Hy Hrow' Hl.
        destruct (decide (Z.to_nat (next_y g) = Z.to_nat y)) as [Heq|Hne].
        - assert (next_y g = y) as Hyy by lia. subst y.
          fold row_of in Hrow. rewrite Hrow in Hrow'. injection Hrow' as <-.
          apply list_lookup_insert_eq.
          by apply lookup_lt_Some in Hl.
        - by rewrite list_lookup_insert_ne. }
      destruct (decide (i = j)) as [<-|Hij].
      * rewrite list_lookup_insert_eq in Hg' by (by apply lookup_lt_Some in Hg).
        injection Hg' as <-. exists s, e. simpl.
        split; [done|]. split; [done|]. split; [lia|].
        intros y Hy.
        destruct (decide (y = next_y g)) as [->|Hne].
        -- split; [lia|]. exists row. split; [done|].
           apply list_lookup_insert_eq. unfold len in Hlen. lia.
        -- destruct (Hdone y) as (Hye & row' & Hrow' & Hl); [lia|].
           split; [done|].
           exists row'. split; [done|]. apply Hkeep; [lia|done|done].
      * rewrite list_lookup_insert_ne in Hg' by done.
        destruct (Hinv j g' Hg') as (s' & e' & Hr' & He' & Hs' & Hdone').
        destruct (workerRanges_bounds j s' e' Hr') as [Hse' _].
        exists s', e'.
        split; [done|]. split; [done|]. split; [done|].
        intros y Hy.
        destruct (Hdone' y) as (Hye & row' & Hrow' & Hl); [done|].
        split; [done|].
        exists row'. split; [done|]. apply Hkeep; [lia|done|done].
  - destruct (Hinv i g Hg) as (s & e & Hr & He & Hs & Hdone).
    destruct (workerRanges_bounds i s e Hr) as [Hse HeH].
    unfold storeRow in Hpanic. fold row_of in Hpanic.
    destruct (row_of (next_y g)) as [row|p'] eqn:Hrow; simpl_result.
    + unfold slice_set in Hpanic.
      rewrite (proj2 (Z.leb_le 0 _)), (proj2 (Z.ltb_lt _ _)) in Hpanic by lia.
      done.
    + injection Hpanic as ->. exists (next_y g). split; [lia|done].
Qed.

Lemma pool_inv_reachable (st : pool) :
  rtc (pool_step r grayImages widthNew) (initial_pool heightNew K) st -> pool_inv st.
Proof.
  revert st. apply rtc_ind_r.
  - apply pool_inv_initial.
  - intros st st' _ Hstep Hinv. by eapply pool_inv_step.
Qed.

Lemma rows_of_lookups (listContrast : list (list float64)) :
  len listContrast = heightNew ->
  (forall y, 0 <= y < heightNew ->
     exists row, row_of y = Ok row /\ listContrast !! Z.to_nat y = Some row) ->
  appendM row_of (seqZ 0 heightNew) = Ok listContrast.
Proof.
  intros Hlen Hrows.
  rewrite (appendM_pure _ (fun y => default [] (listContrast !! Z.to_nat y))).
  - f_equal. apply list_eq. intros i.
    rewrite list_lookup_fmap.
    destruct (decide (Z.of_nat i < heightNew)) as [Hi|Hi].
    + rewrite (proj2 (lookup_seqZ 0 heightNew i (Z.of_nat i))) by lia. simpl.
      destruct (Hrows (Z.of_nat i)) as (row & _ & Hl); [lia|].
      rewrite Nat2Z.id in *. by rewrite Hl.
    + rewrite (lookup_seqZ_ge 0 heightNew i) by lia. simpl.
      symmetry. apply lookup_ge_None. unfold len in Hlen. lia.
  - intros y Hy%elem_of_seqZ.
    destruct (Hrows y) as (row & Hrow & Hl); [lia|]. by rewrite Hl.
Qed.

(** The buffer of a joined pool holds the rows of the sequential loop. *)
Lemma joined_rows (st : pool) (listContrast : list (list float64)) :
  rtc (pool_step r grayImages widthNew) (initial_pool heightNew K) st ->
  joined st listContrast ->
  appendM row_of (seqZ 0 heightNew) = Ok listContrast.
Proof.
  intros Hinv%pool_inv_reachable (gs & -> & Hfin).
  destruct Hinv as (Hlen & Hgs & Hinv).
  apply rows_of_lookups; [done|]. intros y Hy.
  destruct (workerRanges_owner_exists heightNew K HH HK y Hy) as [i (s & e & Hr & Hse)].
  fold ranges in Hr.
  destruct (lookup_lt_is_Some_2 gs i) as [g Hg].
  { rewrite Hgs. by apply lookup_lt_Some in Hr. }
  destruct (Hinv i g Hg) as (s' & e' & Hr' & He & Hs & Hdone).
  rewrite Hr in Hr'. injection Hr' as <- <-.
  rewrite Forall_forall in Hfin.
  assert (finished g) as Hf by (apply Hfin; by eapply list_elem_of_lookup_2).
  unfold finished in Hf.
  destruct (Hdone y) as (_ & row & Hrow & Hl); [lia|]. by exists row.
Qed.

(** The pool crashes only on a row whose computation panics. *)
Lemma crashed_row (p : panic) :
  rtc (pool_step r grayImages widthNew) (initial_pool heightNew K) (Crashed p) ->
  exists y, 0 <= y < heightNew /\ row_of y = Panic p.
Proof. by intros Hinv%pool_inv_reachable. Qed.

End Pool.

(** * The claims *)

(** ** C1: the window contrast is the spatial average of the temporal contrasts *)

(** C1. For a valid frame sequence (at least two well-formed frames of
    identical size [w] by [h], window side [1 <= ws <= min w h]) and a
    window origin that keeps the window inside the frames,
    [temporalWindowContrast] returns [Formula.windowContrast]: the sum over
    the [ws * ws] window pixels of [pixelContrast], divided by [ws * ws],
    where per pixel [mean = sum / N], [sampleVariance] is the sum of the
    squared deviations divided by [N - 1], [stdDev] is its square root and
    [pixelContrast = stdDev / mean] when [mean > 0] and [0] otherwise. *)
Theorem temporalWindowContrast_formula (w h : Z) (r : Runner) (images : list Gray) (x y : Z) :
  valid_input w h r images = true ->
  valid_origin w h (WindowSize (algorithm r)) x y = true ->
  temporalWindowContrast r images x y
  = Ok (Formula.windowContrast images (WindowSize (algorithm r)) x y).
Proof.
  intros (Hwf & Halloc & Hlen & Hrect & Hws & Hw & Hh & Hwh)%valid_input_inv Horigin.
  unfold valid_origin in Horigin.
  apply andb_prop in Horigin as [Horigin Hy2]. apply andb_prop in Horigin as [Horigin Hy1].
  apply andb_prop in Horigin as [Hx1 Hx2].
  apply Z.leb_le in Hx1, Hx2, Hy1, Hy2.
  assert (maxAlloc <= int_max) by done.
  apply temporalWindowContrast_wf; try done; unfold is_int, int_min in *; nia.
Qed.

Lemma temporalWindowContrast_formula_witness :
  let images := [uniformFrame 3 3 50; uniformFrame 3 3 150] in
  valid_input 3 3 (runnerWith 2) images = true /\
  valid_origin 3 3 2 1 1 = true /\
  temporalWindowContrast (runnerWith 2) images 1 1
  = Ok (Formula.windowContrast images 2 1 1).
Proof.
  split; [reflexivity|]. split; [reflexivity|].
  apply (temporalWindowContrast_formula 3 3); reflexivity.
Defined.

(** ** C5: the rows are split into contiguous bands *)

(** C5. For [outH >= 1] rows and [K >= 1] workers, the loop of
    [calculateContrastMap] gives the workers [K] bands that follow one
    another from row 0 to row [outH] without gap or overlap; every band
    but the last has [outH / K] rows (the floor), the last one runs to
    [outH] and so absorbs the remainder, and every row index in
    [0 .. outH - 1] lies in the band of exactly one worker. *)
Theorem row_partition (outH K : Z) :
  1 <= outH <= int_max -> 1 <= K <= int_max ->
  let q := outH / K in
  let ranges := workerRanges outH K q in
  int_div outH K = Ok q /\
  len ranges = K /\
  tiles 0 ranges outH /\
  (forall i, 0 <= i < K - 1 -> ranges !! Z.to_nat i = Some (i * q, i * q + q)) /\
  ranges !! Z.to_nat (K - 1) = Some ((K - 1) * q, outH) /\
  outH - (K - 1) * q = q + outH mod K /\
  (forall y, 0 <= y < outH ->
     exists i, owns ranges i y /\ forall j, owns ranges j y -> j = i).
Proof.
  intros HoutH HK q ranges.
  assert (0 <= outH <= int_max) as HoutH' by lia.
  split; [by apply rows_per_worker|].
  split; [by apply workerRanges_length|].
  split; [by apply workerRanges_tiles|].
  split.
  { intros i Hi. unfold ranges, q. rewrite workerRanges_lookup by lia.
    destruct (Z.eqb_spec i (K - 1)); [lia|done]. }
  split.
  { unfold ranges, q. rewrite workerRanges_lookup by lia.
    by rewrite Z.eqb_refl. }
  split.
  { unfold q. pose proof (Z.div_mod outH K ltac:(lia)). lia. }
  intros y Hy.
  destruct (workerRanges_owner_exists outH K HoutH' HK y Hy) as [i Hi].
  exists i. split; [done|]. intros j Hj.
  by apply (workerRanges_owner_unique outH K HoutH' HK j i y).
Qed.

Lemma row_partition_witness :
  1 <= 10 <= int_max /\ 1 <= 4 <= int_max /\
  workerRanges 10 4 2 = [(0, 2); (2, 4); (4, 6); (6, 10)] /\
  forall y, 0 <= y < 10 ->
    exists i, owns (workerRanges 10 4 (10 / 4)) i y /\
              forall j, owns (workerRanges 10 4 (10 / 4)) j y -> j = i.
Proof.
  split; [done|]. split; [done|]. split; [reflexivity|].
  apply (row_partition 10 4); done.
Defined.

(** ** C7: the dimensions of the contrast map *)

(** C7. For every valid input with [w] by [h] frames and window side
    [ws], the contrast map returned by [calculateContrastMap] (and [Run])
    is [w - ws + 1] wide and [h - ws + 1] high, with one byte per cell. *)
Theorem output_dimensions (K : Z) (u : float64 -> Z) (w h : Z)
    (r : Runner) (images : list Gray) :
  1 <= K <= int_max ->
  valid_input w h r images = true ->
  let ws := WindowSize (algorithm r) in
  exists out,
    Run K u r images = Ok out /\
    Dx (Bounds out) = w - ws + 1 /\
    Dy (Bounds out) = h - ws + 1 /\
    len (Pix out) = (w - ws + 1) * (h - ws + 1).
Proof.
  intros HK Hvalid ws.
  pose proof Hvalid as (Hwf & Halloc & Hlen & Hrect & Hws & Hw & Hh & Hwh)%valid_input_inv.
  fold ws in Hws.
  eexists. split; [by apply calculateContrastMap_valid|].
  unfold contrastImage, Bounds, Dx, Dy. cbn [Rect Pix Min Max X Y]. fold ws.
  rewrite !int_sub_id by (unfold is_int, int_min; lia).
  split; [lia|]. split; [lia|].
  destruct (contrastGrid_shape images ws (w - ws + 1) (h - ws + 1)) as [Hr Hc].
  unfold len. rewrite length_concat.
  assert (forall (rows : list (list float64)) n,
            Forall (fun row => length row = n) rows ->
            list_sum (map length ((fun row : list float64 => scaleIntensity u <$> row) <$> rows))
            = (length rows * n)%nat) as Hsum.
  { intros rows n Hrows. induction Hrows as [|row rows Hrow _ IH]; [done|].
    rewrite fmap_cons. cbn [list_sum map fold_right length].
    unfold list_sum in IH. rewrite IH, length_fmap. lia. }
  rewrite (Hsum _ _ Hc), Hr. nia.
Qed.

Lemma output_dimensions_witness :
  let images := [uniformFrame 5 4 50; uniformFrame 5 4 150] in
  1 <= 4 <= int_max /\
  valid_input 5 4 (runnerWith 2) images = true /\
  exists out,
    Run 4 (fun _ => 0) (runnerWith 2) images = Ok out /\
    Dx (Bounds out) = 5 - 2 + 1 /\
    Dy (Bounds out) = 4 - 2 + 1 /\
    len (Pix out) = (5 - 2 + 1) * (4 - 2 + 1).
Proof.
  split; [done|]. split; [reflexivity|].
  apply (output_dimensions 4 (fun _ => 0) 5 4 (runnerWith 2)); [done|reflexivity].
Defined.

(** ** C4: the map does not depend on the workers *)

(** C4. For a valid input the contrast map is the same for every worker
    count [K >= 1]: the pool of [K] workers returns exactly what the
    sequential row-by-row loop returns, hence the same map as any other
    worker count [K']; and however the goroutines are interleaved, the
    pool never crashes and a joined pool holds one and the same buffer,
    from which the same map is assembled. *)
Theorem worker_count_invariance (K : Z) (u : float64 -> Z) (w h : Z)
    (r : Runner) (images : list Gray) :
  1 <= K <= int_max ->
  valid_input w h r images = true ->
  let ws := WindowSize (algorithm r) in
  let widthNew := w - ws + 1 in
  let heightNew := h - ws + 1 in
  calculateContrastMap K u r images = sequentialContrastMap u r images /\
  (forall K', 1 <= K' <= int_max ->
     calculateContrastMap K' u r images = calculateContrastMap K u r images) /\
  (forall st,
     rtc (pool_step r images widthNew) (initial_pool heightNew K) st ->
     (forall p, st <> Crashed p) /\
     (forall listContrast,
        joined st listContrast ->
        listContrast = contrastGrid images ws widthNew heightNew /\
        assemble u widthNew heightNew listContrast
        = calculateContrastMap K u r images)).
Proof.
  intros HK Hvalid ws widthNew heightNew.
  pose proof Hvalid as (Hwf & Halloc & Hlen & Hrect & Hws & Hw & Hh & Hwh)%valid_input_inv.
  fold ws in Hws.
  assert (0 <= heightNew <= int_max) as HH by (unfold heightNew; lia).
  assert (appendM (contrastRow r images widthNew) (seqZ 0 heightNew)
          = Ok (contrastGrid images ws widthNew heightNew)) as Hgrid.
  { apply appendM_pure. intros y Hy%elem_of_seqZ.
    apply (contrastRow_valid w h); [done|]. fold ws. unfold heightNew in Hy. lia. }
  split; [by apply calculateContrastMap_sequential|].
  split.
  { intros K' HK'. by rewrite !calculateContrastMap_sequential. }
  intros st Hst. split.
  - intros p ->.
    destruct (crashed_row r images widthNew heightNew K HH HK p Hst) as (y & Hy & Hp).
    unfold widthNew in Hp. rewrite (contrastRow_valid w h) in Hp; [done|done|].
    fold ws. unfold heightNew in Hy. lia.
  - intros listContrast Hjoined.
    pose proof (joined_rows r images widthNew heightNew K HH HK st _ Hst Hjoined) as Hrows.
    rewrite Hgrid in Hrows. injection Hrows as <-.
    split; [done|].
    rewrite (calculateContrastMap_valid K u w h) by done. fold ws widthNew heightNew.
    destruct (contrastGrid_shape images ws widthNew heightNew) as [Hr Hc].
    pose proof (assemble_closed u (Z.to_nat widthNew) (Z.to_nat heightNew)) as Ha.
    unfold widthNew, heightNew in *.
    assert (0 <= w - ws + 1) by lia. assert (0 <= h - ws + 1) by lia.
    assert (maxAlloc <= int_max) by done.
    rewrite !Z2Nat.id in Ha by done.
    apply Ha; try done; nia.
Qed.

Lemma worker_count_invariance_witness :
  let images := [uniformFrame 3 3 50; uniformFrame 3 3 150] in
  1 <= 4 <= int_max /\
  valid_input 3 3 defaultRunner images = true /\
  calculateContrastMap 4 (fun _ => 0) defaultRunner images
  = sequentialContrastMap (fun _ => 0) defaultRunner images /\
  (forall K', 1 <= K' <= int_max ->
     calculateContrastMap K' (fun _ => 0) defaultRunner images
     = calculateContrastMap 4 (fun _ => 0) defaultRunner images).
Proof.
  split; [done|]. split; [reflexivity|].
  pose proof (worker_count_invariance 4 (fun _ => 0) 3 3 defaultRunner
                [uniformFrame 3 3 50; uniformFrame 3 3 150]) as H.
  destruct H as (H1 & H2 & _); [done|reflexivity|]. by split.
Defined.

(** ** C10: the contrast of a window depends on its pixels only *)

Lemma appendM_Forall2 {A B C} (f : B -> result A) (g : C -> result A)
    (l1 : list B) (l2 : list C) :
  Forall2 (fun b c => f b = g c) l1 l2 -> appendM f l1 = appendM g l2.
Proof.
  induction 1 as [|b c l1 l2 Hbc _ IH]; simpl; [done|]. by rewrite Hbc, IH.
Qed.

(** C10. For every window side and window origin (as Go [int]s whose
    window does not leave the [int] range), if two frame sequences of
    equal length agree, frame by frame, on every pixel of the window
    [x .. x + ws - 1] by [y .. y + ws - 1], then [temporalWindowContrast]
    returns the same value on both, whatever the pixels outside the window
    are. *)
Theorem window_locality (r : Runner) (images1 images2 : list Gray) (x y : Z) :
  let ws := WindowSize (algorithm r) in
  is_int x -> is_int y -> is_int (x + ws) -> is_int (y + ws) ->
  Forall2 (fun g1 g2 =>
             forall px py, x <= px < x + ws -> y <= py < y + ws ->
                           GrayAt g1 px py = GrayAt g2 px py)
          images1 images2 ->
  temporalWindowContrast r images1 x y = temporalWindowContrast r images2 x y.
Proof.
  intros ws Hx Hy Hxs Hys Hagree. unfold temporalWindowContrast. fold ws.
  f_equal. apply foldM_ext. intros sumVar dy Hdy%elem_of_seqZ.
  apply foldM_ext. intros sumVar' dx Hdx%elem_of_seqZ.
  rewrite (int_add_id x) by (apply (is_int_between x _ (x + ws)); [done|done|lia]).
  rewrite (int_add_id y) by (apply (is_int_between y _ (y + ws)); [done|done|lia]).
  f_equal. unfold timeSeries. apply appendM_Forall2.
  eapply Forall2_impl; [exact Hagree|].
  intros g1 g2 Hg. simpl. rewrite Hg by lia. done.
Qed.

Lemma window_locality_witness :
  let images1 := [uniformFrame 2 2 50; uniformFrame 2 2 150] in
  let images2 :=
    [ {| Pix := [50; 7; 8; 9]; Stride := 2;
         Rect := {| Min := {| X := 0; Y := 0 |}; Max := {| X := 2; Y := 2 |} |} |};
      {| Pix := [150; 1; 2; 3]; Stride := 2;
         Rect := {| Min := {| X := 0; Y := 0 |}; Max := {| X := 2; Y := 2 |} |} |} ] in
  temporalWindowContrast defaultRunner images1 0 0
  = temporalWindowContrast defaultRunner images2 0 0.
Proof.
  apply window_locality; try done.
  repeat constructor; intros px py Hpx Hpy; simpl in Hpx, Hpy;
    assert (px = 0) as -> by lia; assert (py = 0) as -> by lia; reflexivity.
Defined.

(** ** The cells of the assembled image *)

Lemma lookup_concat_uniform {A} (rows : list (list A)) (n y x : nat) (row : list A) :
  Forall (fun row => length row = n) rows ->
  rows !! y = Some row -> (x < n)%nat ->
  concat rows !! (y * n + x)%nat = row !! x.
Proof.
  intros Hrows. revert y. induction Hrows as [|row0 rows Hlen _ IH]; intros y Hy Hx.
  - done.
  - destruct y as [|y]; simpl in Hy.
    + injection Hy as ->. simpl. by rewrite lookup_app_l by lia.
    + cbn [concat]. rewrite lookup_app_r by lia.
      replace (S y * n + x - length row0)%nat with (y * n + x)%nat by lia.
      by apply IH.
Qed.

Lemma contrastImage_GrayAt (u : float64 -> Z) (w h : nat)
    (rows : list (list float64)) (x y : nat) (row : list float64) (c : float64) :
  Z.of_nat w * Z.of_nat h <= int_max ->
  length rows = h -> Forall (fun row => length row = w) rows ->
  rows !! y = Some row -> row !! x = Some c ->
  GrayAt (contrastImage u (Z.of_nat w) (Z.of_nat h) rows) (Z.of_nat x) (Z.of_nat y)
  = Ok (scaleIntensity u c).
Proof.
  intros Hsize Hrows Hcols Hrow Hc.
  assert (y < h)%nat as Hy by (apply lookup_lt_Some in Hrow; lia).
  assert (length row = w) as Hlen.
  { rewrite Forall_forall in Hcols. apply Hcols. by eapply list_elem_of_lookup_2. }
  assert (x < w)%nat as Hx by (apply lookup_lt_Some in Hc; lia).
  unfold GrayAt, contrastImage. cbn [Rect Pix].
  rewrite (proj2 (Point_In_spec _ _ _)) by (simpl; lia). cbn [negb].
  unfold PixOffset. cbn [Rect Stride Min Max X Y].
  assert (forall z, 0 <= z <= int_max -> is_int z) as Hi.
  { unfold is_int, int_min. lia. }
  rewrite !int_sub_id by (apply Hi; nia). rewrite !Z.sub_0_r.
  rewrite !int_mul_id by (apply Hi; nia).
  rewrite int_add_id by (apply Hi; nia).
  apply slice_get_lookup; [lia|].
  replace (Z.to_nat (Z.of_nat y * Z.of_nat w + Z.of_nat x * 1)) with (y * w + x)%nat by lia.
  rewrite (lookup_concat_uniform _ w y x (scaleIntensity u <$> row)).
  - by rewrite list_lookup_fmap, Hc.
  - apply Forall_fmap. eapply Forall_impl; [exact Hcols|].
    intros row' Hrow'. simpl. by rewrite length_fmap.
  - by rewrite list_lookup_fmap, Hrow.
  - done.
Qed.

Lemma contrastGrid_lookup (images : list Gray) (ws widthNew heightNew x y : Z) :
  0 <= x < widthNew -> 0 <= y < heightNew ->
  exists row,
    contrastGrid images ws widthNew heightNew !! Z.to_nat y = Some row /\
    row !! Z.to_nat x = Some (Formula.windowContrast images ws x y).
Proof.
  intros Hx Hy. unfold contrastGrid. eexists. split.
  - rewrite list_lookup_fmap.
    by rewrite (proj2 (lookup_seqZ 0 heightNew (Z.to_nat y) y)) by lia.
  - rewrite list_lookup_fmap.
    by rewrite (proj2 (lookup_seqZ 0 widthNew (Z.to_nat x) x)) by lia.
Qed.

(** Every cell of the map of a valid input is the scaled contrast of its
    window. *)
Lemma calculateContrastMap_cell (K : Z) (u : float64 -> Z) (w h : Z)
    (r : Runner) (images : list Gray) (x y : Z) :
  1 <= K <= int_max ->
  valid_input w h r images = true ->
  let ws := WindowSize (algorithm r) in
  0 <= x < w - ws + 1 -> 0 <= y < h - ws + 1 ->
  exists out,
    calculateContrastMap K u r images = Ok out /\
    GrayAt out x y = Ok (scaleIntensity u (Formula.windowContrast images ws x y)).
Proof.
  intros HK Hvalid ws Hx Hy.
  pose proof Hvalid as (Hwf & Halloc & Hlen & Hrect & Hws & Hw & Hh & Hwh)%valid_input_inv.
  fold ws in Hws.
  eexists. split; [by apply calculateContrastMap_valid|]. fold ws.
  destruct (contrastGrid_shape images ws (w - ws + 1) (h - ws + 1)) as [Hr Hc].
  destruct (contrastGrid_lookup images ws (w - ws + 1) (h - ws + 1) x y Hx Hy)
    as (row & Hrow & Hcell).
  assert (maxAlloc <= int_max) by done.
  pose proof (contrastImage_GrayAt u (Z.to_nat (w - ws + 1)) (Z.to_nat (h - ws + 1))
                (contrastGrid images ws (w - ws + 1) (h - ws + 1))
                (Z.to_nat x) (Z.to_nat y) row
                (Formula.windowContrast images ws x y)) as Hg.
  assert (0 <= w - ws + 1) by lia. assert (0 <= h - ws + 1) by lia.
  assert (0 <= x) by lia. assert (0 <= y) by lia.
  rewrite !Z2Nat.id in Hg by done.
  apply Hg; try done. nia.
Qed.

(** ** C9: the scenario of two frames at 50 and 150 *)

(** C9. For two 3 by 3 frames, one with every pixel 50 and the other with
    every pixel 150, and window side 1: every pixel has mean 100 and
    sample variance 5000, its standard deviation is 70.71 and its contrast
    0.7071 (to the digits shown), and the output is the 3 by 3 map whose
    cells are all 180, whatever the number of workers. *)
Theorem scenario_50_150 (K : Z) (u : float64 -> Z) :
  1 <= K <= int_max ->
  let images := [uniformFrame 3 3 50; uniformFrame 3 3 150] in
  (forall px py, 0 <= px < 3 -> 0 <= py < 3 ->
     let v := Formula.series images px py in
     Formula.mean v = float64_of_int 100 /\
     Formula.sampleVariance v = float64_of_int 5000 /\
     f64_trunc (f64_mul (Formula.stdDev v) (float64_of_int 100)) = Some 7071 /\
     f64_trunc (f64_mul (Formula.pixelContrast v) (float64_of_int 10000)) = Some 7071) /\
  Run K u defaultRunner images = Ok (uniformFrame 3 3 180).
Proof.
  intros HK images. split.
  - intros px py Hpx Hpy.
    assert (px = 0 \/ px = 1 \/ px = 2) as [->|[->| ->]] by lia;
      assert (py = 0 \/ py = 1 \/ py = 2) as [->|[->| ->]] by lia;
      vm_compute; done.
  - unfold Run. rewrite (calculateContrastMap_valid K u 3 3) by (done || reflexivity).
    vm_compute. done.
Qed.

Lemma scenario_50_150_witness :
  1 <= 4 <= int_max /\
  Run 4 (fun _ => 0) defaultRunner [uniformFrame 3 3 50; uniformFrame 3 3 150]
  = Ok (uniformFrame 3 3 180).
Proof.
  split; [done|]. apply (scenario_50_150 4 (fun _ => 0)). done.
Defined.

(** ** C3: scaling a contrast value to a byte *)

(** The claim fails where the scaled contrast has a fractional part of a
    half or more: frames at 3 and 4 give the contrast 0.2020..., scaled
    51.5...; the cell holds 51, the rounded value is 52. *)
Lemma rounding_counterexample :
  let images := [uniformFrame 1 1 3; uniformFrame 1 1 4] in
  valid_input 1 1 defaultRunner images = true /\
  exists c out,
    temporalWindowContrast defaultRunner images 0 0 = Ok c /\
    calculateContrastMap 4 (fun _ => 0) defaultRunner images = Ok out /\
    GrayAt out 0 0 = Ok 51 /\
    Formula.roundedIntensity c = Some 52.
Proof.
  split; [reflexivity|].
  eexists _, _. split; [vm_compute; reflexivity|].
  split; [vm_compute; reflexivity|]. split; reflexivity.
Qed.

(** ** C2: inputs that violate the preconditions *)

(** Nothing is validated: a sequence of frames of different sizes, a
    single frame and a window side of 0 all yield a map. *)
Lemma validation_counterexample :
  let mismatched := [uniformFrame 3 3 50; uniformFrame 2 2 150] in
  let single := [uniformFrame 3 3 50] in
  let pair := [uniformFrame 3 3 50; uniformFrame 3 3 150] in
  (forall w h, valid_input w h defaultRunner mismatched = false) /\
  (forall w h, valid_input w h defaultRunner single = false) /\
  (forall w h, valid_input w h (runnerWith 0) pair = false) /\
  (exists out, Run 4 (fun _ => 0) defaultRunner mismatched = Ok out) /\
  (exists out, Run 4 (fun _ => 0) defaultRunner single = Ok out) /\
  (exists out, Run 4 (fun _ => 0) (runnerWith 0) pair = Ok out).
Proof.
  intros mismatched single pair.
  assert (forall w h, valid_input w h defaultRunner mismatched = false) as H1.
  { intros w h. unfold valid_input.
    destruct (forallb (has_size w h) _) eqn:Hsz; [|by rewrite !andb_false_r].
    exfalso. unfold mismatched in Hsz. cbn [forallb] in Hsz.
    apply andb_prop in Hsz as [H1 H2]. apply andb_prop in H2 as [H2 _].
    unfold has_size, uniformFrame in H1, H2. cbn [Rect Max Min X Y] in H1, H2.
    apply andb_prop in H1 as [H1 _]. apply andb_prop in H1 as [_ H1].
    apply andb_prop in H2 as [H2 _]. apply andb_prop in H2 as [_ H2].
    apply Z.eqb_eq in H1, H2. lia. }
  assert (forall w h, valid_input w h defaultRunner single = false) as H2.
  { intros w h. unfold valid_input.
    change (2 <=? len single) with false. by rewrite !andb_false_r. }
  assert (forall w h, valid_input w h (runnerWith 0) pair = false) as H3.
  { intros w h. unfold valid_input.
    change (1 <=? WindowSize (algorithm (runnerWith 0))) with false.
    by rewrite !andb_false_r. }
  split; [exact H1|]. split; [exact H2|]. split; [exact H3|].
  split; [|split]; eexists; vm_compute; reflexivity.
Qed.

(** * Further properties *)

(** ** The contrast of a window is finite and not negative *)

Lemma val_prod (m1 m2 e1 e2 : Z) :
  -2200 <= e1 -> -2200 <= e2 ->
  val m1 e1 * val m2 e2 = m1 * m2 * 2 ^ (e1 + e2 + 4400).
Proof.
  intros H1 H2. unfold val.
  replace (e1 + e2 + 4400) with ((e1 + 2200) + (e2 + 2200)) by lia.
  rewrite (pow2_split (e1 + 2200) (e2 + 2200)) by lia. ring.
Qed.

Lemma val_prod_le (d m1 m2 m3 m4 e1 e2 e3 e4 : Z) :
  -2200 <= e1 -> -2200 <= e2 -> -2200 <= e3 -> -2200 <= e4 ->
  0 <= d -> e1 + e2 + d = e3 + e4 ->
  m1 * m2 <= m3 * m4 * 2 ^ d ->
  val m1 e1 * val m2 e2 <= val m3 e3 * val m4 e4.
Proof.
  intros H1 H2 H3 H4 Hd Hle Hm. rewrite !val_prod by done.
  replace (e3 + e4 + 4400) with (d + (e1 + e2 + 4400)) by lia.
  rewrite (pow2_split d (e1 + e2 + 4400)) by lia.
  rewrite Z.mul_assoc.
  apply Z.mul_le_mono_nonneg_r; [|done].
  apply Z.lt_le_incl, pow2_pos. lia.
Qed.

Lemma finite_nonneg_intro (lo hi : Z) (f : float64) :
  finite_in lo hi f -> has_sign false f -> f64_finite_nonneg f = true.
Proof.
  intros (_ & v & Hv & _) Hs.
  destruct f as [s|s| |s m e]; try done; cbn [has_sign] in Hs; by subst.
Qed.

Lemma float64_of_int_positive (z : Z) :
  0 < z < 2 ^ 53 ->
  exists m e, float64_of_int z = S754_finite false m e.
Proof.
  intros Hz. destruct (float64_of_int_finite z) as [(_ & v & Hv & Hb) Hs]; [lia|].
  pose proof (val_pos z 0 ltac:(lia) ltac:(lia)).
  destruct (float64_of_int z) as [s|s| |s m e]; try done.
  - cbn [mag] in Hv. apply (inj Some) in Hv. lia.
  - cbn [has_sign] in Hs. subst. by eexists _, _.
Qed.

Lemma f64_add_int (a b : Z) :
  0 <= a -> 0 <= b -> a + b < 2 ^ 53 ->
  f64_add (float64_of_int a) (float64_of_int b) = float64_of_int (a + b).
Proof.
  intros Ha Hb Hab.
  destruct (Z.eq_dec (a + b) 0) as [H0|Hne].
  { assert (a = 0) as -> by lia. by assert (b = 0) as -> by lia. }
  destruct (float64_of_int_finite a) as [Hfa Hsa]; [lia|].
  destruct (float64_of_int_finite b) as [Hfb Hsb]; [lia|].
  destruct (float64_of_int_finite (a + b)) as [Hfab Hsab]; [lia|].
  apply (finite_in_unique (val (a + b) 0)); [|done| |done].
  - apply (f64_add_finite _ _ _ _ _ _ _ _ Hfa Hfb Hsa Hsb).
    + right. split; [apply representable_scaled; lia|]. rewrite val_add. lia.
    + apply representable_scaled; lia.
    + rewrite val_add. lia.
  - by apply f64_add_sign.
Qed.

(** The sum of a time series of bytes is exact. *)
Lemma sum_ints (bs : list Z) (a : Z) :
  0 <= a -> Forall (fun b => 0 <= b <= 255) bs -> a + 255 * len bs < 2 ^ 53 ->
  fold_left f64_add (float64_of_int <$> bs) (float64_of_int a)
  = float64_of_int (a + foldr Z.add 0 bs) /\
  0 <= foldr Z.add 0 bs <= 255 * len bs.
Proof.
  revert a. induction bs as [|b bs IH]; intros a Ha Hbs Hlen.
  { simpl. rewrite Z.add_0_r. split; [done|]. unfold len. simpl. lia. }
  inversion Hbs as [|? ? Hb Hbs']; subst.
  assert (len (b :: bs) = 1 + len bs) as Hl by (unfold len; simpl length; lia).
  rewrite Hl in *. assert (0 <= len bs) by (unfold len; lia).
  cbn [fmap list_fmap fold_left foldr].
  rewrite f64_add_int by lia.
  destruct (IH (a + b)) as [-> Hsum]; [lia|done|lia|].
  split; [f_equal; lia|lia].
Qed.

(** A sum of [len l] terms of magnitude at most [2^e]. *)
Lemma sum_bounded (e : Z) (l : list float64) (acc : float64) (k : Z) :
  -1022 <= e <= 971 -> 0 < k -> k + len l < 2 ^ 53 ->
  finite_in 0 (val k e) acc -> has_sign false acc ->
  Forall (fun t => finite_in 0 (val 1 e) t /\ has_sign false t) l ->
  finite_in 0 (val (k + len l) e) (fold_left f64_add l acc) /\
  has_sign false (fold_left f64_add l acc).
Proof.
  intros He. revert acc k. induction l as [|t l IH]; intros acc k Hk Hlen Hacc Hs Hl.
  { simpl. unfold len. simpl. by rewrite Z.add_0_r. }
  inversion Hl as [|? ? [Ht Hst] Hl']; subst.
  assert (len (t :: l) = 1 + len l) as Hlt by (unfold len; simpl length; lia).
  rewrite Hlt in *. assert (0 <= len l) by (unfold len; lia). cbn [fold_left].
  replace (k + (1 + len l)) with ((k + 1) + len l) by lia.
  apply IH; [lia|lia| |by apply f64_add_sign|done].
  apply (f64_add_finite _ _ _ _ _ _ _ _ Hacc Ht Hs Hst).
  - by left.
  - apply representable_scaled; lia.
  - rewrite val_add. lia.
Qed.

Lemma f64_div_zero_l (y : float64) (lo hi : Z) :
  finite_in lo hi y -> 0 < lo -> has_sign false y ->
  f64_div f64_zero y = f64_zero.
Proof.
  intros (_ & v & Hv & Hb) Hlo Hs.
  destruct y as [s|s| |s m e]; try done; cbn [has_sign] in Hs; subst; [|done].
  cbn [mag] in Hv. apply (inj Some) in Hv. lia.
Qed.

(** The mean of a time series of bytes lies between 0 and 255, and is at
    least [2^-45] when it is positive. *)
Lemma mean_finite (bs : list Z) :
  Forall (fun b => 0 <= b <= 255) bs -> 1 <= len bs <= 2 ^ 45 ->
  let v := float64_of_int <$> bs in
  has_sign false (Formula.mean v) /\
  finite_in 0 (val 255 0) (Formula.mean v) /\
  (f64_ltb f64_zero (Formula.mean v) = true ->
   finite_in (val 1 (-45)) (val 255 0) (Formula.mean v)).
Proof.
  intros Hbs Hlen v.
  assert (len v = len bs) as Hlv by (unfold v, len; by rewrite length_fmap).
  unfold Formula.mean, Formula.sum. rewrite Hlv.
  destruct (sum_ints bs 0) as [Hsum HS]; [done|done|lia|].
  change (float64_of_int 0) with f64_zero in Hsum. fold v in Hsum.
  rewrite Hsum, Z.add_0_l.
  set (S := foldr Z.add 0 bs) in *. set (N := len bs) in *.
  destruct (float64_of_int_finite S) as [HfS HsS]; [lia|].
  destruct (float64_of_int_finite N) as [HfN HsN]; [lia|].
  pose proof (val_pos N 0 ltac:(lia) ltac:(lia)) as HNpos.
  assert (representable (val 255 0)) as H255 by (apply representable_scaled; lia).
  split; [by apply (f64_div_sign false false)|].
  split.
  - apply (f64_div_finite _ _ _ _ _ _ _ _ HfS HfN HNpos); [by left|done|].
    apply (val_prod_le 0); lia.
  - intros Hpos.
    destruct (Z.eq_dec S 0) as [HS0|HS0].
    { rewrite HS0 in Hpos. change (float64_of_int 0) with f64_zero in Hpos.
      by rewrite (f64_div_zero_l _ _ _ HfN HNpos HsN) in Hpos. }
    apply (f64_div_finite _ _ _ _ _ _ _ _ HfS HfN HNpos); [|done|].
    + right. split; [apply representable_scaled; lia|].
      apply (val_prod_le 45); lia.
    + apply (val_prod_le 0); lia.
Qed.

Lemma len_fmap {A B} (f : A -> B) (l : list A) : len (f <$> l) = len l.
Proof. unfold len. by rewrite length_fmap. Qed.

(** The contrast of a pixel is at most [2^54]. *)
Lemma pixelContrast_finite (bs : list Z) :
  Forall (fun b => 0 <= b <= 255) bs -> 2 <= len bs <= 2 ^ 45 ->
  finite_in 0 (val 1 54) (Formula.pixelContrast (float64_of_int <$> bs)).
Proof.
  intros Hbs Hlen.
  destruct (mean_finite bs Hbs ltac:(lia)) as (Hsm & Hm & Hmpos).
  set (v := float64_of_int <$> bs) in *.
  assert (len v = len bs) as Hlv by apply len_fmap.
  assert (forall j, 0 < val 1 j \/ j < -2200) as Hunit.
  { intros j. destruct (Z_lt_le_dec j (-2200)); [by right|left]. by apply val_pos. }
  unfold Formula.pixelContrast.
  destruct (f64_ltb f64_zero (Formula.mean v)) eqn:Hlt.
  2:{ apply finite_in_zero. destruct (Hunit 54); lia. }
  specialize (Hmpos eq_refl).
  unfold Formula.stdDev, Formula.sampleVariance, Formula.sum. rewrite Hlv.
  set (m := Formula.mean v) in *.
  assert (Forall (fun t => finite_in 0 (val 1 16) t /\ has_sign false t)
            ((fun vi => let d := f64_sub vi m in f64_mul d d) <$> v)) as Hsq.
  { unfold v. rewrite <- list_fmap_compose. apply Forall_fmap.
    eapply Forall_impl; [exact Hbs|]. intros b Hb.
    cbv beta in Hb. unfold compose. cbv beta zeta.
    split; [|apply f64_mul_self_sign].
    destruct (float64_of_int_finite b) as [Hfb Hsb]; [lia|].
    assert (finite_in 0 (val 255 0) (f64_sub (float64_of_int b) m)) as Hd.
    { apply (f64_sub_finite _ _ _ _ _ _ _ Hfb Hm Hsb Hsm).
      - apply representable_scaled; lia.
      - apply val_mono; lia.
      - lia. }
    apply (f64_mul_finite _ _ _ _ _ _ _ Hd Hd).
    - apply representable_scaled; lia.
    - apply (val_prod_le 16); lia. }
  match type of Hsq with
  | Forall _ ?l => destruct (sum_bounded 16 l f64_zero 1) as [Hsum Hssum]
  end; [lia|lia|rewrite len_fmap; lia| |done|done|].
  { apply finite_in_zero. destruct (Hunit 16); lia. }
  rewrite len_fmap, Hlv in Hsum.
  destruct (float64_of_int_finite (len bs - 1)) as [HfN HsN]; [lia|].
  pose proof (val_pos (len bs - 1) 0 ltac:(lia) ltac:(lia)) as HNpos.
  assert (finite_in 0 (val 1 18)
            (f64_div (fold_left f64_add
                        ((fun vi => let d := f64_sub vi m in f64_mul d d) <$> v)
                        f64_zero)
                     (float64_of_int (len bs - 1)))) as Hvar.
  { apply (f64_div_finite _ _ _ _ _ _ _ _ Hsum HfN HNpos); [by left| |].
    - apply representable_scaled; lia.
    - apply (val_prod_le 2); lia. }
  assert (finite_in 0 (val 1 9)
            (f64_sqrt
               (f64_div (fold_left f64_add
                           ((fun vi => let d := f64_sub vi m in f64_mul d d) <$> v)
                           f64_zero)
                        (float64_of_int (len bs - 1))))) as Hstd.
  { apply (f64_sqrt_finite _ _ _ _ Hvar).
    - apply (f64_div_sign false false); done.
    - apply representable_scaled; lia.
    - apply (val_prod_le 0); lia. }
  apply (f64_div_finite _ _ _ _ _ _ _ _ Hstd Hmpos); [|by left| |].
  - destruct (Hunit (-45)); lia.
  - apply representable_scaled; lia.
  - apply (val_prod_le 0); lia.
Qed.

Lemma series_ints (images : list Gray) (px py : Z) :
  Formula.series images px py
  = float64_of_int <$> ((fun g => Formula.intensity g px py) <$> images).
Proof. unfold Formula.series. by rewrite <- list_fmap_compose. Qed.

Lemma length_bind_const {A B} (f : A -> list B) (l : list A) (n : nat) :
  (forall a, length (f a) = n) -> length (l ≫= f) = (length l * n)%nat.
Proof.
  intros Hf. induction l as [|a l IH]; [done|].
  rewrite bind_cons, length_app, Hf, IH. simpl. lia.
Qed.

Lemma len_windowPixels (s x y : Z) :
  0 <= s -> len (Formula.windowPixels s x y) = s * s.
Proof.
  intros Hs. unfold len, Formula.windowPixels.
  rewrite (length_bind_const _ _ (Z.to_nat s)).
  - rewrite length_seqZ. lia.
  - intros dy. rewrite (length_bind_const _ _ 1%nat); [|done].
    rewrite length_seqZ. lia.
Qed.

(** The contrast of a window of well-formed frames is a finite number that
    is not negative. *)
Lemma windowContrast_finite (images : list Gray) (ws x y : Z) :
  Forall (fun g => wf_Gray g = true) images ->
  2 <= len images <= 2 ^ 45 -> 1 <= ws -> ws * ws <= 2 ^ 48 ->
  finite_in 0 (val 1 55) (Formula.windowContrast images ws x y) /\
  has_sign false (Formula.windowContrast images ws x y).
Proof.
  intros Hwf Hlen Hws Hsq.
  unfold Formula.windowContrast, Formula.sum.
  set (pixels := Formula.windowPixels ws x y).
  assert (len pixels = ws * ws) as Hpix by (apply len_windowPixels; lia).
  assert (Forall (fun t => finite_in 0 (val 1 54) t /\ has_sign false t)
            ((fun p => Formula.pixelContrast (Formula.series images p.1 p.2))
               <$> pixels)) as Hterms.
  { apply Forall_fmap, Forall_forall. intros p _. cbv beta. split.
    - rewrite series_ints. apply pixelContrast_finite; [|by rewrite len_fmap].
      apply Forall_fmap. eapply Forall_impl; [exact Hwf|].
      intros g Hg. by apply intensity_uint8.
    - apply pixelContrast_sign. unfold Formula.series. rewrite len_fmap.
      apply is_int_bounds. lia. }
  match type of Hterms with
  | Forall _ ?l => destruct (sum_bounded 54 l f64_zero 1) as [Hsum Hssum]
  end; [lia|lia|rewrite len_fmap; lia| |done|done|].
  { apply finite_in_zero. pose proof (val_pos 1 54 ltac:(lia) ltac:(lia)). lia. }
  rewrite len_fmap, Hpix in Hsum.
  destruct (float64_of_int_finite (ws * ws)) as [HfN HsN]; [lia|].
  pose proof (val_pos (ws * ws) 0 ltac:(lia) ltac:(lia)) as HNpos.
  split; [|by apply (f64_div_sign false false)].
  apply (f64_div_finite _ _ _ _ _ _ _ _ Hsum HfN HNpos); [by left| |].
  - apply representable_scaled; lia.
  - apply (val_prod_le 1); lia.
Qed.

Lemma zeros_sum (l : list float64) :
  Forall (fun v => v = f64_zero) l -> fold_left f64_add l f64_zero = f64_zero.
Proof.
  induction l as [|v l IH]; intros Hl; [done|].
  inversion Hl; subst. simpl. by apply IH.
Qed.

(** A pixel that is dark in every frame leaves [sumVar] as it is. *)
Lemma accumulatePixel_dark (sumVar : float64) (values : list float64) :
  len values < 2 ^ 53 ->
  Forall (fun v => v = f64_zero) values ->
  accumulatePixel sumVar values = sumVar.
Proof.
  intros Hlen Hz. unfold accumulatePixel. rewrite zeros_sum by done.
  destruct values as [|v values]; [done|].
  assert (0 < len (v :: values)) as Hpos by (unfold len; simpl length; lia).
  destruct (float64_of_int_finite (len (v :: values))) as [Hf Hs]; [lia|].
  rewrite (f64_div_zero_l _ _ _ Hf); [done| |done].
  apply val_pos; lia.
Qed.

(** ** Identical frames *)

Lemma foldr_add_const (bs : list Z) (b : Z) :
  Forall (fun b' => b' = b) bs -> foldr Z.add 0 bs = len bs * b.
Proof.
  induction bs as [|b' bs IH]; intros Hbs; [done|].
  inversion Hbs; subst. simpl. rewrite IH by done.
  unfold len. simpl length. lia.
Qed.

Lemma f64_div_int_exact (n b : Z) :
  0 <= b -> 0 < n -> n * b < 2 ^ 53 -> n < 2 ^ 53 ->
  f64_div (float64_of_int (n * b)) (float64_of_int n) = float64_of_int b.
Proof.
  intros Hb Hn Hnb Hn53.
  destruct (float64_of_int_finite n) as [Hfn Hsn]; [lia|].
  pose proof (val_pos n 0 ltac:(lia) ltac:(lia)) as Hnpos.
  destruct (Z.eq_dec b 0) as [->|Hb0].
  { rewrite Z.mul_0_r. apply (f64_div_zero_l _ _ _ Hfn Hnpos Hsn). }
  assert (b < 2 ^ 53) by nia.
  destruct (float64_of_int_finite b) as [Hfb Hsb]; [lia|].
  destruct (float64_of_int_finite (n * b)) as [Hfnb Hsnb]; [lia|].
  assert (representable (val b 0)) by (apply representable_scaled; lia).
  apply (finite_in_unique (val b 0)); [|done| |done].
  - apply (f64_div_finite _ _ _ _ _ _ _ _ Hfnb Hfn Hnpos); [right; split; [done|]|done|];
      apply (val_prod_le 0); lia.
  - by apply (f64_div_sign false false).
Qed.

(** A pixel with the same byte in every frame: the mean is that byte, the
    variance, the standard deviation and the contrast are zero. *)
Lemma constant_series (bs : list Z) (b : Z) :
  0 <= b <= 255 -> Forall (fun b' => b' = b) bs -> 2 <= len bs <= 2 ^ 45 ->
  let v := float64_of_int <$> bs in
  Formula.mean v = float64_of_int b /\
  Formula.sampleVariance v = f64_zero /\
  Formula.stdDev v = f64_zero /\
  Formula.pixelContrast v = f64_zero.
Proof.
  intros Hb Hbs Hlen v.
  assert (len v = len bs) as Hlv by apply len_fmap.
  assert (Formula.mean v = float64_of_int b) as Hmean.
  { unfold Formula.mean, Formula.sum. rewrite Hlv.
    destruct (sum_ints bs 0) as [Hsum _]; [done| |lia|].
    { eapply Forall_impl; [exact Hbs|]. intros b' ->. done. }
    change (float64_of_int 0) with f64_zero in Hsum. fold v in Hsum.
    rewrite Hsum, Z.add_0_l, (foldr_add_const bs b) by done.
    apply f64_div_int_exact; [lia|lia|nia|lia]. }
  assert (Formula.sampleVariance v = f64_zero) as Hvar.
  { unfold Formula.sampleVariance, Formula.sum. rewrite Hmean, Hlv, zeros_sum.
    - destruct (float64_of_int_finite (len bs - 1)) as [Hf Hs]; [lia|].
      apply (f64_div_zero_l _ _ _ Hf); [|done]. apply val_pos; lia.
    - unfold v. rewrite <- list_fmap_compose. apply Forall_fmap.
      eapply Forall_impl; [exact Hbs|]. intros b' ->. unfold compose. cbv beta zeta.
      destruct (float64_of_int_finite b) as [Hf Hs]; [lia|].
      by rewrite (f64_sub_diag _ _ _ Hf Hs). }
  assert (Formula.stdDev v = f64_zero) as Hstd
    by (unfold Formula.stdDev; by rewrite Hvar).
  split; [done|]. split; [done|]. split; [done|].
  unfold Formula.pixelContrast. rewrite Hstd, Hmean.
  destruct (f64_ltb f64_zero (float64_of_int b)) eqn:Hlt; [|done].
  destruct (Z.eq_dec b 0) as [->|Hb0]; [done|].
  destruct (float64_of_int_finite b) as [Hf Hs]; [lia|].
  apply (f64_div_zero_l _ _ _ Hf); [|done]. apply val_pos; lia.
Qed.

Lemma fmap_const_replicate {A B} (f : A -> B) (c : B) (l : list A) :
  (forall a, a ∈ l -> f a = c) -> f <$> l = replicate (length l) c.
Proof.
  induction l as [|a l IH]; intros Hf; [done|].
  cbn [fmap list_fmap length replicate].
  rewrite Hf by constructor. f_equal. apply IH. intros a' Ha'. apply Hf. by constructor.
Qed.

Lemma concat_replicate {A} (n m : nat) (x : A) :
  concat (replicate n (replicate m x)) = replicate (n * m) x.
Proof.
  induction n as [|n IH]; [done|].
  cbn [replicate concat]. rewrite IH. by rewrite <- replicate_add.
Qed.

Lemma scaleIntensity_zero (u : float64 -> Z) : scaleIntensity u f64_zero = 0.
Proof. reflexivity. Qed.

Lemma identical_series (images : list Gray) (px py : Z) :
  Forall (fun g => wf_Gray g = true) images ->
  2 <= len images <= 2 ^ 45 ->
  (forall img1 img2 x y, img1 ∈ images -> img2 ∈ images ->
     GrayAt img1 x y = GrayAt img2 x y) ->
  let v := Formula.series images px py in
  Formula.stdDev v = f64_zero /\ Formula.pixelContrast v = f64_zero.
Proof.
  intros Hwf Hlen Hsame v. unfold v. rewrite series_ints.
  destruct images as [|g0 images]; [unfold len in Hlen; simpl in Hlen; lia|].
  set (b := Formula.intensity g0 px py).
  rewrite Forall_forall in Hwf.
  destruct (constant_series ((fun g => Formula.intensity g px py) <$> g0 :: images) b)
    as (_ & _ & Hstd & Hpc); [| |by rewrite len_fmap|done].
  - apply intensity_uint8, Hwf. constructor.
  - apply Forall_fmap, Forall_forall. intros g Hg. cbv beta.
    pose proof (Hsame g g0 px py Hg ltac:(constructor)) as Heq.
    rewrite !GrayAt_wf in Heq by (apply Hwf; by (done || constructor)).
    by injection Heq.
Qed.

Lemma identical_windowContrast (images : list Gray) (ws x y : Z) :
  Forall (fun g => wf_Gray g = true) images ->
  2 <= len images <= 2 ^ 45 -> 1 <= ws -> ws * ws <= 2 ^ 48 ->
  (forall img1 img2 x y, img1 ∈ images -> img2 ∈ images ->
     GrayAt img1 x y = GrayAt img2 x y) ->
  Formula.windowContrast images ws x y = f64_zero.
Proof.
  intros Hwf Hlen Hws Hsq Hsame.
  unfold Formula.windowContrast, Formula.sum. rewrite zeros_sum.
  - destruct (float64_of_int_finite (ws * ws)) as [Hf Hs]; [lia|].
    apply (f64_div_zero_l _ _ _ Hf); [|done]. apply val_pos; lia.
  - apply Forall_fmap, Forall_forall. intros p _. cbv beta.
    by apply identical_series.
Qed.

Lemma valid_input_sizes (w h : Z) (r : Runner) (images : list Gray) :
  valid_input w h r images = true ->
  let ws := WindowSize (algorithm r) in
  Forall (fun g => wf_Gray g = true) images /\
  2 <= len images <= 2 ^ 45 /\ 1 <= ws /\ ws * ws <= 2 ^ 48 /\
  ws <= w <= int_max /\ ws <= h <= int_max.
Proof.
  intros (Hwf & Halloc & Hlen & Hrect & Hws & Hw & Hh & Hwh)%valid_input_inv ws.
  fold ws in Hws. change maxAlloc with (2 ^ 48) in *.
  split; [done|]. split; [lia|]. split; [lia|]. split; [|lia].
  transitivity (w * h); [|done]. apply Z.mul_le_mono_nonneg; lia.
Qed.

(** X1. For a valid input (at least two frames of one size, a window side
    between 1 and the smaller frame side) and a window inside the frames,
    [temporalWindowContrast] returns, without a panic, a finite number
    that is not negative: neither NaN nor an infinity nor a negative
    zero.  A pixel that is 0 in every frame leaves the running sum
    [sumVar] as it is: it contributes nothing, the ratio of its standard
    deviation and its mean is not formed. *)
Theorem contrast_finite_nonneg (w h : Z) (r : Runner) (images : list Gray) (x y : Z) :
  valid_input w h r images = true ->
  valid_origin w h (WindowSize (algorithm r)) x y = true ->
  (exists c, temporalWindowContrast r images x y = Ok c /\
             f64_finite_nonneg c = true) /\
  (forall px py sumVar,
     (forall img, img ∈ images -> GrayAt img px py = Ok 0) ->
     exists values, timeSeries images px py = Ok values /\
                    accumulatePixel sumVar values = sumVar).
Proof.
  intros Hvalid Horigin.
  destruct (valid_input_sizes _ _ _ _ Hvalid) as (Hwf & Hlen & Hws & Hsq & Hw & Hh).
  unfold valid_origin in Horigin.
  apply andb_prop in Horigin as [Horigin Hy2%Z.leb_le].
  apply andb_prop in Horigin as [Horigin Hy1%Z.leb_le].
  apply andb_prop in Horigin as [Hx1%Z.leb_le Hx2%Z.leb_le].
  split.
  - eexists. split.
    + assert (int_max = 2 ^ 63 - 1) by done.
      apply temporalWindowContrast_wf; try done; apply is_int_bounds; (lia || nia).
    + destruct (windowContrast_finite images (WindowSize (algorithm r)) x y)
        as [Hfin Hsign]; try done.
      by eapply finite_nonneg_intro.
  - intros px py sumVar Hdark.
    exists ((fun _ => f64_zero) <$> images). split.
    + unfold timeSeries. apply appendM_pure. intros img Himg.
      by rewrite Hdark.
    + apply accumulatePixel_dark; [rewrite len_fmap; lia|].
      apply Forall_fmap, Forall_forall. done.
Qed.

Lemma contrast_finite_nonneg_witness :
  let images := [uniformFrame 3 3 0; uniformFrame 3 3 9] in
  valid_input 3 3 (runnerWith 2) images = true /\
  valid_origin 3 3 2 1 1 = true /\
  exists c, temporalWindowContrast (runnerWith 2) images 1 1 = Ok c /\
            f64_finite_nonneg c = true.
Proof.
  split; [reflexivity|]. split; [reflexivity|].
  exact (proj1 (contrast_finite_nonneg 3 3 (runnerWith 2)
                  [uniformFrame 3 3 0; uniformFrame 3 3 9] 1 1 eq_refl eq_refl)).
Defined.

(** X2. For a valid input whose frames agree at every pixel: the standard
    deviation of every time series is zero, the contrast of every window
    is zero, and the contrast map is the map of the output size whose
    cells are all 0, whatever the number of workers. *)
Theorem constant_sequence (K : Z) (u : float64 -> Z) (w h : Z)
    (r : Runner) (images : list Gray) :
  1 <= K <= int_max ->
  valid_input w h r images = true ->
  (forall img1 img2 px py, img1 ∈ images -> img2 ∈ images ->
     GrayAt img1 px py = GrayAt img2 px py) ->
  let ws := WindowSize (algorithm r) in
  (forall px py, exists values,
     timeSeries images px py = Ok values /\ Formula.stdDev values = f64_zero) /\
  (forall x y, valid_origin w h ws x y = true ->
     temporalWindowContrast r images x y = Ok f64_zero) /\
  Run K u r images = Ok (uniformFrame (w - ws + 1) (h - ws + 1) 0).
Proof.
  intros HK Hvalid Hsame ws.
  destruct (valid_input_sizes _ _ _ _ Hvalid) as (Hwf & Hlen & Hws & Hsq & Hw & Hh).
  fold ws in Hws, Hsq, Hw, Hh.
  split; [|split].
  - intros px py. eexists. split; [by apply timeSeries_wf|].
    by apply identical_series.
  - intros x y Horigin. unfold valid_origin in Horigin.
    apply andb_prop in Horigin as [Horigin Hy2%Z.leb_le].
    apply andb_prop in Horigin as [Horigin Hy1%Z.leb_le].
    apply andb_prop in Horigin as [Hx1%Z.leb_le Hx2%Z.leb_le].
    assert (int_max = 2 ^ 63 - 1) by done.
    rewrite temporalWindowContrast_wf; try done;
      try (apply is_int_bounds; fold ws; (lia || nia)).
    fold ws. by rewrite identical_windowContrast.
  - unfold Run. rewrite (calculateContrastMap_valid K u w h) by done. fold ws.
    unfold contrastImage, uniformFrame, contrastGrid. do 2 f_equal.
    rewrite <- list_fmap_compose.
    rewrite (fmap_const_replicate _ (replicate (Z.to_nat (w - ws + 1)) 0)).
    + rewrite concat_replicate, length_seqZ. f_equal.
      rewrite Z2Nat.inj_mul by lia. lia.
    + intros y _. unfold compose. rewrite <- list_fmap_compose.
      rewrite (fmap_const_replicate _ 0); [by rewrite length_seqZ|].
      intros x _. unfold compose.
      by rewrite identical_windowContrast.
Qed.

Lemma constant_sequence_witness :
  let images := [uniformFrame 3 3 100; uniformFrame 3 3 100] in
  1 <= 4 <= int_max /\
  valid_input 3 3 defaultRunner images = true /\
  Run 4 (fun _ => 0) defaultRunner images = Ok (uniformFrame (3 - 1 + 1) (3 - 1 + 1) 0).
Proof.
  split; [done|]. split; [reflexivity|].
  refine (proj2 (proj2
            (constant_sequence 4 (fun _ => 0) 3 3 defaultRunner
               [uniformFrame 3 3 100; uniformFrame 3 3 100] _ eq_refl _))).
  - done.
  - intros img1 img2 px py H1 H2.
    rewrite !elem_of_cons, elem_of_nil in H1, H2.
    by destruct H1 as [->|[->|[]]], H2 as [->|[->|[]]].
Defined.

(** ** Scaling a finite contrast to a byte *)

Lemma f64_mul_sign (sx sy : bool) (x y : float64) :
  has_sign sx x -> has_sign sy y -> has_sign (xorb sx sy) (f64_mul x y).
Proof.
  destruct x as [sx'|sx'| |sx' mx ex], y as [sy'|sy'| |sy' my ey];
    try done; try (by intros <- <-).
  intros <- <-. apply binary_round_aux_sign.
Qed.

Lemma f64_255_eq : f64_255 = S754_finite false 8972014882652160 (-45).
Proof. vm_compute. reflexivity. Qed.

Lemma math_Min_255 (m : positive) (e : Z) :
  math_Min (S754_finite false m e) f64_255
  = if f64_ltb (S754_finite false m e) f64_255 then S754_finite false m e
    else f64_255.
Proof. rewrite f64_255_eq. reflexivity. Qed.

Lemma f64_ltb_finite (m1 m2 : positive) (e1 e2 : Z) :
  f64_ltb (S754_finite false m1 e1) (S754_finite false m2 e2) = true ->
  e1 < e2 \/ (e1 = e2 /\ Z.pos m1 < Z.pos m2).
Proof.
  unfold f64_ltb, SFltb, SFcompare.
  destruct (Z.compare_spec e1 e2) as [->|Hlow|Hhigh]; [|by left|done].
  change (PosDef.Pos.compare_cont Eq m1 m2) with (Pos.compare m1 m2).
  destruct (Pos.compare_spec m1 m2) as [|Hm|]; try done.
  intros _. right. split; [done|]. lia.
Qed.

(** A finite number below 255 has an integer part below 255. *)
Lemma trunc_below_255 (m : positive) (e : Z) :
  bounded prec emax m e = true ->
  f64_ltb (S754_finite false m e) f64_255 = true ->
  exists t, f64_trunc (S754_finite false m e) = Some t /\ 0 <= t < 255.
Proof.
  intros (_ & He & Hm & _)%bounded_inv Hlt.
  rewrite f64_255_eq in Hlt. apply f64_ltb_finite in Hlt.
  eexists. split; [reflexivity|]. cbn [cond_Zopp].
  destruct (Z.leb_spec 0 e) as [|_]; [lia|].
  pose proof (pow2_pos (- e) ltac:(lia)).
  split; [apply Z.div_pos; lia|]. apply Z.div_lt_upper_bound; [lia|].
  destruct Hlt as [Hlow|[-> Hm']].
  - assert (2 ^ 46 <= 2 ^ (- e)) by (apply Z.pow_le_mono_r; lia). lia.
  - change (2 ^ (- -45)) with (2 ^ 45). lia.
Qed.

(** The byte of a finite contrast that is not negative: the integer part
    of [c * 255], or 255 when [c * 255] is not below 255. *)
Lemma scaleIntensity_trunc (u : float64 -> Z) (c : float64) :
  finite_in 0 (val 1 55) c -> has_sign false c ->
  exists t,
    f64_trunc (math_Min (f64_mul c f64_255) f64_255) = Some t /\
    0 <= t <= 255 /\
    scaleIntensity u c = t /\
    (f64_ltb (f64_mul c f64_255) f64_255 = false -> t = 255).
Proof.
  intros Hc Hs. unfold scaleIntensity.
  destruct (float64_of_int_finite 255) as [H255 Hs255]; [lia|].
  fold f64_255 in H255, Hs255.
  assert (finite_in 0 (val 255 55) (f64_mul c f64_255)) as Hp.
  { apply (f64_mul_finite _ _ _ _ _ _ _ Hc H255).
    - apply representable_scaled; lia.
    - apply (val_prod_le 0); lia. }
  pose proof (f64_mul_sign false false _ _ Hs Hs255) as Hsp.
  destruct (f64_mul c f64_255) as [s|s| |s m e]; destruct Hp as (Hv & v & Hmag & _);
    try done; cbn [has_sign xorb] in Hsp; subst s.
  { exists 0. rewrite f64_255_eq. by repeat split. }
  rewrite math_Min_255.
  destruct (f64_ltb (S754_finite false m e) f64_255) eqn:Hlt.
  - destruct (trunc_below_255 m e Hv Hlt) as (t & Ht & Hrange).
    exists t. split; [done|]. split; [lia|]. split; [|done].
    unfold uint8_of_float64. rewrite Ht.
    destruct (Z.leb_spec 0 t); [|lia]. destruct (Z.leb_spec t 255); [done|lia].
  - exists 255. split; [by rewrite f64_255_eq|]. split; [lia|].
    split; [|done]. unfold uint8_of_float64. by rewrite f64_255_eq.
Qed.

(** X3. For a valid input, every cell of the contrast map holds the
    integer part of [min(c * 255, 255)], where [c] is the contrast that
    [temporalWindowContrast] returns for the window of the cell: the
    fraction is discarded, not rounded; the cell is 255 whenever
    [c * 255] is not below 255; and the conversion to a byte never meets
    a value outside the range of a byte, so the cell does not depend on
    the platform. *)
Theorem intensity_truncated (K : Z) (u : float64 -> Z) (w h : Z)
    (r : Runner) (images : list Gray) (x y : Z) :
  1 <= K <= int_max ->
  valid_input w h r images = true ->
  let ws := WindowSize (algorithm r) in
  0 <= x < w - ws + 1 -> 0 <= y < h - ws + 1 ->
  exists out c t,
    Run K u r images = Ok out /\
    temporalWindowContrast r images x y = Ok c /\
    f64_trunc (math_Min (f64_mul c f64_255) f64_255) = Some t /\
    0 <= t <= 255 /\
    GrayAt out x y = Ok t /\
    (f64_ltb (f64_mul c f64_255) f64_255 = false -> t = 255).
Proof.
  intros HK Hvalid ws Hx Hy.
  destruct (valid_input_sizes _ _ _ _ Hvalid) as (Hwf & Hlen & Hws & Hsq & Hw & Hh).
  fold ws in Hws, Hsq, Hw, Hh.
  destruct (calculateContrastMap_cell K u w h r images x y HK Hvalid Hx Hy)
    as (out & Hout & Hcell).
  fold ws in Hcell.
  destruct (windowContrast_finite images ws x y Hwf Hlen Hws Hsq) as [Hfin Hsign].
  destruct (scaleIntensity_trunc u _ Hfin Hsign) as (t & Ht & Hrange & Hscale & Hclamp).
  exists out, (Formula.windowContrast images ws x y), t.
  split; [done|]. split.
  { assert (int_max = 2 ^ 63 - 1) by done.
    apply temporalWindowContrast_wf; try done; apply is_int_bounds;
      fold ws; (lia || nia). }
  split; [done|]. split; [done|]. split; [by rewrite Hcell, Hscale|done].
Qed.

Lemma intensity_truncated_witness :
  let images := [uniformFrame 2 2 3; uniformFrame 2 2 4] in
  1 <= 2 <= int_max /\
  valid_input 2 2 defaultRunner images = true /\
  exists out c t,
    Run 2 (fun _ => 0) defaultRunner images = Ok out /\
    temporalWindowContrast defaultRunner images 1 1 = Ok c /\
    f64_trunc (math_Min (f64_mul c f64_255) f64_255) = Some t /\
    0 <= t <= 255 /\
    GrayAt out 1 1 = Ok t /\
    (f64_ltb (f64_mul c f64_255) f64_255 = false -> t = 255).
Proof.
  split; [done|]. split; [reflexivity|].
  apply (intensity_truncated 2 (fun _ => 0) 2 2 defaultRunner
           [uniformFrame 2 2 3; uniformFrame 2 2 4] 1 1);
    [done|reflexivity|done|done].
Defined.

(** ** Inputs that are not checked *)

Lemma accepted_input_inv (w h : Z) (r : Runner) (images : list Gray) :
  accepted_input w h r images = true ->
  let ws := WindowSize (algorithm r) in
  Forall (fun g => wf_Gray g = true) images /\
  1 <= len images /\ 8 * len images <= maxAlloc /\
  (exists img0 rest, images = img0 :: rest /\
     Rect img0 = {| Min := {| X := 0; Y := 0 |}; Max := {| X := w; Y := h |} |}) /\
  0 <= ws <= Z.min w h + 1 /\
  0 <= w /\ 0 <= h /\ (w + 1) * (h + 1) <= maxAlloc.
Proof.
  intros H ws. unfold accepted_input, fits_heap in H.
  apply andb_prop in H as [H Hheap]. apply andb_prop in H as [H Hws2].
  apply andb_prop in H as [H Hws1]. apply andb_prop in H as [H Hsz].
  apply wf_frames_inv in H as [Halloc Hwf].
  apply andb_prop in Hheap as [Hheap _]. apply andb_prop in Hheap as [Hheap _].
  apply Z.leb_le in Hws2, Hws1, Hheap. fold ws in Hws1, Hws2.
  destruct images as [|g rest]; [done|].
  unfold has_size in Hsz.
  apply andb_prop in Hsz as [Hsz H4]. apply andb_prop in Hsz as [Hsz H3].
  apply andb_prop in Hsz as [H1 H2].
  apply Z.eqb_eq in H1, H2, H3, H4.
  assert (Rect g = {| Min := {| X := 0; Y := 0 |}; Max := {| X := w; Y := h |} |}) as HR.
  { destruct g as [pix stride [[x0 y0] [x1 y1]]]; simpl in *. by subst. }
  inversion Hwf as [|? ? Hg _]; subst.
  apply wf_Gray_inv in Hg as (_ & [Hw Hh] & _).
  rewrite HR in Hw, Hh. cbn [Min Max X Y] in Hw, Hh.
  split; [done|]. split; [unfold len; simpl length; lia|]. split; [done|].
  split; [by eexists _, _|]. split; [lia|]. split; [lia|]. split; [lia|done].
Qed.

Lemma contrastRow_wf (r : Runner) (images : list Gray) (widthNew y : Z) :
  let ws := WindowSize (algorithm r) in
  Forall (fun g => wf_Gray g = true) images ->
  is_int (len images - 1) -> is_int (ws * ws) ->
  0 <= ws -> 0 <= widthNew -> is_int (widthNew + ws) ->
  is_int y -> is_int (y + ws) ->
  contrastRow r images widthNew y
  = Ok ((fun x => Formula.windowContrast images ws x y) <$> seqZ 0 widthNew).
Proof.
  intros ws Hwf Hlen Hsq Hws Hw Hwi Hy Hys. unfold contrastRow.
  destruct (Z.ltb_spec widthNew 0) as [?|_]; [lia|].
  apply appendM_pure. intros x Hx%elem_of_seqZ.
  apply temporalWindowContrast_wf; try done; fold ws;
    unfold is_int, int_min, int_max in *; lia.
Qed.

(** The contrast map of an accepted input, in closed form. *)
Lemma calculateContrastMap_accepted (K : Z) (u : float64 -> Z) (w h : Z)
    (r : Runner) (images : list Gray) :
  1 <= K <= int_max ->
  accepted_input w h r images = true ->
  let ws := WindowSize (algorithm r) in
  calculateContrastMap K u r images
  = Ok (contrastImage u (w - ws + 1) (h - ws + 1)
          (contrastGrid images ws (w - ws + 1) (h - ws + 1))).
Proof.
  intros HK Hacc ws.
  pose proof Hacc as (Hwf & Hlen & Halloc & (img0 & rest & -> & HR0) & Hws & Hw & Hh & Hwh)
    %accepted_input_inv.
  fold ws in Hws.
  assert (maxAlloc = 2 ^ 48) as Hmax by done.
  assert (int_max = 2 ^ 63 - 1) as Himax by done.
  assert (w + 1 <= 2 ^ 48 /\ h + 1 <= 2 ^ 48) as [Hw48 Hh48] by nia.
  assert (ws * ws <= 2 ^ 48) as Hsq.
  { transitivity ((w + 1) * (h + 1)); [|lia]. apply Z.mul_le_mono_nonneg; lia. }
  rewrite calculateContrastMap_sequential by done.
  unfold sequentialContrastMap.
  change (slice_get (img0 :: rest) 0) with (Ok img0). simpl_result.
  inversion Hwf as [|? ? Hwf0 _]; subst.
  unfold Bounds. rewrite Dx_wf, Dy_wf by done. rewrite HR0. cbn [Min Max X Y].
  rewrite !Z.sub_0_r. fold ws.
  rewrite !int_sub_id by (unfold is_int, int_min; lia).
  rewrite !int_add_id by (unfold is_int, int_min; lia).
  destruct (Z.ltb_spec (h - ws + 1) 0) as [?|_]; [lia|].
  erewrite (appendM_pure _
    (fun y => (fun x => Formula.windowContrast (img0 :: rest) ws x y)
                <$> seqZ 0 (w - ws + 1))).
  2:{ intros y Hy%elem_of_seqZ. apply contrastRow_wf; try done; fold ws;
        unfold is_int, int_min; (lia || nia). }
  simpl_result. fold (contrastGrid (img0 :: rest) ws (w - ws + 1) (h - ws + 1)).
  destruct (contrastGrid_shape (img0 :: rest) ws (w - ws + 1) (h - ws + 1)) as [Hr Hc].
  pose proof (assemble_closed u (Z.to_nat (w - ws + 1)) (Z.to_nat (h - ws + 1))) as Ha.
  rewrite !Z2Nat.id in Ha by lia.
  apply Ha; try done; nia.
Qed.

Lemma contrastImage_length (u : float64 -> Z) (w h : Z) (rows : list (list float64)) :
  0 <= w -> 0 <= h ->
  length rows = Z.to_nat h -> Forall (fun row => length row = Z.to_nat w) rows ->
  len (Pix (contrastImage u w h rows)) = w * h.
Proof.
  intros Hw Hh Hr Hc. unfold contrastImage, len. cbn [Pix].
  assert (length (concat ((fun row : list float64 => scaleIntensity u <$> row) <$> rows))
          = (length rows * Z.to_nat w)%nat) as ->.
  { clear Hr. induction Hc as [|row rows Hrow _ IH]; [done|].
    rewrite fmap_cons. cbn [concat]. rewrite length_app, IH, length_fmap, Hrow.
    simpl. lia. }
  rewrite Hr. nia.
Qed.

Lemma contrastGrid_GrayAt (u : float64 -> Z) (images : list Gray) (ws w h x y : Z) :
  w * h <= int_max -> 0 <= x < w -> 0 <= y < h ->
  GrayAt (contrastImage u w h (contrastGrid images ws w h)) x y
  = Ok (scaleIntensity u (Formula.windowContrast images ws x y)).
Proof.
  intros Hsize Hx Hy.
  destruct (contrastGrid_shape images ws w h) as [Hr Hc].
  destruct (contrastGrid_lookup images ws w h x y Hx Hy) as (row & Hrow & Hcell).
  pose proof (contrastImage_GrayAt u (Z.to_nat w) (Z.to_nat h)
                (contrastGrid images ws w h) (Z.to_nat x) (Z.to_nat y) row
                (Formula.windowContrast images ws x y)) as Hg.
  rewrite !Z2Nat.id in Hg by lia.
  by apply Hg.
Qed.

Lemma accepted_window_wf (w h : Z) (r : Runner) (images : list Gray) (x y : Z) :
  accepted_input w h r images = true ->
  let ws := WindowSize (algorithm r) in
  0 <= x < w - ws + 1 -> 0 <= y < h - ws + 1 ->
  temporalWindowContrast r images x y = Ok (Formula.windowContrast images ws x y).
Proof.
  intros (Hwf & Hlen & Halloc & _ & Hws & Hw & Hh & Hwh)%accepted_input_inv ws Hx Hy.
  fold ws in Hws.
  assert (maxAlloc = 2 ^ 48) as Hmax by done.
  assert (w + 1 <= 2 ^ 48 /\ h + 1 <= 2 ^ 48) as [Hw48 Hh48] by nia.
  assert (0 <= ws * ws <= 2 ^ 48).
  { split; [nia|]. transitivity ((w + 1) * (h + 1)); [|lia].
    apply Z.mul_le_mono_nonneg; lia. }
  apply temporalWindowContrast_wf; try done; fold ws; apply is_int_bounds; lia.
Qed.

(** X4. [Run] checks neither the number of frames, nor that the frames
    have one size, nor the window side: for every non-empty list of
    well-formed frames whose first frame is [w] by [h], and every window
    side from 0 to [min w h + 1], it returns a map of [w - ws + 1] by
    [h - ws + 1] cells, each the scaled result of
    [temporalWindowContrast] for its window. *)
Theorem input_not_validated (K : Z) (u : float64 -> Z) (w h : Z)
    (r : Runner) (images : list Gray) :
  1 <= K <= int_max ->
  accepted_input w h r images = true ->
  let ws := WindowSize (algorithm r) in
  exists out,
    Run K u r images = Ok out /\
    Rect out = {| Min := {| X := 0; Y := 0 |};
                  Max := {| X := w - ws + 1; Y := h - ws + 1 |} |} /\
    len (Pix out) = (w - ws + 1) * (h - ws + 1) /\
    forall x y, 0 <= x < w - ws + 1 -> 0 <= y < h - ws + 1 ->
      exists c, temporalWindowContrast r images x y = Ok c /\
                GrayAt out x y = Ok (scaleIntensity u c).
Proof.
  intros HK Hacc ws.
  pose proof Hacc as (Hwf & Hlen & Halloc & _ & Hws & Hw & Hh & Hwh)%accepted_input_inv.
  fold ws in Hws.
  assert (maxAlloc <= int_max) by done.
  eexists. split; [by apply calculateContrastMap_accepted|]. fold ws.
  split; [done|].
  destruct (contrastGrid_shape images ws (w - ws + 1) (h - ws + 1)) as [Hr Hc].
  split; [apply contrastImage_length; (done || lia)|].
  intros x y Hx Hy. eexists. split; [by apply (accepted_window_wf w h)|]. fold ws.
  apply contrastGrid_GrayAt; [nia|done|done].
Qed.

Lemma input_not_validated_witness :
  let images := [uniformFrame 3 3 50; uniformFrame 2 1 10] in
  1 <= 2 <= int_max /\
  accepted_input 3 3 (runnerWith 2) images = true /\
  valid_input 3 3 (runnerWith 2) images = false /\
  exists out,
    Run 2 (fun _ => 0) (runnerWith 2) images = Ok out /\
    Rect out = {| Min := {| X := 0; Y := 0 |};
                  Max := {| X := 3 - 2 + 1; Y := 3 - 2 + 1 |} |} /\
    len (Pix out) = (3 - 2 + 1) * (3 - 2 + 1) /\
    forall x y, 0 <= x < 3 - 2 + 1 -> 0 <= y < 3 - 2 + 1 ->
      exists c, temporalWindowContrast (runnerWith 2) images x y = Ok c /\
                GrayAt out x y = Ok (scaleIntensity (fun _ => 0) c).
Proof.
  split; [done|]. split; [reflexivity|]. split; [reflexivity|].
  apply (input_not_validated 2 (fun _ => 0) 3 3 (runnerWith 2)
           [uniformFrame 3 3 50; uniformFrame 2 1 10]); [done|reflexivity].
Defined.

(** ** A single frame *)

Lemma single_pixelContrast (b : Z) :
  0 <= b <= 255 ->
  Formula.pixelContrast [float64_of_int b] = if b =? 0 then f64_zero else S754_nan.
Proof.
  intros Hb.
  assert (Formula.mean [float64_of_int b] = float64_of_int b) as Hmean.
  { unfold Formula.mean, Formula.sum. cbn [fold_left].
    change f64_zero with (float64_of_int 0). rewrite f64_add_int by lia.
    change (len [float64_of_int b]) with 1.
    replace (0 + b) with (1 * b) by lia. apply f64_div_int_exact; lia. }
  unfold Formula.pixelContrast. rewrite Hmean.
  destruct (Z.eqb_spec b 0) as [->|Hb0]; [done|].
  destruct (float64_of_int_positive b) as (m & e & Hfb); [lia|].
  unfold Formula.stdDev, Formula.sampleVariance, Formula.sum. rewrite Hmean.
  cbn [fmap list_fmap fold_left].
  destruct (float64_of_int_finite b) as [Hf Hs]; [lia|].
  rewrite (f64_sub_diag _ _ _ Hf Hs).
  change (len [float64_of_int b] - 1) with 0.
  by rewrite Hfb.
Qed.

Lemma nan_sum (l : list float64) (acc : float64) :
  Forall (fun t => t = f64_zero \/ t = S754_nan) l ->
  acc = f64_zero \/ acc = S754_nan ->
  acc = S754_nan \/ S754_nan ∈ l ->
  fold_left f64_add l acc = S754_nan.
Proof.
  revert acc. induction l as [|t l IH]; intros acc Hl Hacc Hnan.
  { destruct Hnan as [->|Hin]; [done|]. by apply elem_of_nil in Hin. }
  inversion Hl as [|? ? Ht Hl']; subst. cbn [fold_left].
  apply IH; [done| |].
  - destruct Hacc as [->| ->], Ht as [->| ->]; by (left + right).
  - destruct Hnan as [->|Hin].
    + left. by destruct Ht as [->| ->].
    + apply elem_of_cons in Hin as [<-|Hin]; [|by right].
      left. by destruct Hacc as [->| ->].
Qed.

Lemma elem_of_windowPixels (s x y px py : Z) :
  (px, py) ∈ Formula.windowPixels s x y <-> x <= px < x + s /\ y <= py < y + s.
Proof.
  unfold Formula.windowPixels. rewrite list_elem_of_bind. split.
  - intros (dy & Hin & Hdy%elem_of_seqZ).
    apply list_elem_of_bind in Hin as (dx & Hin & Hdx%elem_of_seqZ).
    apply list_elem_of_singleton in Hin. injection Hin as -> ->. lia.
  - intros [Hx Hy]. exists (py - y). split; [|apply elem_of_seqZ; lia].
    apply list_elem_of_bind. exists (px - x). split; [|apply elem_of_seqZ; lia].
    apply list_elem_of_singleton. f_equal; lia.
Qed.

Lemma scaleIntensity_nan (u : float64 -> Z) :
  scaleIntensity u S754_nan = u S754_nan mod 256.
Proof. unfold scaleIntensity. cbn [f64_mul SFmul]. by rewrite f64_255_eq. Qed.

Lemma single_frame_window (g : Gray) (ws x y : Z) :
  wf_Gray g = true -> 1 <= ws -> ws * ws < 2 ^ 53 ->
  ((forall px py, x <= px < x + ws -> y <= py < y + ws -> GrayAt g px py = Ok 0) ->
   Formula.windowContrast [g] ws x y = f64_zero) /\
  ((exists px py v, x <= px < x + ws /\ y <= py < y + ws /\
                    GrayAt g px py = Ok v /\ v <> 0) ->
   Formula.windowContrast [g] ws x y = S754_nan).
Proof.
  intros Hwf Hws Hsq.
  assert (forall p, Formula.pixelContrast (Formula.series [g] p.1 p.2)
                    = if Formula.intensity g p.1 p.2 =? 0 then f64_zero else S754_nan)
    as Hpc.
  { intros p. unfold Formula.series. cbn [fmap list_fmap].
    apply single_pixelContrast. by apply intensity_uint8. }
  unfold Formula.windowContrast, Formula.sum. split.
  - intros Hdark. rewrite zeros_sum.
    + destruct (float64_of_int_finite (ws * ws)) as [Hf Hs]; [lia|].
      apply (f64_div_zero_l _ _ _ Hf); [|done]. apply val_pos; lia.
    + apply Forall_fmap, Forall_forall. intros [px py] Hp%elem_of_windowPixels.
      pose proof (Hpc (px, py)) as Hp'. unfold compose. cbn [fst snd] in *.
      rewrite Hp'.
      specialize (Hdark px py ltac:(lia) ltac:(lia)).
      rewrite GrayAt_wf in Hdark by done. injection Hdark as ->. done.
  - intros (px & py & v & Hx & Hy & Hv & Hv0).
    rewrite nan_sum; [done| |by left|right].
    + apply Forall_fmap, Forall_forall. intros p _. unfold compose. rewrite Hpc.
      destruct (_ =? 0); by (left + right).
    + apply list_elem_of_fmap. exists (px, py).
      split; [|apply elem_of_windowPixels; lia].
      pose proof (Hpc (px, py)) as Hp'. cbn [fst snd] in *. rewrite Hp'.
      rewrite GrayAt_wf in Hv by done. injection Hv as Hv.
      destruct (Z.eqb_spec (Formula.intensity g px py) 0); [lia|done].
Qed.

(** X5. A single frame is accepted, and its map carries no contrast: a
    cell is 0 when every pixel of its window is 0, and [byte(NaN)], which
    the platform decides, when some pixel of the window is not 0 (the
    sample variance of one value is 0/0). *)
Theorem single_frame_map (K : Z) (u : float64 -> Z) (w h : Z) (r : Runner) (g : Gray) :
  1 <= K <= int_max ->
  accepted_input w h r [g] = true ->
  let ws := WindowSize (algorithm r) in
  1 <= ws ->
  exists out,
    Run K u r [g] = Ok out /\
    forall x y, 0 <= x < w - ws + 1 -> 0 <= y < h - ws + 1 ->
      ((forall px py, x <= px < x + ws -> y <= py < y + ws -> GrayAt g px py = Ok 0) ->
       GrayAt out x y = Ok 0) /\
      ((exists px py v, x <= px < x + ws /\ y <= py < y + ws /\
                        GrayAt g px py = Ok v /\ v <> 0) ->
       GrayAt out x y = Ok (u S754_nan mod 256)).
Proof.
  intros HK Hacc ws Hws.
  pose proof Hacc as (Hwf & Hlen & Halloc & _ & Hws' & Hw & Hh & Hwh)%accepted_input_inv.
  fold ws in Hws'.
  assert (maxAlloc = 2 ^ 48) as Hmax by done.
  assert (int_max = 2 ^ 63 - 1) as Himax by done.
  assert (ws * ws <= 2 ^ 48) as Hsq.
  { transitivity ((w + 1) * (h + 1)); [|lia]. apply Z.mul_le_mono_nonneg; lia. }
  inversion Hwf as [|? ? Hg _]; subst.
  eexists. split; [by apply calculateContrastMap_accepted|]. fold ws.
  intros x y Hx Hy.
  rewrite contrastGrid_GrayAt by (done || nia).
  destruct (single_frame_window g ws x y Hg Hws ltac:(lia)) as [Hdark Hlit].
  split.
  - intros H. by rewrite Hdark.
  - intros H. rewrite Hlit by done. by rewrite scaleIntensity_nan.
Qed.

Lemma single_frame_map_witness :
  1 <= 2 <= int_max /\
  accepted_input 2 2 defaultRunner [uniformFrame 2 2 9] = true /\
  1 <= 1 /\
  exists out,
    Run 2 (fun _ => 77) defaultRunner [uniformFrame 2 2 9] = Ok out /\
    forall x y, 0 <= x < 2 - 1 + 1 -> 0 <= y < 2 - 1 + 1 ->
      ((forall px py, x <= px < x + 1 -> y <= py < y + 1 ->
          GrayAt (uniformFrame 2 2 9) px py = Ok 0) ->
       GrayAt out x y = Ok 0) /\
      ((exists px py v, x <= px < x + 1 /\ y <= py < y + 1 /\
                        GrayAt (uniformFrame 2 2 9) px py = Ok v /\ v <> 0) ->
       GrayAt out x y = Ok (77 mod 256)).
Proof.
  split; [done|]. split; [reflexivity|]. split; [done|].
  apply (single_frame_map 2 (fun _ => 77) 2 2 defaultRunner (uniformFrame 2 2 9));
    [done|reflexivity|done].
Defined.

(** ** Window sides outside the frame *)

(** X6. A window side of 0 is accepted: [temporalWindowContrast] visits
    no pixel and returns 0/0, and every cell of the [w + 1] by [h + 1]
    map is [byte(NaN)]. *)
Theorem window_zero_map (K : Z) (u : float64 -> Z) (w h : Z)
    (r : Runner) (images : list Gray) :
  1 <= K <= int_max ->
  accepted_input w h r images = true ->
  WindowSize (algorithm r) = 0 ->
  (forall x y, temporalWindowContrast r images x y = Ok S754_nan) /\
  exists out,
    Run K u r images = Ok out /\
    len (Pix out) = (w + 1) * (h + 1) /\
    forall x y, 0 <= x < w + 1 -> 0 <= y < h + 1 ->
      GrayAt out x y = Ok (u S754_nan mod 256).
Proof.
  intros HK Hacc Hws0.
  pose proof Hacc as (Hwf & Hlen & Halloc & _ & Hws & Hw & Hh & Hwh)%accepted_input_inv.
  assert (maxAlloc <= int_max) by done.
  split.
  { intros x y. unfold temporalWindowContrast. by rewrite Hws0. }
  eexists. split; [by apply calculateContrastMap_accepted|]. rewrite Hws0.
  replace (w - 0 + 1) with (w + 1) by lia. replace (h - 0 + 1) with (h + 1) by lia.
  destruct (contrastGrid_shape images 0 (w + 1) (h + 1)) as [Hr Hc].
  split; [apply contrastImage_length; (done || lia)|].
  intros x y Hx Hy. rewrite contrastGrid_GrayAt by (done || lia).
  apply (f_equal Ok). apply scaleIntensity_nan.
Qed.

Lemma window_zero_map_witness :
  let images := [uniformFrame 2 1 5; uniformFrame 2 1 6] in
  1 <= 3 <= int_max /\
  accepted_input 2 1 (runnerWith 0) images = true /\
  exists out,
    Run 3 (fun _ => 200) (runnerWith 0) images = Ok out /\
    len (Pix out) = (2 + 1) * (1 + 1) /\
    forall x y, 0 <= x < 2 + 1 -> 0 <= y < 1 + 1 ->
      GrayAt out x y = Ok (200 mod 256).
Proof.
  split; [done|]. split; [reflexivity|].
  exact (proj2 (window_zero_map 3 (fun _ => 200) 2 1 (runnerWith 0)
                  [uniformFrame 2 1 5; uniformFrame 2 1 6]
                  ltac:(done) eq_refl eq_refl)).
Defined.

(** X7. [Run] reports a bad input by a run-time panic, never by an error
    value: an empty list of frames panics with an index out of range; a
    window side above [h + 1] panics when the slice of rows is made
    (length out of range); a window side above [w + 1] and at most [h]
    panics when the first row is made (capacity out of range). *)
Theorem oversized_window_panics (K : Z) (u : float64 -> Z) (w h : Z)
    (r : Runner) (img0 : Gray) (rest : list Gray) :
  1 <= K <= int_max ->
  wf_frames (img0 :: rest) = true ->
  has_size w h img0 = true ->
  fits_heap w h = true ->
  let ws := WindowSize (algorithm r) in
  0 <= ws <= int_max ->
  (h + 1 < ws -> Run K u r (img0 :: rest) = Panic MakesliceLenOutOfRange) /\
  (w + 1 < ws <= h -> Run K u r (img0 :: rest) = Panic MakesliceCapOutOfRange) /\
  Run K u r [] = Panic IndexOutOfRange.
Proof.
  intros HK Hwf Hsz Hheap ws Hws.
  assert (accepted_input w h (runnerWith 0) (img0 :: rest) = true) as Hacc.
  { unfold accepted_input. rewrite Hwf, Hsz, Hheap. cbn [andb runnerWith algorithm WindowSize].
    apply wf_frames_inv in Hwf as [_ Hwf]. inversion Hwf as [|? ? Hg _]; subst.
    unfold has_size in Hsz.
    apply andb_prop in Hsz as [Hsz H4]. apply andb_prop in Hsz as [Hsz H3].
    apply andb_prop in Hsz as [H1 H2]. apply Z.eqb_eq in H1, H2, H3, H4.
    apply wf_Gray_inv in Hg as (_ & [Hw Hh] & _).
    rewrite H1, H2, H3, H4 in *.
    destruct (Z.leb_spec 0 (Z.min w h + 1)); [done|lia]. }
  pose proof Hacc as (Hwfs & _ & _ & (? & ? & [= <- <-] & HR0) & _ & Hw & Hh & Hwh)
    %accepted_input_inv.
  assert (maxAlloc = 2 ^ 48) as Hmax by done.
  assert (int_max = 2 ^ 63 - 1) as Himax by done.
  assert (w + 1 <= 2 ^ 48 /\ h + 1 <= 2 ^ 48) as [Hw48 Hh48] by nia.
  inversion Hwfs as [|? ? Hwf0 _]; subst.
  assert (Run K u r (img0 :: rest)
          = if h - ws + 1 <? 0 then Panic MakesliceLenOutOfRange
            else listContrast ← appendM (contrastRow r (img0 :: rest) (w - ws + 1))
                                   (seqZ 0 (h - ws + 1));
                 assemble u (w - ws + 1) (h - ws + 1) listContrast) as Hrun.
  { unfold Run. rewrite calculateContrastMap_sequential by done.
    unfold sequentialContrastMap.
    change (slice_get (img0 :: rest) 0) with (Ok img0). simpl_result.
    unfold Bounds. rewrite Dx_wf, Dy_wf by done. rewrite HR0. cbn [Min Max X Y].
    rewrite !Z.sub_0_r. fold ws.
    rewrite !int_sub_id by (unfold is_int, int_min; lia).
    by rewrite !int_add_id by (unfold is_int, int_min; lia). }
  split; [|split].
  - intros Hbig. rewrite Hrun.
    by destruct (Z.ltb_spec (h - ws + 1) 0) as [_|?]; [|lia].
  - intros Hbig. rewrite Hrun.
    destruct (Z.ltb_spec (h - ws + 1) 0) as [?|_]; [lia|].
    assert (forall y, contrastRow r (img0 :: rest) (w - ws + 1) y
                      = Panic MakesliceCapOutOfRange) as Hrow.
    { intros y. unfold contrastRow.
      by destruct (Z.ltb_spec (w - ws + 1) 0) as [_|?]; [|lia]. }
    rewrite (seqZ_cons 0 (h - ws + 1)) by lia. cbn [appendM].
    rewrite Hrow. by simpl_result.
  - unfold Run. by rewrite calculateContrastMap_sequential.
Qed.

Lemma oversized_window_panics_witness :
  let images := [uniformFrame 2 5 1; uniformFrame 2 5 2] in
  1 <= 2 <= int_max /\
  wf_frames images = true /\ has_size 2 5 (uniformFrame 2 5 1) = true /\
  fits_heap 2 5 = true /\
  Run 2 (fun _ => 0) (runnerWith 9) images = Panic MakesliceLenOutOfRange /\
  Run 2 (fun _ => 0) (runnerWith 4) images = Panic MakesliceCapOutOfRange.
Proof.
  split; [done|]. split; [reflexivity|]. split; [reflexivity|].
  split; [reflexivity|]. split.
  - apply (oversized_window_panics 2 (fun _ => 0) 2 5 (runnerWith 9)
             (uniformFrame 2 5 1) [uniformFrame 2 5 2]); done.
  - apply (oversized_window_panics 2 (fun _ => 0) 2 5 (runnerWith 4)
             (uniformFrame 2 5 1) [uniformFrame 2 5 2]); done.
Defined.

(** ** A window of one pixel *)

Lemma f64_div_one (x : float64) (lo hi : Z) :
  finite_in lo hi x -> has_sign false x -> f64_div x (float64_of_int 1) = x.
Proof.
  intros (Hv & v & Hmag & _) Hs.
  destruct x as [s|s| |s m e]; try done; cbn [has_sign] in Hs; subst s; [done|].
  destruct (float64_of_int_finite 1) as [H1 Hs1]; [lia|].
  assert (representable (val (Z.pos m) e)) as Hrep by (by eexists _, _).
  assert (finite_in (val (Z.pos m) e) (val (Z.pos m) e) (S754_finite false m e)) as Hx.
  { split; [done|]. eexists. split; [reflexivity|]. lia. }
  apply (finite_in_unique (val (Z.pos m) e)); [|done| |done].
  - apply (f64_div_finite _ _ _ _ _ _ _ _ Hx H1); [by apply val_pos|right|done|]; done.
  - by apply (f64_div_sign false false).
Qed.

(** The contrast of a window of one pixel is the contrast of the pixel. *)
Lemma windowContrast_one (w h : Z) (r : Runner) (images : list Gray) (x y : Z) :
  valid_input w h r images = true ->
  Formula.windowContrast images 1 x y
  = Formula.pixelContrast (Formula.series images x y).
Proof.
  intros Hvalid.
  destruct (valid_input_sizes _ _ _ _ Hvalid) as (Hwf & Hlen & Hws & Hsq & Hw & Hh).
  unfold Formula.windowContrast, Formula.sum.
  change (Formula.windowPixels 1 x y) with [(x + 0, y + 0)].
  cbn [fmap list_fmap fold_left fst snd]. rewrite !Z.add_0_r.
  assert (finite_in 0 (val 1 54) (Formula.pixelContrast (Formula.series images x y)))
    as Hfin.
  { rewrite series_ints. apply pixelContrast_finite; [|by rewrite len_fmap].
    apply Forall_fmap. eapply Forall_impl; [exact Hwf|].
    intros g Hg. by apply intensity_uint8. }
  assert (has_sign false (Formula.pixelContrast (Formula.series images x y))) as Hsign.
  { apply pixelContrast_sign. unfold Formula.series. rewrite len_fmap.
    apply is_int_bounds. lia. }
  change (1 * 1) with 1. rewrite (f64_div_one _ 0 (val 1 54)).
  - by destruct (Formula.pixelContrast _) as [[]|[]| |[] m e].
  - by destruct (Formula.pixelContrast _) as [[]|[]| |[] m e].
  - by destruct (Formula.pixelContrast _) as [[]|[]| |[] m e].
Qed.

(** X8. With a window side of 1, the default, nothing is averaged: for a
    valid input [temporalWindowContrast] returns for the pixel [(x, y)]
    exactly the ratio of the standard deviation and the mean of its time
    series, or 0 when the mean is not positive; adding it to 0 and
    dividing by [float64(1)] changes no bit. *)
Theorem window_one_contrast (w h : Z) (r : Runner) (images : list Gray) (x y : Z) :
  valid_input w h r images = true ->
  WindowSize (algorithm r) = 1 ->
  0 <= x < w -> 0 <= y < h ->
  exists values,
    timeSeries images x y = Ok values /\
    temporalWindowContrast r images x y
    = Ok (if f64_ltb f64_zero (Formula.mean values)
          then f64_div (Formula.stdDev values) (Formula.mean values)
          else f64_zero).
Proof.
  intros Hvalid Hws1 Hx Hy.
  destruct (valid_input_sizes _ _ _ _ Hvalid) as (Hwf & Hlen & Hws & Hsq & Hw & Hh).
  assert (int_max = 2 ^ 63 - 1) by done.
  exists (Formula.series images x y). split; [by apply timeSeries_wf|].
  rewrite temporalWindowContrast_wf; try done;
    try (apply is_int_bounds; rewrite ?Hws1; lia).
  rewrite Hws1. apply (f_equal Ok). by apply (windowContrast_one w h r).
Qed.

Lemma window_one_contrast_witness :
  let images := [uniformFrame 2 2 50; uniformFrame 2 2 150] in
  valid_input 2 2 defaultRunner images = true /\
  exists values,
    timeSeries images 1 0 = Ok values /\
    temporalWindowContrast defaultRunner images 1 0
    = Ok (if f64_ltb f64_zero (Formula.mean values)
          then f64_div (Formula.stdDev values) (Formula.mean values)
          else f64_zero).
Proof.
  split; [reflexivity|].
  apply (window_one_contrast 2 2 defaultRunner
           [uniformFrame 2 2 50; uniformFrame 2 2 150] 1 0);
    [reflexivity|reflexivity|done|done].
Defined.

(** ** Reading a decimal numeral *)

Lemma byte_of_range (c : Ascii.ascii) : 0 <= byte_of c < 256.
Proof. unfold byte_of. pose proof (Ascii.nat_ascii_bounded c). lia. Qed.

Lemma horner_cons (n : Z) (c : Ascii.ascii) (ds : gostring) :
  horner n (c :: ds) = horner (10 * n + (byte_of c - 48)) ds.
Proof. reflexivity. Qed.

Lemma horner_mono (n : Z) (ds : gostring) :
  0 <= n -> forallb isDigit ds = true -> n <= horner n ds.
Proof.
  revert n. induction ds as [|c ds IH]; intros n Hn Hds; [done|].
  cbn [forallb] in Hds. apply andb_prop in Hds as [Hc Hds].
  unfold isDigit in Hc. apply andb_prop in Hc as [Hc1%Z.leb_le Hc2%Z.leb_le].
  rewrite horner_cons. etransitivity; [|apply IH; [lia|done]]. lia.
Qed.

Lemma horner_bound (n : Z) (ds : gostring) :
  0 <= n -> forallb isDigit ds = true ->
  horner n ds < (n + 1) * 10 ^ len ds.
Proof.
  revert n. induction ds as [|c ds IH]; intros n Hn Hds.
  { unfold len. simpl. lia. }
  cbn [forallb] in Hds. apply andb_prop in Hds as [Hc Hds].
  unfold isDigit in Hc. apply andb_prop in Hc as [Hc1%Z.leb_le Hc2%Z.leb_le].
  rewrite horner_cons.
  assert (len (c :: ds) = 1 + len ds) as -> by (unfold len; simpl length; lia).
  assert (0 <= len ds) by (unfold len; lia).
  rewrite Z.pow_add_r by lia. change (10 ^ 1) with 10.
  eapply Z.lt_le_trans; [apply IH; [lia|done]|].
  pose proof (Z.pow_pos_nonneg 10 (len ds) ltac:(lia) ltac:(lia)). nia.
Qed.

(** The loop of the fast path reads digits, and nothing else. *)
Lemma atoiLoop_spec (n : Z) (s : gostring) :
  0 <= n -> (n + 1) * 10 ^ len s <= 2 ^ 63 ->
  atoiLoop n s = if forallb isDigit s then Some (horner n s) else None.
Proof.
  revert n. induction s as [|c s IH]; intros n Hn Hb; [done|].
  assert (len (c :: s) = 1 + len s) as Hl by (unfold len; simpl length; lia).
  assert (0 <= len s) by (unfold len; lia).
  rewrite Hl, Z.pow_add_r in Hb by lia. change (10 ^ 1) with 10 in Hb.
  pose proof (Z.pow_pos_nonneg 10 (len s) ltac:(lia) ltac:(lia)) as Hpow.
  pose proof (byte_of_range c) as Hc.
  cbn [atoiLoop forallb]. unfold isDigit.
  destruct (Z.leb_spec 48 (byte_of c)) as [H48|H48]; cbn [andb].
  - rewrite Z.mod_small by lia.
    destruct (Z.leb_spec (byte_of c) 57) as [H57|H57].
    + destruct (Z.ltb_spec 9 (byte_of c - 48)) as [?|_]; [lia|].
      assert (is_int (n * 10 + (byte_of c - 48)) /\ is_int (n * 10)) as [Hi1 Hi2]
        by (unfold is_int, int_min, int_max; nia).
      rewrite int_mul_id, int_add_id by done.
      rewrite horner_cons. replace (10 * n) with (n * 10) by lia.
      apply IH; [lia|nia].
    + by destruct (Z.ltb_spec 9 (byte_of c - 48)) as [_|?]; [|lia].
  - replace ((byte_of c - 48) mod 256) with (byte_of c - 48 + 256)
      by (apply Z.mod_unique with (-1); lia).
    by destruct (Z.ltb_spec 9 (byte_of c - 48 + 256)) as [_|?]; [|lia].
Qed.

(** The loop of [ParseUint] reads digits while the value fits 64 bits. *)
Lemma parseUintLoop_spec (n : Z) (s : gostring) :
  0 <= n <= maxUint64 ->
  match parseUintLoop n s with
  | (v, None) => forallb isDigit s = true /\ v = horner n s /\ v <= maxUint64
  | (v, Some ErrSyntax) => forallb isDigit s = false
  | (v, Some ErrRange) =>
    v = maxUint64 /\ (forallb isDigit s = false \/ maxUint64 < horner n s)
  end.
Proof.
  revert n. induction s as [|ch s IH]; intros n Hn.
  { cbn. split; [done|]. split; [done|lia]. }
  assert (maxUint64 = 2 ^ 64 - 1) as Hmax by done.
  pose proof (byte_of_range ch) as Hc.
  cbn [parseUintLoop forallb]. unfold isDigit. cbv zeta.
  destruct (Z.leb_spec 48 (byte_of ch)) as [H48|H48]; cbn [andb];
    [destruct (Z.leb_spec (byte_of ch) 57) as [H57|H57]|].
  - (* a digit *)
    destruct (Z.leb_spec 10 (byte_of ch - 48)) as [?|_]; [lia|].
    set (d := byte_of ch - 48) in *.
    assert (horner n (ch :: s) = horner (10 * n + d) s) as Hh by done.
    assert (forallb isDigit s = true -> 10 * n + d <= horner (10 * n + d) s) as Hmono
      by (intros; apply horner_mono; [lia|done]).
    destruct (Z.leb_spec (maxUint64 / 10 + 1) n) as [Hcut|Hcut].
    { split; [done|]. destruct (forallb isDigit s) eqn:Hs; [right|by left].
      rewrite Hh. specialize (Hmono eq_refl).
      rewrite Hmax in *. change ((2 ^ 64 - 1) / 10 + 1) with 1844674407370955162 in Hcut.
      lia. }
    rewrite Hmax in Hcut. change ((2 ^ 64 - 1) / 10 + 1) with 1844674407370955162 in Hcut.
    rewrite (Z.mod_small (n * 10)) by lia.
    destruct (Z_lt_le_dec (n * 10 + d) (2 ^ 64)) as [Hfit|Hover].
    + rewrite (Z.mod_small (n * 10 + d)) by lia.
      destruct (Z.ltb_spec (n * 10 + d) (n * 10)) as [?|_]; [lia|].
      destruct (Z.ltb_spec maxUint64 (n * 10 + d)) as [?|_]; [lia|]. cbn [orb].
      rewrite Hh. replace (10 * n + d) with (n * 10 + d) in * by lia.
      apply IH. lia.
    + replace ((n * 10 + d) mod 2 ^ 64) with (n * 10 + d - 2 ^ 64)
        by (apply Z.mod_unique with 1; lia).
      destruct (Z.ltb_spec (n * 10 + d - 2 ^ 64) (n * 10)) as [_|?]; [|lia].
      cbn [orb]. split; [done|].
      destruct (forallb isDigit s) eqn:Hs; [right|by left].
      rewrite Hh. specialize (Hmono eq_refl). lia.
  - (* above '9' *)
    destruct ((97 <=? lower (byte_of ch)) && (lower (byte_of ch) <=? 122)) eqn:Hletter;
      [|done].
    apply andb_prop in Hletter as [Ha%Z.leb_le Hz%Z.leb_le].
    rewrite Z.mod_small by lia.
    by destruct (Z.leb_spec 10 (lower (byte_of ch) - 97 + 10)) as [_|?]; [|lia].
  - (* below '0' *)
    destruct ((97 <=? lower (byte_of ch)) && (lower (byte_of ch) <=? 122)) eqn:Hletter;
      [|done].
    apply andb_prop in Hletter as [Ha%Z.leb_le Hz%Z.leb_le].
    rewrite Z.mod_small by lia.
    by destruct (Z.leb_spec 10 (lower (byte_of ch) - 97 + 10)) as [_|?]; [|lia].
Qed.

Lemma checkRange_spec (neg : bool) (body s0 : gostring) :
  match body with
  | [] => checkRange neg (ParseUint body) s0 = (0, Some (syntaxError "ParseInt" s0))
  | _ =>
    if forallb isDigit body then
      let v := if neg then - decimalValue body else decimalValue body in
      if (int_min <=? v) && (v <=? int_max)
      then checkRange neg (ParseUint body) s0 = (v, None)
      else exists n, checkRange neg (ParseUint body) s0
                     = (n, Some (rangeError "ParseInt" s0))
    else exists n k, checkRange neg (ParseUint body) s0
                     = (n, Some {| Func := "ParseInt"; Num := s0; Err := k |})
  end.
Proof.
  destruct body as [|c body]; [done|].
  assert (maxUint64 = 2 ^ 64 - 1) as Hmax by done.
  assert (int_max = 2 ^ 63 - 1) as Himax by done.
  assert (int_min = - 2 ^ 63) as Himin by done.
  pose proof (parseUintLoop_spec 0 (c :: body) ltac:(lia)) as Hloop.
  unfold ParseUint.
  destruct (parseUintLoop 0 (c :: body)) as [v [[]|]].
  - (* a syntax error *)
    rewrite Hloop. by eexists _, _.
  - (* a range error *)
    destruct Hloop as [-> Hwhy]. unfold checkRange, rangeError.
    assert (exists n, (if negb neg && (2 ^ 63 <=? maxUint64)
                       then (2 ^ 63 - 1, Some (rangeError "ParseInt" s0))
                       else if neg && (2 ^ 63 <? maxUint64)
                            then (- 2 ^ 63, Some (rangeError "ParseInt" s0))
                            else (if neg then int_sub 0 (wrap maxUint64)
                                  else wrap maxUint64, None))
                      = (n, Some (rangeError "ParseInt" s0))) as [n Hn]
      by (destruct neg; by eexists).
    destruct (forallb isDigit (c :: body)) eqn:Hds.
    + destruct Hwhy as [|Hover]; [done|]. fold (decimalValue (c :: body)) in Hover.
      cbv zeta.
      destruct ((int_min <=? _) && (_ <=? int_max)) eqn:Hr; [|by exists n].
      apply andb_prop in Hr as [H1%Z.leb_le H2%Z.leb_le]. destruct neg; lia.
    + by exists n, ErrRange.
  - (* no error *)
    destruct Hloop as (Hds & -> & Hv). rewrite Hds.
    fold (decimalValue (c :: body)) in *.
    set (v := decimalValue (c :: body)) in *.
    assert (0 <= v) as Hv0 by (by apply horner_mono).
    unfold checkRange. cbv zeta.
    destruct neg; cbn [negb andb].
    + destruct (Z.ltb_spec (2 ^ 63) v) as [Hbig|Hfit].
      * destruct (Z.leb_spec int_min (- v)) as [?|_]; [lia|]. by eexists.
      * destruct (Z.leb_spec int_min (- v)) as [_|?]; [|lia].
        destruct (Z.leb_spec (- v) int_max) as [_|?]; [|lia]. cbn [andb].
        f_equal. destruct (Z.eq_dec v (2 ^ 63)) as [->|]; [done|].
        rewrite (wrap_id v) by (unfold is_int; lia).
        apply int_sub_id. unfold is_int. lia.
    + destruct (Z.leb_spec (2 ^ 63) v) as [Hbig|Hfit].
      * destruct (Z.leb_spec v int_max) as [?|_]; [lia|].
        rewrite andb_false_r. by eexists.
      * destruct (Z.leb_spec int_min v) as [_|?]; [|lia].
        destruct (Z.leb_spec v int_max) as [_|?]; [|lia]. cbn [andb].
        f_equal. apply wrap_id. unfold is_int. lia.
Qed.

Lemma Atoi_slow (neg : bool) (body s0 : gostring) :
  reads_as s0 (signedValue neg body)
    match checkRange neg (ParseUint body) s0 with
    | (i64, Some nerr) =>
      (i64, Some {| Func := "Atoi"; Num := Num nerr; Err := Err nerr |})
    | (i64, None) => (i64, None)
    end.
Proof.
  pose proof (checkRange_spec neg body s0) as H.
  unfold reads_as, signedValue.
  destruct body as [|c body]; [rewrite H; by eexists _, _|].
  destruct (forallb isDigit (c :: body)).
  - cbv zeta in H.
    destruct ((int_min <=? _) && (_ <=? int_max)); [by rewrite H|].
    destruct H as [n ->]. by eexists.
  - destruct H as (n & k & ->). by eexists _, _.
Qed.

Lemma Atoi_fast (c0 : Ascii.ascii) (signed : bool) (body s0 : gostring) :
  len body <= 18 -> (signed = false -> body <> []) ->
  reads_as s0 (signedValue (Ascii.eqb c0 "-") body)
    (if signed && (len body <? 1) then (0, Some (syntaxError "Atoi" s0))
     else match atoiLoop 0 body with
          | None => (0, Some (syntaxError "Atoi" s0))
          | Some n => (if Ascii.eqb c0 "-" then int_sub 0 n else n, None)
          end).
Proof.
  intros Hlen Hbody.
  assert (int_max = 2 ^ 63 - 1) as Himax by done.
  assert (int_min = - 2 ^ 63) as Himin by done.
  assert (0 <= len body) as Hlen0 by (unfold len; lia).
  assert (10 ^ len body <= 10 ^ 18) as Hpow by (apply Z.pow_le_mono_r; lia).
  unfold reads_as, signedValue.
  destruct body as [|c body].
  { destruct signed; [by eexists _, _|]. by destruct Hbody. }
  assert ((len (c :: body) <? 1) = false) as ->.
  { apply Z.ltb_ge. unfold len. simpl length. lia. }
  rewrite andb_false_r.
  rewrite atoiLoop_spec by lia.
  destruct (forallb isDigit (c :: body)) eqn:Hds; [|by eexists _, _].
  fold (decimalValue (c :: body)).
  pose proof (horner_mono 0 (c :: body) ltac:(lia) Hds) as Hlo.
  pose proof (horner_bound 0 (c :: body) ltac:(lia) Hds) as Hhi.
  fold (decimalValue (c :: body)) in Hlo, Hhi.
  set (v := decimalValue (c :: body)) in *.
  destruct (Ascii.eqb c0 "-").
  - destruct (Z.leb_spec int_min (- v)) as [_|?]; [|lia].
    destruct (Z.leb_spec (- v) int_max) as [_|?]; [|lia]. cbn [andb].
    f_equal. apply int_sub_id. unfold is_int. lia.
  - destruct (Z.leb_spec int_min v) as [_|?]; [|lia].
    by destruct (Z.leb_spec v int_max) as [_|?]; [|lia].
Qed.

(** [Atoi] reads an optional sign and decimal digits. *)
Lemma Atoi_spec (s : gostring) : reads_as s (signedDecimal s) (Atoi s).
Proof.
  destruct s as [|c rest]; [by eexists _, _|].
  unfold Atoi. cbv zeta.
  destruct ((0 <? len (c :: rest)) && (len (c :: rest) <? 19)) eqn:Hfast.
  - apply andb_prop in Hfast as [_ Hlen%Z.ltb_lt].
    assert (len (c :: rest) = 1 + len rest) as Hl by (unfold len; simpl length; lia).
    unfold signedDecimal.
    destruct (Ascii.eqb_spec c "-") as [->|Hm].
    { apply (Atoi_fast "-" true rest); [lia|done]. }
    destruct (Ascii.eqb_spec c "+") as [->|Hp].
    { apply (Atoi_fast "+" true rest); [lia|done]. }
    cbn [orb].
    pose proof (Atoi_fast c false (c :: rest) (c :: rest) ltac:(lia) ltac:(done)) as H.
    by destruct (Ascii.eqb_spec c "-").
  - unfold ParseInt, signedDecimal.
    destruct (Ascii.eqb_spec c "-") as [->|Hm].
    { apply (Atoi_slow true rest). }
    destruct (Ascii.eqb_spec c "+") as [->|Hp].
    { apply (Atoi_slow false rest). }
    apply (Atoi_slow false (c :: rest)).
Qed.

(** ** The base name of a path *)

Lemma stripTrailingSeparators_id (fuel : nat) (path : gostring) (c : Ascii.ascii) :
  IsPathSeparator c = false ->
  stripTrailingSeparators fuel (path ++ [c]) = path ++ [c].
Proof.
  intros Hc. destruct fuel as [|fuel]; [done|]. cbn [stripTrailingSeparators].
  rewrite length_app. cbn [length].
  replace (length path + 1 - 1)%nat with (length path) by lia.
  rewrite lookup_app_r by lia. rewrite Nat.sub_diag. cbn [lookup list_lookup].
  by rewrite Hc, andb_false_r.
Qed.

Lemma lastSeparator_none (name : gostring) (k : nat) :
  noSeparator name = true -> lastSeparator name k = -1.
Proof.
  intros Hname. induction k as [|k IH]; [done|]. cbn [lastSeparator].
  destruct (name !! k) as [c|] eqn:Hk; [|done].
  unfold noSeparator in Hname. rewrite forallb_forall in Hname.
  specialize (Hname c). rewrite negb_true_iff in Hname.
  rewrite Hname; [done|]. apply list_elem_of_In. by eapply list_elem_of_lookup_2.
Qed.

Lemma lastSeparator_join (dir name : gostring) (k : nat) :
  noSeparator name = true -> (k <= length name)%nat ->
  lastSeparator (dir ++ Separator :: name) (length dir + 1 + k)
  = Z.of_nat (length dir).
Proof.
  intros Hname. induction k as [|k IH]; intros Hk.
  - replace (length dir + 1 + 0)%nat with (S (length dir)) by lia.
    cbn [lastSeparator]. rewrite lookup_app_r by lia.
    by rewrite Nat.sub_diag.
  - replace (length dir + 1 + S k)%nat with (S (length dir + 1 + k)) by lia.
    cbn [lastSeparator]. rewrite lookup_app_r by lia.
    replace (length dir + 1 + k - length dir)%nat with (S k) by lia.
    change ((Separator :: name) !! S k) with (name !! k).
    destruct (lookup_lt_is_Some_2 name k ltac:(lia)) as [c Hc]. rewrite Hc.
    unfold noSeparator in Hname. rewrite forallb_forall in Hname.
    specialize (Hname c). rewrite negb_true_iff in Hname.
    rewrite Hname; [apply IH; lia|].
    apply list_elem_of_In. by eapply list_elem_of_lookup_2.
Qed.

Lemma noSeparator_last (name : gostring) :
  name <> [] -> noSeparator name = true ->
  exists init c, name = init ++ [c] /\ IsPathSeparator c = false.
Proof.
  intros Hne Hname.
  destruct (exists_last Hne) as (init & c & ->). exists init, c. split; [done|].
  unfold noSeparator in Hname. rewrite forallb_app in Hname.
  apply andb_prop in Hname as [_ Hc]. cbn in Hc.
  rewrite andb_true_r in Hc. by apply negb_true_iff.
Qed.

(** The base name of a file in a directory is the name of the file. *)
Lemma filepath_Base_join (dir name : gostring) :
  name <> [] -> noSeparator name = true ->
  filepath_Base (dir ++ Separator :: name) = name.
Proof.
  intros Hne Hname.
  destruct (noSeparator_last name Hne Hname) as (init & c & Hinit & Hc).
  assert (filepath_Base (dir ++ Separator :: name)
          = let path := stripTrailingSeparators (length (dir ++ Separator :: name))
                          (dir ++ Separator :: name) in
            let i := lastSeparator path (length path) in
            let path := if 0 <=? i then drop (Z.to_nat (i + 1)) path else path in
            match path with [] => [Separator] | _ => path end) as ->
    by (by destruct dir).
  cbv zeta.
  assert (stripTrailingSeparators (length (dir ++ Separator :: name))
            (dir ++ Separator :: name) = dir ++ Separator :: name) as ->.
  { rewrite Hinit.
    replace (dir ++ Separator :: init ++ [c]) with ((dir ++ Separator :: init) ++ [c])
      by (by rewrite <- app_assoc).
    by apply stripTrailingSeparators_id. }
  replace (length (dir ++ Separator :: name)) with (length dir + 1 + length name)%nat
    by (rewrite length_app; simpl; lia).
  rewrite lastSeparator_join by (done || lia).
  destruct (Z.leb_spec 0 (Z.of_nat (length dir))) as [_|?]; [|lia].
  replace (Z.to_nat (Z.of_nat (length dir) + 1)) with (length (dir ++ [Separator]))
    by (rewrite length_app; simpl; lia).
  replace (dir ++ Separator :: name) with ((dir ++ [Separator]) ++ name)
    by (by rewrite <- app_assoc).
  rewrite drop_app_length. by destruct name.
Qed.

Lemma filepath_Base_name (name : gostring) :
  name <> [] -> noSeparator name = true -> filepath_Base name = name.
Proof.
  intros Hne Hname.
  destruct (noSeparator_last name Hne Hname) as (init & c & Hinit & Hc).
  destruct name as [|c0 name]; [done|]. unfold filepath_Base. cbv zeta.
  rewrite Hinit, stripTrailingSeparators_id by done. rewrite <- Hinit.
  by rewrite lastSeparator_none.
Qed.

(** ** Trimming a suffix *)

Lemma gostring_eqb_refl (s : gostring) : gostring_eqb s s = true.
Proof. induction s as [|c s IH]; [done|]. cbn. by rewrite Ascii.eqb_refl. Qed.

Lemma TrimSuffix_app (s suffix : gostring) : TrimSuffix (s ++ suffix) suffix = s.
Proof.
  unfold TrimSuffix, HasSuffix. rewrite length_app.
  replace (length s + length suffix - length suffix)%nat with (length s) by lia.
  rewrite drop_app_length, take_app_length, gostring_eqb_refl.
  by destruct (Nat.leb_spec (length suffix) (length s + length suffix)); [|lia].
Qed.

(** ** [ExtractNumber] *)

Lemma ExtractNumber_Atoi (filename : gostring) :
  ExtractNumber filename
  = match Atoi (TrimSuffix (filepath_Base filename) (go ".png")) with
    | (_, Some err) => (0, Some err)
    | (number, None) => (number, None)
    end.
Proof. unfold ExtractNumber. cbv zeta. by destruct (Atoi _) as [n [e|]]. Qed.

Lemma isDigit_noSeparator (ds : gostring) :
  forallb isDigit ds = true -> noSeparator ds = true.
Proof.
  intros Hds. unfold noSeparator. rewrite forallb_forall in *.
  intros c Hc. specialize (Hds c Hc). apply negb_true_iff.
  unfold IsPathSeparator. destruct (Ascii.eqb_spec c Separator) as [->|]; done.
Qed.

Lemma signedValue_Some (neg : bool) (ds : gostring) (v : Z) :
  signedValue neg ds = Some v -> ds <> [] /\ noSeparator ds = true.
Proof.
  unfold signedValue. destruct ds as [|c ds]; [done|].
  destruct (forallb isDigit (c :: ds)) eqn:Hds; [|done].
  intros _. split; [done|]. by apply isDigit_noSeparator.
Qed.

Lemma signedDecimal_Some (s : gostring) (v : Z) :
  signedDecimal s = Some v -> s <> [] /\ noSeparator s = true.
Proof.
  destruct s as [|c rest]; [done|]. unfold signedDecimal.
  destruct (Ascii.eqb_spec c "-") as [->|Hm];
    [|destruct (Ascii.eqb_spec c "+") as [->|Hp]].
  - intros [_ H]%signedValue_Some. split; [done|]. unfold noSeparator in *.
    cbn [forallb]. by rewrite H.
  - intros [_ H]%signedValue_Some. split; [done|]. unfold noSeparator in *.
    cbn [forallb]. by rewrite H.
  - by intros H%signedValue_Some.
Qed.

(** X9. [ExtractNumber] takes the base name of the path, drops one
    [.png] at its end and reads what is left as a decimal numeral: an
    optional sign and one or more digits.  It returns the value when the
    numeral fits an [int]; otherwise it returns 0 and the error of
    [Atoi] for that stem: a range error when a numeral is too large, and
    an error in every case where the stem is no numeral. *)
Theorem ExtractNumber_spec (filename : gostring) :
  let stem := TrimSuffix (filepath_Base filename) (go ".png") in
  match signedDecimal stem with
  | Some v =>
    if (int_min <=? v) && (v <=? int_max) then ExtractNumber filename = (v, None)
    else ExtractNumber filename = (0, Some (rangeError "Atoi" stem))
  | None =>
    exists k, ExtractNumber filename
              = (0, Some {| Func := "Atoi"; Num := stem; Err := k |})
  end.
Proof.
  intros stem. rewrite ExtractNumber_Atoi. fold stem.
  pose proof (Atoi_spec stem) as H. unfold reads_as in H.
  destruct (signedDecimal stem) as [v|].
  - destruct ((int_min <=? v) && (v <=? int_max)); [by rewrite H|].
    by destruct H as [n ->].
  - destruct H as (n & k & ->). by exists k.
Qed.

Lemma ExtractNumber_join (dir name : gostring) :
  name <> [] -> noSeparator name = true ->
  ExtractNumber (dir ++ Separator :: name) = ExtractNumber name.
Proof.
  intros Hne Hname. rewrite !ExtractNumber_Atoi.
  by rewrite filepath_Base_join, filepath_Base_name.
Qed.

(** X10. The directory of a path plays no part: the file [name] in any
    directory has the number, or the error, of [name] alone. *)
Theorem ExtractNumber_directory (dir name : gostring) :
  name <> [] -> noSeparator name = true ->
  ExtractNumber (dir ++ Separator :: name) = ExtractNumber name.
Proof. apply ExtractNumber_join. Qed.

Lemma ExtractNumber_directory_witness :
  go "frame7.png" <> [] /\ noSeparator (go "frame7.png") = true /\
  ExtractNumber (go "data/run1" ++ Separator :: go "frame7.png")
  = ExtractNumber (go "frame7.png").
Proof.
  split; [done|]. split; [reflexivity|].
  apply (ExtractNumber_directory (go "data/run1") (go "frame7.png")); done.
Defined.

(** X11. A frame file named by a decimal numeral, in any directory, has
    the value of the numeral as its number: [10.png] has 10, and so have
    [+10.png] and [0010.png]; [-3.png] has -3. *)
Theorem ExtractNumber_numeral (dir stem : gostring) (v : Z) :
  signedDecimal stem = Some v -> int_min <= v <= int_max ->
  ExtractNumber (dir ++ Separator :: stem ++ go ".png") = (v, None) /\
  ExtractNumber (stem ++ go ".png") = (v, None).
Proof.
  intros Hstem Hv.
  destruct (signedDecimal_Some stem v Hstem) as [Hne Hsep].
  assert (ExtractNumber (stem ++ go ".png") = (v, None)) as Hname.
  { rewrite ExtractNumber_Atoi, filepath_Base_name.
    - rewrite TrimSuffix_app. pose proof (Atoi_spec stem) as H.
      unfold reads_as in H. rewrite Hstem in H.
      destruct (Z.leb_spec int_min v); [|lia].
      destruct (Z.leb_spec v int_max); [|lia]. by rewrite H.
    - by destruct stem.
    - unfold noSeparator in *. rewrite forallb_app, Hsep. done. }
  split; [|done].
  rewrite ExtractNumber_join; [done|by destruct stem|].
  unfold noSeparator in *. rewrite forallb_app, Hsep. done.
Qed.

Lemma ExtractNumber_numeral_witness :
  signedDecimal (go "-0042") = Some (-42) /\ int_min <= -42 <= int_max /\
  ExtractNumber (go "data" ++ Separator :: go "-0042" ++ go ".png") = (-42, None).
Proof.
  split; [reflexivity|]. split; [done|].
  apply (ExtractNumber_numeral (go "data") (go "-0042") (-42)); done.
Defined.

(** ** Loading the frames *)

Lemma loadLoop_spec {error Image : Type} (LoadImage : gostring -> Image + error)
    (ConvertToGray : Image -> Gray) (paths : list gostring) (grayImages : list Gray) :
  match loadLoop error Image LoadImage ConvertToGray grayImages paths with
  | (Some frames, None) =>
    exists loaded,
      frames = grayImages ++ loaded /\
      Forall2 (fun filePath frame =>
                 exists img, LoadImage filePath = inl img /\ frame = ConvertToGray img)
              paths loaded
  | (None, Some failure) =>
    exists before after,
      paths = before ++ failedPath failure :: after /\
      Forall (fun filePath => exists img, LoadImage filePath = inl img) before /\
      LoadImage (failedPath failure) = inr (cause failure)
  | _ => False
  end.
Proof.
  revert grayImages. induction paths as [|filePath paths IH]; intros grayImages.
  { exists []. by rewrite app_nil_r. }
  cbn [loadLoop]. destruct (LoadImage filePath) as [img|err] eqn:Hload.
  - specialize (IH (grayImages ++ [ConvertToGray img])).
    destruct (loadLoop _ _ _ _ _ paths) as [[frames|] [failure|]]; try done.
    + destruct IH as (loaded & -> & Hall).
      exists (ConvertToGray img :: loaded). split; [by rewrite <- app_assoc|].
      constructor; [by exists img|done].
    + destruct IH as (before & after & -> & Hbefore & Hfail).
      exists (filePath :: before), after. split; [done|]. split; [|done].
      constructor; [by exists img|done].
  - exists [], paths. by repeat split.
Qed.

(** X12. [loadAndProcessImages] either returns one frame per path, in
    the order of the paths, each the grey conversion of the image loaded
    from its path; or it returns no frame at all and the failure of the
    first path that does not load, after every path before it has
    loaded. *)
Theorem loadAndProcessImages_spec {error Image : Type}
    (LoadImage : gostring -> Image + error) (ConvertToGray : Image -> Gray)
    (paths : list gostring) :
  match loadAndProcessImages error Image LoadImage ConvertToGray paths with
  | (Some frames, None) =>
    Forall2 (fun filePath frame =>
               exists img, LoadImage filePath = inl img /\ frame = ConvertToGray img)
            paths frames
  | (None, Some failure) =>
    exists before after,
      paths = before ++ failedPath failure :: after /\
      Forall (fun filePath => exists img, LoadImage filePath = inl img) before /\
      LoadImage (failedPath failure) = inr (cause failure)
  | _ => False
  end.
Proof.
  unfold loadAndProcessImages.
  pose proof (loadLoop_spec LoadImage ConvertToGray paths []) as H.
  destruct (loadLoop _ _ _ _ _ paths) as [[frames|] [failure|]]; try done.
  by destruct H as (loaded & -> & Hall).
Qed.

(** ** The default configuration *)

(** X13. When the configuration file does not exist, [NewConfig] returns
    the default configuration and no error: directories [data] and
    [results], output [result.png], window side 1.  The runner made
    from it maps a valid sequence of [w] by [h] frames to a [w] by [h]
    map whose cell [(x, y)] is the integer part of [min(c * 255, 255)]
    for the contrast [c] of the time series of the pixel [(x, y)]
    alone. *)
Theorem default_configuration {error data : Type}
    (ReadFile : gostring -> data + error) (IsNotExist : error -> bool)
    (Unmarshal : data -> Config -> Config + error) (path : gostring)
    (K : Z) (u : float64 -> Z) (w h : Z) (images : list Gray) :
  (exists err, ReadFile path = inr err /\ IsNotExist err = true) ->
  1 <= K <= int_max ->
  exists cfg,
    NewConfig error data ReadFile IsNotExist Unmarshal path = (Some cfg, None) /\
    Paths cfg = {| DataDir := go "data"; ResultsDir := go "results";
                   OutputFilename := go "result.png" |} /\
    WindowSize (algorithm (NewRunner cfg)) = 1 /\
    (valid_input w h (NewRunner cfg) images = true ->
     exists out,
       Run K u (NewRunner cfg) images = Ok out /\
       Rect out = {| Min := {| X := 0; Y := 0 |}; Max := {| X := w; Y := h |} |} /\
       forall x y, 0 <= x < w -> 0 <= y < h ->
         exists values t,
           timeSeries images x y = Ok values /\
           f64_trunc (math_Min (f64_mul (Formula.pixelContrast values) f64_255)
                               f64_255) = Some t /\
           GrayAt out x y = Ok t).
Proof.
  intros (err & Hread & Hmissing) HK. eexists. split.
  { unfold NewConfig. by rewrite Hread, Hmissing. }
  split; [done|]. split; [done|].
  intros Hvalid.
  destruct (valid_input_sizes _ _ _ _ Hvalid) as (Hwf & Hlen & Hws & Hsq & Hw & Hh).
  cbn [NewRunner algorithm Algorithm WindowSize] in Hw, Hh.
  assert (maxAlloc <= int_max) by done.
  pose proof Hvalid as (_ & _ & _ & _ & _ & _ & _ & Hwh)%valid_input_inv.
  eexists. split; [by apply (calculateContrastMap_valid K u w h)|].
  cbn [NewRunner algorithm Algorithm WindowSize].
  replace (w - 1 + 1) with w by lia. replace (h - 1 + 1) with h by lia.
  split; [done|].
  intros x y Hx Hy.
  rewrite contrastGrid_GrayAt by (done || lia).
  rewrite (windowContrast_one w h _ images x y Hvalid).
  exists (Formula.series images x y).
  assert (finite_in 0 (val 1 55) (Formula.pixelContrast (Formula.series images x y)) /\
          has_sign false (Formula.pixelContrast (Formula.series images x y)))
    as [Hfin Hsign].
  { rewrite <- (windowContrast_one w h _ images x y Hvalid).
    apply windowContrast_finite; (done || lia). }
  destruct (scaleIntensity_trunc u _ Hfin Hsign) as (t & Ht & _ & Hscale & _).
  exists t. split; [by apply timeSeries_wf|]. split; [done|]. by rewrite Hscale.
Qed.

Lemma default_configuration_witness :
  let images := [uniformFrame 2 2 50; uniformFrame 2 2 150] in
  (exists err : unit, (fun _ : gostring => inr tt : unit + unit) (go "go-tlasca.json")
                      = inr err /\ (fun _ : unit => true) err = true) /\
  1 <= 2 <= int_max /\
  exists cfg,
    NewConfig unit unit (fun _ => inr tt) (fun _ => true) (fun _ cfg => inl cfg)
              (go "go-tlasca.json") = (Some cfg, None) /\
    valid_input 2 2 (NewRunner cfg) images = true /\
    exists out, Run 2 (fun _ => 0) (NewRunner cfg) images = Ok out /\
      Rect out = {| Min := {| X := 0; Y := 0 |}; Max := {| X := 2; Y := 2 |} |}.
Proof.
  split; [by exists tt|]. split; [done|].
  destruct (default_configuration (error := unit) (data := unit)
              (fun _ => inr tt) (fun _ => true) (fun _ cfg => inl cfg)
              (go "go-tlasca.json") 2 (fun _ => 0) 2 2
              [uniformFrame 2 2 50; uniformFrame 2 2 150])
    as (cfg & Hcfg & _ & Hws & Hrun); [by exists tt|done|].
  exists cfg. split; [done|].
  assert (valid_input 2 2 (NewRunner cfg)
            [uniformFrame 2 2 50; uniformFrame 2 2 150] = true) as Hvalid.
  { unfold NewConfig in Hcfg. injection Hcfg as <-. reflexivity. }
  split; [done|].
  destruct (Hrun Hvalid) as (out & Hout & Hrect & _).
  by exists out.
Defined.
